(** * Infinity Angles backend: content lifecycle

    A shallow embedding of the two parts of the backend that carry state:

    - the post expiration sweep of [services/postCleanupService.js], over the
      [Post] collection of [models/Post.js] and the per-author counter, with
      the delete and update handlers of the posts controllers;
    - the image pipeline of [middleware/imageUpload.js] ([processImage],
      [cleanupFiles]) and [controllers/imageController.js] ([getImage],
      [deleteImage]) over the upload directory.

    Collections are finite maps from [_id] to document, the upload directory is
    a finite map from file name to file, dates are milliseconds since the epoch
    in [Z].  Every clock reading the code makes is an explicit argument. *)

From Stdlib Require Import ZArith Lia.
From stdpp Require Import base option list gmap strings fin_maps sorting.

Local Open Scope Z_scope.

(** ** Documents *)

Definition ObjectId := N.
Definition Date := Z.

(** [24 * 60 * 60 * 1000], the literal of the service and of the pre-save hook. *)
Definition DAY_MS : Z := 24 * 60 * 60 * 1000.

(** One entry of [postSchema.images]: [id], [url] and the [thumbnails]
    sub-documents, listed by profile name. *)
Record thumbnail := {
  thumb_url : string;
  thumb_width : Z;
  thumb_height : Z
}.

Record image := {
  image_id : string;
  image_url : string;
  image_thumbnails : list (string * thumbnail)
}.

(** A document of the [Post] collection, with the paths of [postSchema] that the
    lifecycle code reads or writes.  [createdAt] and [updatedAt] come from
    [timestamps: true].  The schema declares no [deletedAt] path.  The like
    list and the two denormalised counters are written by none of the
    operations below and are left out. *)
Record Post := {
  content : string;
  author : ObjectId;
  category : string;
  tags : list string;
  images : list image;
  isActive : bool;
  expiresAt : Date;
  createdAt : Date;
  updatedAt : Date
}.

Global Instance thumbnail_eq_dec : EqDecision thumbnail.
Proof. solve_decision. Defined.
Global Instance image_eq_dec : EqDecision image.
Proof. solve_decision. Defined.
Global Instance Post_eq_dec : EqDecision Post.
Proof. solve_decision. Defined.

(** Modelled from the spec: [models/User.js] is not among the sources; the
    author aggregate of the spec carries the integer [postsCount], the path
    the controllers and the cleanup service write. *)
Record User := {
  username : string;
  postsCount : Z
}.

Record Db := {
  posts : gmap ObjectId Post;
  users : gmap ObjectId User
}.

(** ** Mongoose updates under a strict schema *)

Inductive value :=
| VBool (b : bool)
| VDate (t : Date)
| VString (s : string)
| VStrings (l : list string).

(** The paths [postSchema] declares (with the two timestamp paths). *)
Definition postSchema_paths : list string :=
  ["content"; "author"; "category"; "tags"; "images"; "likes"; "likesCount";
   "commentsCount"; "isActive"; "expiresAt"; "createdAt"; "updatedAt"]%string.

Definition set_isActive (b : bool) (p : Post) : Post :=
  {| content := content p; author := author p; category := category p;
     tags := tags p; images := images p; isActive := b;
     expiresAt := expiresAt p; createdAt := createdAt p;
     updatedAt := updatedAt p |}.

Definition set_content (s : string) (p : Post) : Post :=
  {| content := s; author := author p; category := category p;
     tags := tags p; images := images p; isActive := isActive p;
     expiresAt := expiresAt p; createdAt := createdAt p;
     updatedAt := updatedAt p |}.

Definition set_category (s : string) (p : Post) : Post :=
  {| content := content p; author := author p; category := s;
     tags := tags p; images := images p; isActive := isActive p;
     expiresAt := expiresAt p; createdAt := createdAt p;
     updatedAt := updatedAt p |}.

Definition set_tags (l : list string) (p : Post) : Post :=
  {| content := content p; author := author p; category := category p;
     tags := l; images := images p; isActive := isActive p;
     expiresAt := expiresAt p; createdAt := createdAt p;
     updatedAt := updatedAt p |}.

Definition set_expiresAt (t : Date) (p : Post) : Post :=
  {| content := content p; author := author p; category := category p;
     tags := tags p; images := images p; isActive := isActive p;
     expiresAt := t; createdAt := createdAt p; updatedAt := updatedAt p |}.

Definition set_createdAt (t : Date) (p : Post) : Post :=
  {| content := content p; author := author p; category := category p;
     tags := tags p; images := images p; isActive := isActive p;
     expiresAt := expiresAt p; createdAt := t; updatedAt := updatedAt p |}.

Definition set_updatedAt (t : Date) (p : Post) : Post :=
  {| content := content p; author := author p; category := category p;
     tags := tags p; images := images p; isActive := isActive p;
     expiresAt := expiresAt p; createdAt := createdAt p; updatedAt := t |}.

(** Writing one path of a post document.  Paths of the record are written;
    any other path leaves the document as it is. *)
Definition Post_set (k : string) (v : value) (p : Post) : Post :=
  match v with
  | VBool b => if String.eqb k "isActive" then set_isActive b p else p
  | VDate t =>
      if String.eqb k "expiresAt" then set_expiresAt t p
      else if String.eqb k "createdAt" then set_createdAt t p
      else if String.eqb k "updatedAt" then set_updatedAt t p
      else p
  | VString s =>
      if String.eqb k "content" then set_content s p
      else if String.eqb k "category" then set_category s p
      else p
  | VStrings l => if String.eqb k "tags" then set_tags l p else p
  end.

(** Reading one path of a stored post document: [None] is JavaScript's
    [undefined], what a read of a path the document does not hold gives. *)
Definition Post_get (k : string) (p : Post) : option value :=
  if String.eqb k "content" then Some (VString (content p))
  else if String.eqb k "category" then Some (VString (category p))
  else if String.eqb k "tags" then Some (VStrings (tags p))
  else if String.eqb k "isActive" then Some (VBool (isActive p))
  else if String.eqb k "expiresAt" then Some (VDate (expiresAt p))
  else if String.eqb k "createdAt" then Some (VDate (createdAt p))
  else if String.eqb k "updatedAt" then Some (VDate (updatedAt p))
  else None.

(** What Mongoose makes of an update document before it is sent.  With the
    default [strict: true], which [postSchema] keeps, a path the schema does
    not declare is dropped; with [timestamps: true] the update of every
    [updateMany], [findOneAndUpdate] and [findByIdAndUpdate] also sets
    [updatedAt] to [now], the time Mongoose reads for the query, over an
    [updatedAt] the document of the caller may carry. *)
Definition castUpdate (now : Date) (upd : list (string * value))
  : list (string * value) :=
  filter (λ kv, bool_decide (kv.1 ∈ postSchema_paths)) upd ++
  [("updatedAt"%string, VDate now)].

Definition applyUpdate (now : Date) (upd : list (string * value)) (p : Post) : Post :=
  foldl (λ q kv, Post_set kv.1 kv.2 q) p (castUpdate now upd).

(** ** Model queries *)

(** [Post.find(filter)]: the matching documents. *)
Definition Post_find (q : Post → bool) (ps : gmap ObjectId Post)
  : list (ObjectId * Post) :=
  map_to_list (filter (λ kv, q kv.2 = true) ps).

(** [Post.countDocuments(filter)]. *)
Definition Post_countDocuments (q : Post → bool) (ps : gmap ObjectId Post) : Z :=
  Z.of_nat (size (filter (λ kv : ObjectId * Post, q kv.2 = true) ps)).

(** [Post.updateMany(filter, update)]: every matching document is updated,
    all with the one timestamp [now]; the second component is
    [modifiedCount]. *)
Definition Post_updateMany (now : Date) (q : Post → bool)
    (upd : list (string * value)) (ps : gmap ObjectId Post)
  : gmap ObjectId Post * Z :=
  ((λ p, if q p then applyUpdate now upd p else p) <$> ps,
   Post_countDocuments
     (λ p, q p && negb (bool_decide (applyUpdate now upd p = p))) ps).

(** [Post.deleteMany(filter)]: every matching document is removed; the second
    component is [deletedCount]. *)
Definition Post_deleteMany (q : Post → bool) (ps : gmap ObjectId Post)
  : gmap ObjectId Post * Z :=
  (filter (λ kv, q kv.2 = false) ps, Post_countDocuments q ps).

(** [User.findByIdAndUpdate(id, { postsCount: n })]: no document, no write. *)
Definition set_postsCount (n : Z) (u : User) : User :=
  {| username := username u; postsCount := n |}.

Definition User_findByIdAndUpdate (id : ObjectId) (f : User → User)
    (us : gmap ObjectId User) : gmap ObjectId User :=
  alter f id us.

(** ** The cleanup service ([services/postCleanupService.js]) *)

(** The clock readings of one run of [cleanupExpiredPosts], in program
    order: [Date.now()] for the 24 hour cutoff, [new Date()] inside the update
    document, the timestamp Mongoose puts on the [updateMany], [Date.now()]
    for the 7 day cutoff. *)
Record clock := {
  at_cutoff : Date;
  at_stamp : Date;
  at_update : Date;
  at_purge : Date
}.

Record SweepResult := {
  softDeleted : Z;
  hardDeleted : Z;
  usersUpdated : Z
}.

(** [{ createdAt: { $lt: cutoff }, isActive: true }] *)
Definition expired_filter (cutoff : Date) (p : Post) : bool :=
  bool_decide (createdAt p < cutoff) && isActive p.

(** [{ createdAt: { $lt: cutoff }, isActive: false }] *)
Definition purge_filter (cutoff : Date) (p : Post) : bool :=
  bool_decide (createdAt p < cutoff) && negb (isActive p).

(** [{ author: authorId, isActive: true }] *)
Definition active_of (a : ObjectId) (p : Post) : bool :=
  bool_decide (author p = a) && isActive p.

(** [[...new Set(l)]]: the elements of [l] in order of first occurrence. *)
Fixpoint Set_spread {A} `{EqDecision A} (seen l : list A) : list A :=
  match l with
  | [] => []
  | x :: l' =>
      if decide (x ∈ seen) then Set_spread seen l'
      else x :: Set_spread (x :: seen) l'
  end.

(** The update document of the soft delete. *)
Definition softDelete_update (stamp : Date) : list (string * value) :=
  [("isActive", VBool false); ("deletedAt", VDate stamp)]%string.

(** The three writes of a run that found something to expire: the
    [updateMany], the counter loop, the [deleteMany]. *)
Definition softDeletePhase (ck : clock) (db : Db) : Db * Z :=
  let r := Post_updateMany (at_update ck)
             (expired_filter (at_cutoff ck - DAY_MS))
             (softDelete_update (at_stamp ck)) (posts db) in
  ({| posts := r.1; users := users db |}, r.2).

Definition syncCounter (ps : gmap ObjectId Post) (us : gmap ObjectId User)
    (authorId : ObjectId) : gmap ObjectId User :=
  let activePostCount := Post_countDocuments (active_of authorId) ps in
  User_findByIdAndUpdate authorId (set_postsCount activePostCount) us.

Definition syncPhase (authorIds : list ObjectId) (db : Db) : Db :=
  {| posts := posts db; users := foldl (syncCounter (posts db)) (users db) authorIds |}.

Definition hardDeletePhase (ck : clock) (db : Db) : Db * Z :=
  let r := Post_deleteMany (purge_filter (at_purge ck - 7 * DAY_MS)) (posts db) in
  ({| posts := r.1; users := users db |}, r.2).

(** [cleanupExpiredPosts]: [None] is the bare [return] of the branch that
    found no expired post. *)
Definition cleanupExpiredPosts (ck : clock) (db : Db) : Db * option SweepResult :=
  let twentyFourHoursAgo := at_cutoff ck - DAY_MS in
  let expiredPosts := Post_find (expired_filter twentyFourHoursAgo) (posts db) in
  if bool_decide (length expiredPosts = 0%nat) then (db, None)
  else
    let authorIds := Set_spread [] (map (λ kv, author kv.2) expiredPosts) in
    let '(db1, modifiedCount) := softDeletePhase ck db in
    let db2 := syncPhase authorIds db1 in
    let '(db3, deletedCount) := hardDeletePhase ck db2 in
    (db3, Some {| softDeleted := modifiedCount;
                  hardDeleted := deletedCount;
                  usersUpdated := Z.of_nat (length authorIds) |}).

(** [manualCleanup] awaits [cleanupExpiredPosts] and returns its result. *)
Definition manualCleanup (ck : clock) (db : Db) : Db * option SweepResult :=
  cleanupExpiredPosts ck db.

(** One sweep, scheduled or manual, as a store transformer. *)
Definition sweep (ck : clock) (db : Db) : Db := (cleanupExpiredPosts ck db).1.

(** ** The TTL index of [postSchema.expiresAt] *)

(** [index: { expireAfterSeconds: 86400 }] *)
Definition expireAfterSeconds : Z := 86400.

(** The pre-save hook of a new post: [expiresAt = Date.now() + 24h];
    [createdAt] and [updatedAt] are the one timestamp Mongoose adds;
    [isActive] takes its default. *)
Definition new_Post (t_created t_hook : Date) (authorId : ObjectId)
    (content' category' : string) (tags' : list string) (images' : list image) : Post :=
  {| content := content'; author := authorId; category := category';
     tags := tags'; images := images'; isActive := true;
     expiresAt := t_hook + DAY_MS; createdAt := t_created;
     updatedAt := t_created |}.

(** One pass of the database's TTL monitor at time [now]: a document whose
    indexed date plus [expireAfterSeconds] has passed is removed, whatever its
    other fields hold. *)
Definition ttlMonitor (now : Date) (db : Db) : Db :=
  {| posts := filter (λ kv, ¬ (expiresAt kv.2 + expireAfterSeconds * 1000 ≤ now)) (posts db);
     users := users db |}.

(** ** The posts controllers *)

Definition inc_postsCount (d : Z) (u : User) : User :=
  set_postsCount (postsCount u + d) u.

(** What a request leaves the client with: a response with its status, or
    nothing, the handler having rejected before it answered. *)
Inductive outcome :=
| Responds (status : Z)
| Rejects.

(** The handlers of the first controller answer through
    [sendSuccessResponse] and [sendErrorResponse], names their module
    neither defines nor imports (it requires [ResponseUtils] and does not
    use it).  Evaluating either name throws a ReferenceError: in the [try]
    block, where the [catch] block takes it, and in the [catch] block
    again, where nothing does.  The handler rejects and no response is
    sent, whatever status the call names; what it wrote before stays
    written. *)
Definition sendSuccessResponse (status : Z) : outcome := Rejects.
Definition sendErrorResponse (status : Z) : outcome := Rejects.

(** [deletePost] of the first controller: a conditional update on
    [{ _id, author, isActive: true }] that sets [isActive: false], stamped
    by Mongoose at [now], then the decrement of the counter. *)
Definition deletePost_soft (postId userId : ObjectId) (now : Date) (db : Db)
  : Db * outcome :=
  match posts db !! postId with
  | Some p =>
      if bool_decide (author p = userId) && isActive p then
        ({| posts := <[postId := applyUpdate now [("isActive"%string, VBool false)] p]>
                       (posts db);
            users := User_findByIdAndUpdate userId (inc_postsCount (-1)) (users db) |},
         sendSuccessResponse 200)
      else (db, sendErrorResponse 404)
  | None => (db, sendErrorResponse 404)
  end.

(** [deletePost] of the second controller: [findById], an ownership check,
    then [findByIdAndDelete]. *)
Definition deletePost (id userId : ObjectId) (db : Db) : Db * Z :=
  match posts db !! id with
  | None => (db, 404)
  | Some p =>
      if bool_decide (author p = userId) then
        ({| posts := delete id (posts db);
            users := User_findByIdAndUpdate userId (inc_postsCount (-1)) (users db) |}, 200)
      else (db, 403)
  end.

(** [x || d] on a possibly missing string. *)
Definition or_default (x : option string) (d : string) : string :=
  match x with
  | Some s => if String.eqb s EmptyString then d else s
  | None => d
  end.

(** [updatePost] of the first controller: a conditional update on
    [{ _id, author, isActive: true }].  [valid] is
    [validationResult(req).isEmpty()]; [validates] tells whether the update
    passes the validators of the schema, which [runValidators: true] runs
    on it before it is sent; [t_doc] is the [new Date()] of the update
    document and [now] the timestamp of Mongoose. *)
Definition updatePost_old (valid validates : bool) (postId userId : ObjectId)
    (t_doc now : Date) (content' : string) (category' : option string)
    (tags' : option (list string)) (db : Db) : Db * outcome :=
  if negb valid then (db, sendErrorResponse 400)
  else if negb validates then (db, sendErrorResponse 500)
  else
    match posts db !! postId with
    | Some p =>
        if bool_decide (author p = userId) && isActive p then
          let upd := [("content", VString content');
                      ("category", VString (or_default category' "General"));
                      ("tags", VStrings (default [] tags'));
                      ("updatedAt", VDate t_doc)]%string in
          ({| posts := <[postId := applyUpdate now upd p]> (posts db);
              users := users db |},
           sendSuccessResponse 200)
        else (db, sendErrorResponse 404)
    | None => (db, sendErrorResponse 404)
    end.

(** [...(x && { k: x })]: the path is in the update only when [x] is truthy. *)
Definition spread_string (k : string) (x : option string) : list (string * value) :=
  match x with
  | Some s => if String.eqb s EmptyString then [] else [(k, VString s)]
  | None => []
  end.

Definition spread_strings (k : string) (x : option (list string)) : list (string * value) :=
  match x with
  | Some l => [(k, VStrings l)]
  | None => []
  end.

(** [updatePost] of the second controller: [findById], an ownership check,
    then [findByIdAndUpdate] with [runValidators: true].  [valid] is
    [validationResult(req).isEmpty()]; [validates] tells whether the update
    passes the validators of the schema (a category outside the enumeration
    does not); a rejected update is answered 500 by the [catch] branch and
    writes nothing.  [now] is the timestamp of Mongoose. *)
Definition updatePost (valid validates : bool) (id userId : ObjectId) (now : Date)
    (content' category' : option string) (tags' : option (list string))
    (db : Db) : Db * Z :=
  if negb valid then (db, 400)
  else
    match posts db !! id with
    | None => (db, 404)
    | Some p =>
        if bool_decide (author p = userId) then
          if negb validates then (db, 500)
          else
            let upd := spread_string "content" content' ++
                       spread_string "category" category' ++
                       spread_strings "tags" tags' in
            ({| posts := <[id := applyUpdate now upd p]> (posts db);
                users := users db |}, 200)
        else (db, 403)
    end.

(** ** Post states *)

(** The three states of the lifecycle as the store encodes them: a stored
    document with [isActive] set, a stored document with it cleared, no
    document. *)
Inductive PostState := Active | Expired | Purged.

Definition state_of (ps : gmap ObjectId Post) (id : ObjectId) : PostState :=
  match ps !! id with
  | Some p => if isActive p then Active else Expired
  | None => Purged
  end.

Definition rank (s : PostState) : nat :=
  match s with Active => 0 | Expired => 1 | Purged => 2 end.

(** ** File names ([path] of Node, on one path segment) *)

Module Path.

(** Splits a name at its last dot: [Some (pre, suf)] when the name is
    [pre ++ "." ++ suf] and [suf] holds no dot. *)
Fixpoint split_last_dot (s : string) : option (string * string) :=
  match s with
  | EmptyString => None
  | String c r =>
      match split_last_dot r with
      | Some (pre, suf) => Some (String c pre, suf)
      | None => if Ascii.eqb c (Ascii.ascii_of_nat 46) then Some (EmptyString, r) else None
      end
  end.

(** [path.extname]: from the last dot to the end; empty when there is no
    dot, when the only dot leads the name, and for [".."]. *)
Definition extname (s : string) : string :=
  match split_last_dot s with
  | None => EmptyString
  | Some (pre, suf) =>
      if String.eqb pre EmptyString || String.eqb s ".." then EmptyString else "." +:+ suf
  end.

(** [path.parse(s).name]: the name without its extension. *)
Definition parse_name (s : string) : string :=
  String.substring 0 (String.length s - String.length (extname s))%nat s.

End Path.

(** ** The upload directory *)

Inductive format := JPEG | PNG | GIF | WEBP.

Record dimensions := { width : Z; height : Z }.

(** A stored image file: how its bytes are encoded, the encoder quality when
    sharp's JPEG encoder wrote it, and its pixel size. *)
Record file := {
  file_format : format;
  file_quality : option Z;
  file_size : dimensions
}.

(** [config.images.uploadPath], keyed by file name. *)
Abbreviation Fs := (gmap string file).

(** [config.images.thumbnailSizes], in the order [Object.entries] lists it. *)
Definition thumbnailSizes : list (string * dimensions) :=
  [("small", {| width := 150; height := 150 |});
   ("medium", {| width := 400; height := 400 |});
   ("large", {| width := 800; height := 600 |})]%string.

(** [`${name}_${size}${ext}`] with [name = path.parse(filename).name] and
    [ext = path.extname(filename)]. *)
Definition thumbnailName (filename size : string) : string :=
  Path.parse_name filename +:+ "_" +:+ size +:+ Path.extname filename.

Inductive error :=
| ENOENT (p : string)
| SharpError (p : string).

(** File operations: a state transformer that may throw; what was written
    before a throw stays written. *)
Definition FsM (A : Type) : Type := Fs → Fs * (error + A).

Global Instance FsM_ret : MRet FsM := λ A x fs, (fs, inr x).

Global Instance FsM_bind : MBind FsM := λ A B k m fs,
  match m fs with
  | (fs', inr x) => k x fs'
  | (fs', inl e) => (fs', inl e)
  end.

Definition throw {A} (e : error) : FsM A := λ fs, (fs, inl e).

(** [try { m } catch (e) { h }] *)
Definition try_catch {A} (m : FsM A) (h : error → FsM A) : FsM A := λ fs,
  match m fs with
  | (fs', inr x) => (fs', inr x)
  | (fs', inl e) => h e fs'
  end.

(** [fs.access] and [fs.unlink]: both reject on a missing file. *)
Definition access (p : string) : FsM unit := λ fs,
  match fs !! p with
  | Some _ => (fs, inr ())
  | None => (fs, inl (ENOENT p))
  end.

Definition unlink (p : string) : FsM unit := λ fs,
  match fs !! p with
  | Some _ => (delete p fs, inr ())
  | None => (fs, inl (ENOENT p))
  end.

(** ** sharp *)

(** What surrounds one request: the base URL of the request, the output
    paths at which [toFile] rejects (an encoder or storage failure), the
    identifiers [uuidv4()] hands out and the time of [new Date()]. *)
Record env := {
  baseUrl : string;
  toFile_fails : string → bool;
  uuidv4 : nat → string;
  now : Date
}.

(** [resize(w, h, { fit: 'cover', position: 'center' })]: the source is
    scaled, keeping its aspect ratio, until it covers [w × h] and is then
    cropped about its centre; enlargement is not switched off, so the output
    is [w × h] whatever the source measures. *)
Definition resize_cover (target source : dimensions) : dimensions := target.

(** The scale factor of the cover fit as a fraction (numerator, denominator):
    the larger of [w / source.w] and [h / source.h]. *)
Definition cover_scale (target source : dimensions) : Z * Z :=
  if bool_decide (height target * width source ≤ width target * height source)
  then (width target, width source)
  else (height target, height source).

Definition enlarges (target source : dimensions) : bool :=
  let '(n, d) := cover_scale target source in bool_decide (d < n).

(** [sharp(src).resize(w, h, {fit: 'cover'}).jpeg({ quality: 85 }).toFile(dst)]:
    the output format is the one selected explicitly, whatever extension
    [dst] carries. *)
Definition sharp_thumbnail (e : env) (src : string) (dims : dimensions)
    (dst : string) : FsM unit := λ fs,
  match fs !! src with
  | None => (fs, inl (ENOENT src))
  | Some f =>
      if toFile_fails e dst then (fs, inl (SharpError dst))
      else (<[dst := {| file_format := JPEG; file_quality := Some 85;
                        file_size := resize_cover dims (file_size f) |}]> fs,
            inr ())
  end.

(** [sharp(src).metadata()] *)
Definition sharp_metadata (src : string) : FsM file := λ fs,
  match fs !! src with
  | None => (fs, inl (ENOENT src))
  | Some f => (fs, inr f)
  end.

(** ** The upload middleware ([middleware/imageUpload.js]) *)

(** A file as multer hands it over; [file.path] is [filename] inside the
    upload directory. *)
Record upload := {
  filename : string;
  originalname : string;
  mimetype : string;
  size : Z
}.

Record processedImage := {
  pi_id : string;
  pi_filename : string;
  pi_originalName : string;
  pi_mimeType : string;
  pi_size : Z;
  pi_url : string;
  pi_thumbnails : list (string * thumbnail);
  pi_metadata : dimensions * format;
  pi_uploadedAt : Date
}.

Definition uploads_url (e : env) (name : string) : string :=
  baseUrl e +:+ "/uploads/images/" +:+ name.

(** The inner loop of [processImage] over [Object.entries(thumbnailSizes)]. *)
Fixpoint makeThumbnails (e : env) (f : upload)
    (sizes : list (string * dimensions)) : FsM (list (string * thumbnail)) :=
  match sizes with
  | [] => mret []
  | (size', dims) :: rest =>
      let thumbnailPath := thumbnailName (filename f) size' in
      _ ← sharp_thumbnail e (filename f) dims thumbnailPath;
      ths ← makeThumbnails e f rest;
      mret ((size', {| thumb_url := uploads_url e thumbnailPath;
                       thumb_width := width dims;
                       thumb_height := height dims |}) :: ths)
  end.

Definition processOne (e : env) (i : nat) (f : upload) : FsM processedImage :=
  thumbnails ← makeThumbnails e f thumbnailSizes;
  metadata ← sharp_metadata (filename f);
  mret {| pi_id := uuidv4 e i;
          pi_filename := filename f;
          pi_originalName := originalname f;
          pi_mimeType := mimetype f;
          pi_size := size f;
          pi_url := uploads_url e (filename f);
          pi_thumbnails := thumbnails;
          pi_metadata := (file_size metadata, file_format metadata);
          pi_uploadedAt := now e |}.

(** The outer loop over the files of the request. *)
Fixpoint processFiles (e : env) (i : nat) (files : list upload)
  : FsM (list processedImage) :=
  match files with
  | [] => mret []
  | f :: rest =>
      p ← processOne e i f;
      ps ← processFiles e (S i) rest;
      mret (p :: ps)
  end.

(** [processImage]: [inr l] is [req.processedImages = l; next()], [inl err]
    is the [catch] branch, which is [next(error)] and nothing else. *)
Definition processImage (e : env) (files : list upload) : FsM (list processedImage) :=
  try_catch (processFiles e 0 files) (λ err, throw err).

(** The tolerant removal of one thumbnail: [try { unlink } catch { }]. *)
Definition unlink_quietly (p : string) : FsM unit :=
  try_catch (unlink p) (λ _, mret ()).

Fixpoint unlinkThumbnails (name : string) (sizes : list string) : FsM unit :=
  match sizes with
  | [] => mret ()
  | size' :: rest =>
      _ ← unlink_quietly (thumbnailName name size');
      unlinkThumbnails name rest
  end.

(** [cleanupFiles]: for each file, the original is unlinked and then its
    thumbnails; a failure to unlink the original is logged and skips the
    thumbnails of that file. *)
Fixpoint cleanupFiles (files : list upload) : FsM unit :=
  match files with
  | [] => mret ()
  | f :: rest =>
      _ ← try_catch
            (_ ← unlink (filename f);
             unlinkThumbnails (filename f) thumbnailSizes.*1)
            (λ _, mret ());
      cleanupFiles rest
  end.

(** ** The image controller ([controllers/imageController.js]) *)

Record response := {
  status : Z;
  success : bool;
  message : string
}.

(** [getImage]: 404 when [fs.access] rejects, the file otherwise. *)
Definition getImage (name : string) (fs : Fs) : Z :=
  match access name fs with
  | (_, inr _) => 200
  | (_, inl _) => 404
  end.

(** [deleteImage] *)
Definition deleteImage (name : string) (fs : Fs) : Fs * response :=
  match access name fs with
  | (_, inl _) =>
      (fs, {| status := 404; success := false; message := "Image not found" |})
  | (_, inr _) =>
      match (_ ← unlink name; unlinkThumbnails name thumbnailSizes.*1) fs with
      | (fs', inr _) =>
          (fs', {| status := 200; success := true;
                   message := "Image deleted successfully" |})
      | (fs', inl _) =>
          (fs', {| status := 500; success := false;
                   message := "Error deleting image" |})
      end
  end.

(** The files one asset consists of: the original and one derivative per
    profile. *)
Definition asset_files (name : string) : list string :=
  name :: map (thumbnailName name) thumbnailSizes.*1.

(** ** The whole store *)

Record World := {
  db : Db;
  files : Fs
}.

(** The cleanup service requires the two models and nothing of the file
    system: a sweep acts on the collections only. *)
Definition sweep_world (ck : clock) (w : World) : World :=
  {| db := sweep ck (db w); files := files w |}.

Definition ttl_world (t : Date) (w : World) : World :=
  {| db := ttlMonitor t (db w); files := files w |}.

(** A file belongs to a post when one of the post's images, or one of their
    thumbnails, has the file's URL. *)
Definition owns (e : env) (p : Post) (name : string) : bool :=
  existsb (λ im,
    String.eqb (image_url im) (uploads_url e name) ||
    existsb (λ t, String.eqb (thumb_url t.2) (uploads_url e name))
            (image_thumbnails im)) (images p).

(** ** Vocabulary of the properties *)

(** What the soft delete makes of one document. *)
Definition expire (ck : clock) (p : Post) : Post :=
  if expired_filter (at_cutoff ck - DAY_MS) p
  then set_updatedAt (at_update ck) (set_isActive false p)
  else p.

(** Whether the first query of a run finds anything. *)
Definition found_expired (ck : clock) (d : Db) : Prop :=
  ∃ i p, posts d !! i = Some p ∧ expired_filter (at_cutoff ck - DAY_MS) p = true.

(** The ids of the authors the first query found. *)
Definition authorIds_of (ck : clock) (d : Db) : list ObjectId :=
  Set_spread [] (map (λ kv, author kv.2)
    (Post_find (expired_filter (at_cutoff ck - DAY_MS)) (posts d))).

(** What happens to the store without a request: a run of the cleanup
    service, or a pass of the TTL monitor of the database. *)
Inductive event :=
| Sweep (ck : clock)
| TtlPass (t : Date).

Definition step (w : World) (ev : event) : World :=
  match ev with
  | Sweep ck => sweep_world ck w
  | TtlPass t => ttl_world t w
  end.

Definition run (evs : list event) (w : World) : World := foldl step w evs.

(** The time at which an event looks at the age of a post. *)
Definition time_of (ev : event) : Date :=
  match ev with
  | Sweep ck => at_purge ck
  | TtlPass t => t
  end.

(** An event that leaves the record of [p] in place: a sweep while [p] is at
    most 7 days old, a TTL pass before [expiresAt] plus the index delay. *)
Definition spares (p : Post) (ev : event) : Prop :=
  match ev with
  | Sweep ck => at_purge ck - createdAt p ≤ 7 * DAY_MS
  | TtlPass t => t < expiresAt p + expireAfterSeconds * 1000
  end.

(** What writes posts that are stored: the runs of the cleanup service, the
    delete and update requests of the two controllers, and the passes of
    the TTL monitor of the database. *)
Inductive operation :=
| OpSweep (ck : clock)
| OpDeleteSoft (postId userId : ObjectId) (now : Date)
| OpDelete (id userId : ObjectId)
| OpUpdateOld (valid validates : bool) (postId userId : ObjectId)
    (t_doc now : Date) (content' : string)
    (category' : option string) (tags' : option (list string))
| OpUpdate (valid validates : bool) (id userId : ObjectId) (now : Date)
    (content' category' : option string) (tags' : option (list string))
| OpTtlPass (t : Date).

(** The successive contents of the store while an operation executes, one
    per write, in order.  A sweep that finds nothing writes nothing. *)
Definition writes (op : operation) (d : Db) : list Db :=
  match op with
  | OpSweep ck =>
      let expiredPosts :=
        Post_find (expired_filter (at_cutoff ck - DAY_MS)) (posts d) in
      if bool_decide (length expiredPosts = 0%nat) then []
      else
        let d1 := (softDeletePhase ck d).1 in
        let d2 := syncPhase (authorIds_of ck d) d1 in
        [d1; d2; (hardDeletePhase ck d2).1]
  | OpDeleteSoft postId userId now => [(deletePost_soft postId userId now d).1]
  | OpDelete id userId => [(deletePost id userId d).1]
  | OpUpdateOld v vs postId userId td now c g t =>
      [(updatePost_old v vs postId userId td now c g t d).1]
  | OpUpdate v vs id userId now c g t => [(updatePost v vs id userId now c g t d).1]
  | OpTtlPass t => [ttlMonitor t d]
  end.

(** The store an operation leaves. *)
Definition exec (op : operation) (d : Db) : Db :=
  match op with
  | OpSweep ck => sweep ck d
  | OpDeleteSoft postId userId now => (deletePost_soft postId userId now d).1
  | OpDelete id userId => (deletePost id userId d).1
  | OpUpdateOld v vs postId userId td now c g t =>
      (updatePost_old v vs postId userId td now c g t d).1
  | OpUpdate v vs id userId now c g t => (updatePost v vs id userId now c g t d).1
  | OpTtlPass t => ttlMonitor t d
  end.

(** Every content of the store a reader can observe during a sequence of
    operations, each with the operation that wrote it. *)
Fixpoint trace (ops : list operation) (d : Db) : list (operation * Db) :=
  match ops with
  | [] => []
  | op :: rest => map (pair op) (writes op d) ++ trace rest (exec op d)
  end.

Definition observed_states (i : ObjectId) (ops : list operation) (d : Db)
  : list (operation * PostState) :=
  map (λ od, (od.1, state_of (posts od.2) i)) (trace ops d).

(** One step of the lifecycle: nothing, Active to Expired, Expired to
    Purged. *)
Inductive lifecycle_step : PostState → PostState → Prop :=
| ls_stay s : lifecycle_step s s
| ls_expire : lifecycle_step Active Expired
| ls_purge : lifecycle_step Expired Purged.

(** A step is allowed when it is a lifecycle step, or the shortcut from
    Active to Purged, taken by an explicit delete of that very post or by a
    pass of the TTL monitor. *)
Definition allowed (i : ObjectId) (op : operation) (s s' : PostState) : Prop :=
  lifecycle_step s s' ∨
  (s = Active ∧ s' = Purged ∧
   ((∃ u, op = OpDelete i u) ∨ (∃ t, op = OpTtlPass t))).

(** The shortcut as the specification has it: by an explicit delete only. *)
Definition allowed_as_stated (i : ObjectId) (op : operation)
    (s s' : PostState) : Prop :=
  lifecycle_step s s' ∨ (s = Active ∧ s' = Purged ∧ ∃ u, op = OpDelete i u).

(** A chain of observations, from the state [s] on, whose every step
    satisfies [R]. *)
Fixpoint steps_by (R : operation → PostState → PostState → Prop)
    (s : PostState) (l : list (operation * PostState)) : Prop :=
  match l with
  | [] => True
  | (op, s') :: l' => R op s s' ∧ steps_by R s' l'
  end.

Definition steps_allowed (i : ObjectId) (s : PostState)
    (l : list (operation * PostState)) : Prop :=
  steps_by (allowed i) s l.

Global Instance PostState_eq_dec : EqDecision PostState.
Proof. solve_decision. Defined.

(** A sequence of observations with repeated neighbours merged. *)
Fixpoint squash (s : PostState) (l : list PostState) : list PostState :=
  match l with
  | [] => [s]
  | s' :: l' => if decide (s = s') then squash s' l' else s :: squash s' l'
  end.

(** The lifecycle from a state on. *)
Definition lifecycle_from (s : PostState) : list PostState :=
  match s with
  | Active => [Active; Expired; Purged]
  | Expired => [Expired; Purged]
  | Purged => [Purged]
  end.

(** ** The properties as the specification words them *)

(** Threshold of the soft delete with the 24 hour bound included. *)
Definition threshold_inclusive (ck : clock) (d : Db) : Prop :=
  ∀ i p, posts d !! i = Some p → isActive p = true →
    (DAY_MS ≤ at_cutoff ck - createdAt p →
       state_of (posts (sweep ck d)) i = Expired) ∧
    (at_cutoff ck - createdAt p < DAY_MS →
       state_of (posts (sweep ck d)) i = Active).

(** Every sweep purges each Expired post of age at least 7 days: the record
    goes and so does every file the post owns. *)
Definition purge_reaps (e : env) (ck : clock) (w : World) : Prop :=
  ∀ i p, posts (db w) !! i = Some p → isActive p = false →
    7 * DAY_MS ≤ at_purge ck - createdAt p →
    posts (db (sweep_world ck w)) !! i = None ∧
    ∀ name, owns e p name = true → files (sweep_world ck w) !! name = None.

(** The record of a post stays in the store as long as the post is less
    than 7 days old. *)
Definition retained_for_7_days (evs : list event) (w : World) : Prop :=
  ∀ i p, posts (db w) !! i = Some p →
    (∀ ev, ev ∈ evs → time_of ev - createdAt p < 7 * DAY_MS) →
    is_Some (posts (db (run evs w)) !! i).

(** Post state is monotonic, and a post leaves Active for Purged by an
    explicit delete only. *)
Definition monotonic_as_stated (ops : list operation) (d : Db) (i : ObjectId)
  : Prop :=
  steps_by (allowed_as_stated i) (state_of (posts d) i) (observed_states i ops d).

(** Every post a sweep expires reads back with [deletedAt] holding the time
    of the sweep. *)
Definition stamps_deletedAt (ck : clock) (d : Db) : Prop :=
  ∀ i p, posts d !! i = Some p →
    expired_filter (at_cutoff ck - DAY_MS) p = true →
    ∃ p', posts (sweep ck d) !! i = Some p' ∧
          Post_get "deletedAt" p' = Some (VDate (at_stamp ck)).

(** ** Sample stores *)

Definition alice : ObjectId := 7%N.

Definition sample_user : User := {| username := "alice"; postsCount := 5 |}.

(** A post created at time 0 by the pre-save hook. *)
Definition sample_post : Post := new_Post 0 0 alice "hello" "General" [] [].

Definition sample_db : Db :=
  {| posts := {[ 1%N := sample_post ]}; users := {[ alice := sample_user ]} |}.

(** A run one second after the post turned 24 hours old, and a run at the
    very millisecond it did. *)
Definition clock_at (t : Date) : clock :=
  {| at_cutoff := t; at_stamp := t; at_update := t; at_purge := t |}.

Definition after_24h : clock := clock_at (DAY_MS + 1000).
Definition at_24h : clock := clock_at DAY_MS.

(** An image of a post and the files of its asset in the upload directory. *)
Definition sample_env : env :=
  {| baseUrl := "http://localhost:3000";
     toFile_fails := λ _, false;
     uuidv4 := λ _, "0f0e";
     now := 0 |}.

Definition sample_file : file :=
  {| file_format := JPEG; file_quality := None;
     file_size := {| width := 1000; height := 800 |} |}.

Definition sample_image : image :=
  {| image_id := "0f0e";
     image_url := uploads_url sample_env "u1.jpg";
     image_thumbnails := [] |}.

(** An expired post, 8 days old at the run below, that owns [u1.jpg]. *)
Definition old_post : Post :=
  set_isActive false (new_Post 0 0 alice "old" "General" [] [sample_image]).

(** A post that is 25 hours old at the run below. *)
Definition due_post : Post :=
  new_Post (7 * DAY_MS - 3600000) (7 * DAY_MS - 3600000) alice "due" "General" [] [].

Definition after_8d : clock := clock_at (8 * DAY_MS).

Definition sample_world : World :=
  {| db := {| posts := {[ 1%N := old_post; 2%N := due_post ]};
              users := {[ alice := sample_user ]} |};
     files := {[ "u1.jpg"%string := sample_file ]} |}.

(** The same store without the post that is due. *)
Definition idle_world : World :=
  {| db := {| posts := {[ 1%N := old_post ]};
              users := {[ alice := sample_user ]} |};
     files := {[ "u1.jpg"%string := sample_file ]} |}.

Definition young_world : World :=
  {| db := sample_db; files := ∅ |}.

(** A run that expires the sample post, then a TTL pass when the post is 49
    hours old. *)
Definition ttl_events : list event :=
  [Sweep after_24h; TtlPass (2 * DAY_MS + 3600000)].

(** The same run, then a TTL pass two seconds after the post turned 24
    hours old. *)
Definition early_events : list event :=
  [Sweep after_24h; TtlPass (DAY_MS + 2000)].


(** A failed ingestion leaves nothing behind: the original and every
    derivative of every file of the request answer 404. *)
Definition ingestion_atomic (e : env) (fls : list upload) (fs : Fs) : Prop :=
  ∀ fs' err, processImage e fls fs = (fs', inl err) →
    ∀ f name, f ∈ fls → name ∈ asset_files (filename f) →
      getImage name fs' = 404.

(** A derivative fits its profile and is never larger than its source. *)
Definition never_upscaled (e : env) (f : upload) (fs : Fs) : Prop :=
  ∀ src fs' pims, fs !! filename f = Some src →
    processImage e [f] fs = (fs', inr pims) →
    ∀ size' dims, (size', dims) ∈ thumbnailSizes →
      ∃ d, fs' !! thumbnailName (filename f) size' = Some d ∧
           width (file_size d) ≤ width dims ∧
           height (file_size d) ≤ height dims ∧
           width (file_size d) ≤ width (file_size src) ∧
           height (file_size d) ≤ height (file_size src).

(** The last character of a string. *)
Fixpoint last_char (s : string) : option Ascii.ascii :=
  match s with
  | EmptyString => None
  | String c r =>
      match last_char r with
      | Some x => Some x
      | None => Some c
      end
  end.

(** A stored file that holds JPEG data written at quality 85. *)
Definition jpeg85 (fs : Fs) (name : string) : Prop :=
  ∃ d, fs !! name = Some d ∧ file_format d = JPEG ∧ file_quality d = Some 85.

(** The descriptor [processImage] records for one profile. *)
Definition thumbnail_of (e : env) (f : upload) (sd : string * dimensions)
  : string * thumbnail :=
  (sd.1, {| thumb_url := uploads_url e (thumbnailName (filename f) sd.1);
            thumb_width := width sd.2;
            thumb_height := height sd.2 |}).

(** ** Sample uploads *)

Definition sample_upload : upload :=
  {| filename := "u1.jpg"; originalname := "photo.JPG";
     mimetype := "image/jpeg"; size := 204800 |}.

(** The upload directory right after multer stored a 1000×800 JPEG. *)
Definition fresh_fs : Fs := {[ "u1.jpg"%string := sample_file ]}.

(** A request during which writing the large derivative fails. *)
Definition failing_env : env :=
  {| baseUrl := "http://localhost:3000";
     toFile_fails := λ p, String.eqb p "u1_large.jpg";
     uuidv4 := λ _, "0f0e";
     now := 0 |}.

(** A 100×80 source, smaller than every profile. *)
Definition tiny_file : file :=
  {| file_format := JPEG; file_quality := None;
     file_size := {| width := 100; height := 80 |} |}.

Definition tiny_fs : Fs := {[ "u1.jpg"%string := tiny_file ]}.

(** A PNG upload. *)
Definition png_upload : upload :=
  {| filename := "u2.png"; originalname := "chart.png";
     mimetype := "image/png"; size := 51200 |}.

Definition png_file : file :=
  {| file_format := PNG; file_quality := None;
     file_size := {| width := 640; height := 480 |} |}.

Definition png_fs : Fs := {[ "u2.png"%string := png_file ]}.

(** A request of two uploads, and the upload directory after their
    successful ingestion. *)
Definition two_fs : Fs :=
  {[ "u1.jpg"%string := sample_file; "u2.png"%string := png_file ]}.

Definition two_stored_fs : Fs :=
  (processImage sample_env [sample_upload; png_upload] two_fs).1.

(** The upload directory after a successful ingestion of the sample. *)
Definition stored_fs : Fs := (processImage sample_env [sample_upload] fresh_fs).1.

(** * Further operations of the same files *)

(** ** Statistics of the cleanup service *)

Record CleanupStats := {
  activePosts : Z;
  inactivePosts : Z;
  postsExpiringSoon : Z;
  postsEligibleForHardDelete : Z
}.

(** [getCleanupStats], with its one clock reading [new Date()]. *)
Definition getCleanupStats (t : Date) (d : Db) : CleanupStats :=
  let twentyFourHoursAgo := t - DAY_MS in
  let sevenDaysAgo := t - 7 * DAY_MS in
  {| activePosts := Post_countDocuments isActive (posts d);
     inactivePosts := Post_countDocuments (λ p, negb (isActive p)) (posts d);
     postsExpiringSoon :=
       Post_countDocuments (expired_filter twentyFourHoursAgo) (posts d);
     postsEligibleForHardDelete :=
       Post_countDocuments (purge_filter sevenDaysAgo) (posts d) |}.

(** ** More of the posts controllers *)

(** The paths of an entry of [req.processedImages] that the [images]
    sub-schema declares; the others are dropped when the post is cast. *)
Definition image_of (pim : processedImage) : image :=
  {| image_id := pi_id pim;
     image_url := pi_url pim;
     image_thumbnails := pi_thumbnails pim |}.

(** [createPost] of the second controller: [valid] is
    [validationResult(req).isEmpty()]; [saves] tells whether the schema
    validation of [post.save()] passes (a content, of at most 1000
    characters; a category of the enumeration; tags of at most 30
    characters), [content'] and [tags'] being the values of the request as
    the schema casts them; [id] is the [_id] Mongoose generates for the new
    document, [t_created] and [t_hook] are the clock readings of the
    timestamp and of the pre-save hook.  A [save] that rejects, on the
    validation or on a stored [_id], is answered with 500 by the [catch]
    branch, before the counter is touched. *)
Definition createPost (valid saves : bool) (id : ObjectId) (t_created t_hook : Date)
    (authorId : ObjectId) (content' : string) (category' : option string)
    (tags' : option (list string)) (processedImages : list processedImage)
    (d : Db) : Db * Z :=
  if negb valid then (d, 400)
  else if negb saves then (d, 500)
  else
    match posts d !! id with
    | Some _ => (d, 500)
    | None =>
        let post := new_Post t_created t_hook authorId content'
                      (or_default category' "General") (default [] tags')
                      (image_of <$> processedImages) in
        ({| posts := <[id := post]> (posts d);
            users := User_findByIdAndUpdate authorId (inc_postsCount 1) (users d) |},
         201)
    end.


(** [sort({ createdAt: -1 })]: newest first; posts of equal [createdAt]
    are taken to come in the same order on every query. *)
Definition newer_first (x y : ObjectId * Post) : Prop :=
  createdAt y.2 ≤ createdAt x.2.

Global Instance newer_first_dec x y : Decision (newer_first x y).
Proof. unfold newer_first. apply _. Defined.

(** [Math.ceil(a / b)] on integers; [None] when JavaScript's quotient is not
    finite. *)
Definition ceil_div (a b : Z) : option Z :=
  if bool_decide (b = 0) then None else Some (- ((- a) / b)).

(** The cursor methods of the query: [skip(n)] rejects a negative [n];
    [limit(0)] sets no limit and a negative limit counts as its absolute
    value. *)
Definition cursor_skip {A} (n : Z) (l : list A) : option (list A) :=
  if bool_decide (n < 0) then None else Some (drop (Z.to_nat n) l).

Definition cursor_limit {A} (n : Z) (l : list A) : list A :=
  if bool_decide (n = 0) then l else take (Z.to_nat (Z.abs n)) l.

Record Pagination := {
  pg_page : Z;
  pg_limit : Z;
  total : Z;
  totalPages : option Z;
  hasNextPage : bool;
  hasPrevPage : bool
}.

(** [x < y] where [y] may be infinite (a positive total over a zero limit)
    or not a number (zero over zero). *)
Definition lt_pages (page total : Z) (pages : option Z) : bool :=
  match pages with
  | Some n => bool_decide (page < n)
  | None => bool_decide (0 < total)
  end.

(** [{ author: userId }] *)
Definition author_is (a : ObjectId) (p : Post) : bool :=
  bool_decide (author p = a).

(** [getMyPosts] of the second controller: the posts of the requesting
    user, Active or not, newest first, one page of them.  [limit] and
    [page] are the numbers the query parameters denote, for parameters
    that are decimal integers (on which [parseInt] and the conversion of the
    arithmetic agree).  The documents are skipped by [(page - 1) * limit],
    the limit of the request, and cut at [Math.min(limit, 50)].  A query
    that rejects, as a negative [skip] makes it, is answered 500 by the
    [catch] branch. *)
Definition getMyPosts (userId : ObjectId) (limit page : Z) (d : Db)
  : Z * option (list (ObjectId * Post) * Pagination) :=
  let skip := (page - 1) * limit in
  let limitNum := Z.min limit 50 in
  let found := merge_sort newer_first (Post_find (author_is userId) (posts d)) in
  match cursor_skip skip found with
  | None => (500, None)
  | Some rest =>
      let total' := Post_countDocuments (author_is userId) (posts d) in
      let pages := ceil_div total' limitNum in
      (200,
       Some (cursor_limit limitNum rest,
             {| pg_page := page;
                pg_limit := limitNum;
                total := total';
                totalPages := pages;
                hasNextPage := lt_pages page total' pages;
                hasPrevPage := bool_decide (1 < page) |}))
  end.

(** ** Likes ([postSchema.methods] of [models/Post.js]) *)

(** One entry of [postSchema.likes]. *)
Record like := {
  like_user : ObjectId;
  likedAt : Date
}.

(** [isLikedBy] *)
Definition isLikedBy (userId : ObjectId) (likes : list like) : bool :=
  existsb (λ l, bool_decide (like_user l = userId)) likes.

(** [toggleLike]: the like list afterwards and the value returned; [t] is
    the [Date.now] default of the entry pushed. *)
Definition toggleLike (t : Date) (userId : ObjectId) (likes : list like)
  : list like * bool :=
  match list_find (λ l, like_user l = userId) likes with
  | Some (existingLikeIndex, _) => (delete existingLikeIndex likes, false)
  | None => (likes ++ [{| like_user := userId; likedAt := t |}], true)
  end.

(** The pre-save hook: [likesCount = likes.length]. *)
Definition likesCount (likes : list like) : Z := Z.of_nat (length likes).

(** ** More of the upload middleware *)

(** [String.prototype.toLowerCase], on ASCII. *)
Definition lower_ascii (c : Ascii.ascii) : Ascii.ascii :=
  let n := Ascii.nat_of_ascii c in
  if bool_decide (65 ≤ n ≤ 90)%nat then Ascii.ascii_of_nat (n + 32) else c.

Fixpoint toLowerCase (s : string) : string :=
  match s with
  | EmptyString => EmptyString
  | String c r => String (lower_ascii c) (toLowerCase r)
  end.

(** The [filename] callback of the disk storage, [uniqueName] being the
    identifier [uuidv4()] returned. *)
Definition storage_filename (uniqueName originalname' : string) : string :=
  uniqueName +:+ toLowerCase (Path.extname originalname').

(** [config.images.allowedTypes] *)
Definition allowedTypes : list string :=
  ["image/jpeg"; "image/jpg"; "image/png"; "image/gif"; "image/webp"]%string.

(** [Array.prototype.join] *)
Fixpoint join (sep : string) (l : list string) : string :=
  match l with
  | [] => EmptyString
  | [x] => x
  | x :: rest => x +:+ sep +:+ join sep rest
  end.

(** The errors the upload chain passes on: a [MulterError] with its code,
    or any other [Error]. *)
Inductive upload_error :=
| MulterError (code message' : string)
| PlainError (message' : string).

Definition error_message (err : upload_error) : string :=
  match err with
  | MulterError _ m => m
  | PlainError m => m
  end.

(** [fileFilter]: [None] accepts the file. *)
Definition fileFilter (mimetype' : string) : option upload_error :=
  if bool_decide (mimetype' ∈ allowedTypes) then None
  else Some (PlainError ("Invalid file type. Allowed types: " +:+
                         join ", " allowedTypes)).

(** [String.prototype.includes] *)
Fixpoint includes (hay needle : string) : bool :=
  String.prefix needle hay ||
  match hay with
  | EmptyString => false
  | String _ rest => includes rest needle
  end.

(** The status [handleUploadError] answers with; [None] is [next(error)]. *)
Definition handleUploadError (err : upload_error) : option Z :=
  match err with
  | MulterError code _ =>
      if String.eqb code "LIMIT_FILE_SIZE" then Some 400
      else if String.eqb code "LIMIT_FILE_COUNT" then Some 400
      else if String.eqb code "LIMIT_UNEXPECTED_FILE" then Some 400
      else if includes (error_message err) "Invalid file type" then Some 400
      else None
  | PlainError m =>
      if includes m "Invalid file type" then Some 400 else None
  end.

(** ** More of the image controller *)

(** [uploadImages]: the status and the [count] of the answer. *)
Definition uploadImages (processedImages : list processedImage) : Z * option Z :=
  match processedImages with
  | [] => (400, None)
  | _ => (201, Some (Z.of_nat (length processedImages)))
  end.

(** The [mimeTypes] table of [getImage]. *)
Definition mimeTypes : list (string * string) :=
  [(".jpg", "image/jpeg"); (".jpeg", "image/jpeg"); (".png", "image/png");
   (".gif", "image/gif"); (".webp", "image/webp")]%string.

Fixpoint table_lookup (k : string) (t : list (string * string)) : option string :=
  match t with
  | [] => None
  | (k', v) :: rest => if String.eqb k k' then Some v else table_lookup k rest
  end.

(** The [Content-Type] header of [getImage]. *)
Definition contentType (name : string) : string :=
  default "application/octet-stream"%string
    (table_lookup (toLowerCase (Path.extname name)) mimeTypes).

(** [getImage] with what it sends: the status, and for a stored file the
    header and the file. *)
Definition getImage_sends (name : string) (fs : Fs) : Z * option (string * file) :=
  match access name fs with
  | (_, inl _) => (404, None)
  | (_, inr _) =>
      (200, (λ f, (contentType name, f)) <$> fs !! name)
  end.

(** ** Vocabulary of the further properties *)

(** The stored counter of an author agrees with the posts the store holds
    Active for that author. *)
Definition counter_ok (d : Db) (a : ObjectId) : Prop :=
  ∀ u, users d !! a = Some u →
       postsCount u = Post_countDocuments (active_of a) (posts d).

(** The posts of one page of [getMyPosts] (none on an error), and the
    pages 1 to [n] one after the other. *)
Definition page_posts (userId : ObjectId) (limit page : Z) (d : Db)
  : list (ObjectId * Post) :=
  default [] (fst <$> (getMyPosts userId limit page d).2).

Definition pages_upto (userId : ObjectId) (limit : Z) (d : Db) (n : nat)
  : list (ObjectId * Post) :=
  concat ((λ k, page_posts userId limit (Z.of_nat k) d) <$> seq 1 n).

(** The authors of the Active posts older than a cutoff, as a set. *)
Definition due_authors (cutoff : Date) (d : Db) : gset ObjectId :=
  list_to_set ((λ kv, author kv.2) <$> Post_find (expired_filter cutoff) (posts d)).

(** The paths of a post no update request writes. *)
Definition same_core (q q' : Post) : Prop :=
  author q' = author q ∧ isActive q' = isActive q ∧
  createdAt q' = createdAt q ∧ expiresAt q' = expiresAt q ∧
  images q' = images q.


(** ** More samples *)

(** Three Active posts and an Expired one of the same author. *)
Definition paged_db : Db :=
  {| posts := {[ 1%N := new_Post 10 10 alice "a" "General" [] [];
                 2%N := new_Post 30 30 alice "b" "General" [] [];
                 3%N := new_Post 20 20 alice "c" "General" [] [];
                 4%N := set_isActive false (new_Post 40 40 alice "d" "General" [] []) ]};
     users := {[ alice := set_postsCount 3 sample_user ]} |}.

(** Two posts of one author, both older than 24 hours at [after_24h]. *)
Definition twin_db : Db :=
  {| posts := {[ 1%N := sample_post;
                 2%N := new_Post 500 500 alice "again" "General" [] [] ]};
     users := {[ alice := sample_user ]} |}.

Definition sample_likes : list like :=
  [{| like_user := 3%N; likedAt := 1 |}; {| like_user := 4%N; likedAt := 2 |}].

(** * Properties of the cleanup service *)

Implicit Types (d : Db) (ck : clock) (p : Post) (i : ObjectId) (a : ObjectId).

(** The update of the soft delete, once cast, clears [isActive], stamps
    [updatedAt] and writes nothing else. *)
Lemma castUpdate_softDelete (now t : Date) :
  castUpdate now (softDelete_update t) =
  [("isActive"%string, VBool false); ("updatedAt"%string, VDate now)].
Proof. reflexivity. Qed.

Lemma applyUpdate_softDelete (now t : Date) p :
  applyUpdate now (softDelete_update t) p =
  set_updatedAt now (set_isActive false p).
Proof. reflexivity. Qed.

Lemma softDeletePhase_lookup ck d i :
  posts (softDeletePhase ck d).1 !! i = expire ck <$> posts d !! i.
Proof.
  unfold softDeletePhase, Post_updateMany; simpl.
  rewrite lookup_fmap. destruct (posts d !! i) as [p|]; simpl; [|done].
  unfold expire. destruct (expired_filter _ p); [|done].
  by rewrite applyUpdate_softDelete.
Qed.

Lemma softDeletePhase_users ck d : users (softDeletePhase ck d).1 = users d.
Proof. reflexivity. Qed.

Lemma syncPhase_posts (ids : list ObjectId) d : posts (syncPhase ids d) = posts d.
Proof. reflexivity. Qed.

Lemma hardDeletePhase_lookup_Some ck d i p :
  posts (hardDeletePhase ck d).1 !! i = Some p ↔
  posts d !! i = Some p ∧ purge_filter (at_purge ck - 7 * DAY_MS) p = false.
Proof. unfold hardDeletePhase, Post_deleteMany; simpl. apply map_lookup_filter_Some. Qed.

Lemma hardDeletePhase_lookup_None ck d i :
  posts (hardDeletePhase ck d).1 !! i = None ↔
  ∀ p, posts d !! i = Some p → purge_filter (at_purge ck - 7 * DAY_MS) p = true.
Proof.
  unfold hardDeletePhase, Post_deleteMany; simpl.
  rewrite map_lookup_filter_None. split.
  - intros [Hn|Hf] p Hp; [congruence|].
    specialize (Hf p Hp). simpl in Hf. by destruct (purge_filter _ p).
  - intros H. destruct (posts d !! i) as [p|] eqn:E; [right|by left].
    intros q [= <-]. simpl. by rewrite (H p eq_refl).
Qed.

Lemma Post_find_nil (q : Post → bool) (ps : gmap ObjectId Post) :
  Post_find q ps = [] ↔ ∀ i p, ps !! i = Some p → q p = false.
Proof.
  unfold Post_find. rewrite map_to_list_empty_iff, map_empty. split.
  - intros H i p Hp. specialize (H i). rewrite map_lookup_filter_None in H.
    destruct H as [H|H]; [congruence|]. specialize (H p Hp). simpl in H.
    by destruct (q p).
  - intros H i. apply map_lookup_filter_None.
    destruct (ps !! i) as [p|] eqn:E; [right|by left].
    intros p' [= <-]. simpl. by rewrite (H i p E).
Qed.

Lemma sweep_nothing_found ck d :
  ¬ found_expired ck d → cleanupExpiredPosts ck d = (d, None).
Proof.
  intros Hn. unfold cleanupExpiredPosts.
  rewrite bool_decide_eq_true_2; [done|].
  apply length_zero_iff_nil, Post_find_nil. intros i p Hp.
  destruct (expired_filter _ p) eqn:E; [|done].
  exfalso. apply Hn. by exists i, p.
Qed.

Lemma sweep_found ck d :
  found_expired ck d →
  sweep ck d =
  (hardDeletePhase ck (syncPhase (authorIds_of ck d) (softDeletePhase ck d).1)).1.
Proof.
  intros (i & p & Hp & Hq). unfold sweep, cleanupExpiredPosts.
  rewrite bool_decide_eq_false_2.
  - reflexivity.
  - rewrite length_zero_iff_nil, Post_find_nil. intros H.
    specialize (H i p Hp). congruence.
Qed.

Lemma found_expired_dec ck d : Decision (found_expired ck d).
Proof.
  destruct (decide (Post_find (expired_filter (at_cutoff ck - DAY_MS)) (posts d) = []))
    as [E|E].
  - right. intros (i & p & Hp & Hq). rewrite Post_find_nil in E.
    specialize (E i p Hp). congruence.
  - left. destruct (Post_find _ _) as [|[i p] l] eqn:F; [done|].
    exists i, p. assert (H : (i, p) ∈ Post_find (expired_filter (at_cutoff ck - DAY_MS)) (posts d))
      by (rewrite F; left).
    unfold Post_find in H. apply elem_of_map_to_list in H.
    apply map_lookup_filter_Some in H. done.
Qed.

(** The posts a run leaves, document by document. *)
Lemma sweep_found_lookup_Some ck d i p' :
  found_expired ck d →
  posts (sweep ck d) !! i = Some p' ↔
  ∃ p, posts d !! i = Some p ∧ p' = expire ck p ∧
       purge_filter (at_purge ck - 7 * DAY_MS) p' = false.
Proof.
  intros Hf. rewrite (sweep_found _ _ Hf), hardDeletePhase_lookup_Some.
  rewrite syncPhase_posts, softDeletePhase_lookup. split.
  - intros [H1 H2]. destruct (posts d !! i) as [p|]; [|done].
    simpl in H1. injection H1 as <-. eauto.
  - intros (p & -> & -> & H). done.
Qed.

Lemma sweep_found_lookup_None ck d i :
  found_expired ck d →
  posts (sweep ck d) !! i = None ↔
  ∀ p, posts d !! i = Some p →
       purge_filter (at_purge ck - 7 * DAY_MS) (expire ck p) = true.
Proof.
  intros Hf. rewrite (sweep_found _ _ Hf), hardDeletePhase_lookup_None.
  rewrite syncPhase_posts. setoid_rewrite softDeletePhase_lookup. split.
  - intros H p Hp. apply H. by rewrite Hp.
  - intros H p'. destruct (posts d !! i) as [p|]; [|done].
    intros [= <-]. by apply H.
Qed.

(** ** The 24 hour threshold *)

Lemma state_of_Some (ps : gmap ObjectId Post) i p :
  ps !! i = Some p → state_of ps i = if isActive p then Active else Expired.
Proof. unfold state_of. by intros ->. Qed.

(** C6, as worded: false at a post that is exactly 24 hours old, which the
    strict comparison of the query leaves Active. *)
Lemma threshold_inclusive_fails : ¬ threshold_inclusive at_24h sample_db.
Proof.
  intros H.
  destruct (H 1%N sample_post eq_refl eq_refl) as [H1 _].
  assert (E : state_of (posts (sweep at_24h sample_db)) 1%N = Active)
    by (vm_compute; reflexivity).
  rewrite H1 in E; [discriminate|]. vm_compute. discriminate.
Qed.

(** C6, amended: a sweep expires an Active post exactly when it is strictly
    more than 24 hours old at the cutoff reading.  Such a post, if the same
    run does not find it older than 7 days, is stored Expired afterwards,
    with the timestamp of the update and otherwise unchanged; an Active
    post of at most 24 hours, the bound included, is stored Active and
    unchanged. *)
Theorem sweep_threshold ck d i p :
  posts d !! i = Some p → isActive p = true →
  (DAY_MS < at_cutoff ck - createdAt p →
   at_purge ck - createdAt p ≤ 7 * DAY_MS →
     posts (sweep ck d) !! i =
       Some (set_updatedAt (at_update ck) (set_isActive false p)) ∧
     state_of (posts (sweep ck d)) i = Expired) ∧
  (at_cutoff ck - createdAt p ≤ DAY_MS →
     posts (sweep ck d) !! i = Some p ∧
     state_of (posts (sweep ck d)) i = Active).
Proof.
  intros Hp Ha. split.
  - intros Hold Hyoung.
    assert (Hq : expired_filter (at_cutoff ck - DAY_MS) p = true).
    { unfold expired_filter. rewrite Ha, andb_true_r.
      apply bool_decide_eq_true_2. lia. }
    assert (Hf : found_expired ck d) by (by exists i, p).
    assert (Hl : posts (sweep ck d) !! i =
                 Some (set_updatedAt (at_update ck) (set_isActive false p))).
    { apply (sweep_found_lookup_Some _ _ _ _ Hf). exists p.
      unfold expire. rewrite Hq. split_and!; [done..|].
      unfold purge_filter. simpl. rewrite andb_true_r.
      apply bool_decide_eq_false_2. lia. }
    split; [done|]. by rewrite (state_of_Some _ _ _ Hl).
  - intros Hyoung.
    assert (Hq : expired_filter (at_cutoff ck - DAY_MS) p = false).
    { unfold expired_filter. rewrite bool_decide_eq_false_2; [done|lia]. }
    assert (Hl : posts (sweep ck d) !! i = Some p).
    { destruct (found_expired_dec ck d) as [Hf|Hf].
      - apply (sweep_found_lookup_Some _ _ _ _ Hf). exists p.
        unfold expire. rewrite Hq. split_and!; [done..|].
        unfold purge_filter. rewrite Ha. apply andb_false_r.
      - unfold sweep. by rewrite (sweep_nothing_found _ _ Hf). }
    split; [done|]. by rewrite (state_of_Some _ _ _ Hl), Ha.
Qed.

Lemma sweep_threshold_witness :
  posts (sweep after_24h sample_db) !! 1%N =
    Some (set_updatedAt (at_update after_24h) (set_isActive false sample_post)) ∧
  posts (sweep at_24h sample_db) !! 1%N = Some sample_post.
Proof.
  split.
  - apply (proj1 (sweep_threshold after_24h sample_db 1%N sample_post
                    eq_refl eq_refl)); vm_compute; [reflexivity|discriminate].
  - apply (proj2 (sweep_threshold at_24h sample_db 1%N sample_post
                    eq_refl eq_refl)); vm_compute; discriminate.
Defined.

(** An Active post that a run finds older than 7 days is expired and purged
    by that same run. *)
Lemma sweep_expires_and_purges ck d i p :
  posts d !! i = Some p → isActive p = true →
  DAY_MS < at_cutoff ck - createdAt p →
  7 * DAY_MS < at_purge ck - createdAt p →
  posts (sweep ck d) !! i = None.
Proof.
  intros Hp Ha H1 H7.
  assert (Hq : expired_filter (at_cutoff ck - DAY_MS) p = true).
  { unfold expired_filter. rewrite Ha, andb_true_r.
    apply bool_decide_eq_true_2. lia. }
  apply sweep_found_lookup_None; [by exists i, p|].
  intros p' Hp'. assert (p' = p) as -> by congruence.
  unfold expire. rewrite Hq. unfold purge_filter. simpl.
  rewrite andb_true_r. apply bool_decide_eq_true_2. lia.
Qed.

(** ** The [deletedAt] stamp *)

(** No stored post reads back a [deletedAt]. *)
Lemma Post_get_deletedAt p : Post_get "deletedAt" p = None.
Proof. reflexivity. Qed.

(** The path is not one of the schema. *)
Lemma deletedAt_not_in_schema : "deletedAt"%string ∉ postSchema_paths.
Proof. apply (bool_decide_unpack _). vm_compute. exact I. Qed.

(** C9 at a post the run expires: the post is stored with [isActive]
    cleared, the update that reaches the store has lost its [deletedAt]
    (it carries [isActive] and the [updatedAt] of the timestamps), and the
    post reads back without one, where the claim has the time of the
    sweep. *)
Theorem sweep_loses_deletedAt :
  expired_filter (at_cutoff after_24h - DAY_MS) sample_post = true ∧
  castUpdate (at_update after_24h) (softDelete_update (at_stamp after_24h)) =
    [("isActive"%string, VBool false);
     ("updatedAt"%string, VDate (at_update after_24h))] ∧
  ∃ p', posts (sweep after_24h sample_db) !! 1%N = Some p' ∧
        isActive p' = false ∧
        Post_get "deletedAt" p' = None ∧
        Post_get "deletedAt" p' ≠ Some (VDate (at_stamp after_24h)).
Proof.
  split; [reflexivity|]. split; [reflexivity|].
  exists (set_updatedAt (at_update after_24h) (set_isActive false sample_post)).
  split; [by vm_compute|]. split; [done|]. split; [done|]. discriminate.
Qed.

Lemma stamps_deletedAt_fails : ¬ stamps_deletedAt after_24h sample_db.
Proof.
  intros H. destruct (H 1%N sample_post eq_refl eq_refl) as (p' & _ & Hg).
  rewrite Post_get_deletedAt in Hg. discriminate.
Qed.

(** ** Retention of the record *)

Lemma spares_set_isActive b p ev : spares (set_isActive b p) ev ↔ spares p ev.
Proof. by destruct ev. Qed.

Lemma spares_set_updatedAt t p ev : spares (set_updatedAt t p) ev ↔ spares p ev.
Proof. by destruct ev. Qed.

(** One event that spares a post leaves its record in place and leaves the
    upload directory alone; the record is unchanged, or the event is a
    sweep that found the post Active and cleared [isActive], with the
    timestamp of its update. *)
Lemma step_spares (w : World) ev i p :
  posts (db w) !! i = Some p → spares p ev →
  files (step w ev) = files w ∧
  (posts (db (step w ev)) !! i = Some p ∨
   (isActive p = true ∧ ∃ ck, ev = Sweep ck ∧
    posts (db (step w ev)) !! i =
      Some (set_updatedAt (at_update ck) (set_isActive false p)))).
Proof.
  intros Hp Hs. split; [by destruct ev|].
  destruct ev as [ck|t]; simpl in *.
  - destruct (found_expired_dec ck (db w)) as [Hf|Hf].
    + destruct (expired_filter (at_cutoff ck - DAY_MS) p) eqn:Hq.
      * right. split; [by apply andb_true_iff in Hq as [_ ?]|].
        exists ck. split; [done|].
        apply (sweep_found_lookup_Some _ _ _ _ Hf). exists p.
        unfold expire. rewrite Hq. split_and!; [done..|].
        unfold purge_filter. simpl.
        rewrite bool_decide_eq_false_2; [done|lia].
      * left. apply (sweep_found_lookup_Some _ _ _ _ Hf). exists p.
        unfold expire. rewrite Hq. split_and!; [done..|].
        unfold purge_filter.
        rewrite bool_decide_eq_false_2; [done|lia].
    + left. unfold sweep. by rewrite (sweep_nothing_found _ _ Hf).
  - left. apply map_lookup_filter_Some. split; [done|]. simpl. lia.
Qed.

(** The same along a sequence of events: the record changes at most once,
    at the sweep that expires the post. *)
Lemma run_spares evs (w : World) i p :
  posts (db w) !! i = Some p → Forall (spares p) evs →
  files (run evs w) = files w ∧
  (posts (db (run evs w)) !! i = Some p ∨
   (isActive p = true ∧ ∃ ck, Sweep ck ∈ evs ∧
    posts (db (run evs w)) !! i =
      Some (set_updatedAt (at_update ck) (set_isActive false p)))).
Proof.
  intros Hp Hev. revert w p Hp Hev.
  induction evs as [|ev evs IH]; intros w p Hp Hev; [by split; [|left]|].
  apply Forall_cons in Hev as [Hs Hev]. cbn [run foldl].
  fold (run evs (step w ev)).
  destruct (step_spares w ev i p Hp Hs) as [Hfiles [Hrec|(Ha & ck & -> & Hrec)]].
  - destruct (IH _ _ Hrec Hev) as [-> [?|(? & ck & ? & ?)]].
    + by split; [|left].
    + split; [done|right]. split; [done|]. exists ck. split; [by right|done].
  - set (q := set_updatedAt (at_update ck) (set_isActive false p)) in *.
    assert (Hevq : Forall (spares q) evs).
    { eapply Forall_impl; [exact Hev|]. intros ev' H.
      by apply spares_set_updatedAt, spares_set_isActive. }
    destruct (IH _ _ Hrec Hevq) as [-> [?|(Hact & _)]]; [|done].
    split; [done|right]. split; [done|]. exists ck. split; [left|done].
Qed.

(** C4, as worded: false once the TTL monitor of the database passes over a
    post whose [expiresAt] is a day behind, 49 hours after its creation. *)
Lemma retained_for_7_days_fails : ¬ retained_for_7_days ttl_events young_world.
Proof.
  intros H.
  assert (E : posts (db (run ttl_events young_world)) !! 1%N = None)
    by (vm_compute; reflexivity).
  apply (is_Some_None (A := Post)). rewrite <- E.
  apply (H 1%N sample_post eq_refl).
  intros ev Hin. unfold ttl_events in Hin.
  repeat (apply elem_of_cons in Hin as [->|Hin]); [by vm_compute..|].
  by apply elem_of_nil in Hin.
Qed.

(** The post of the run above is Expired after the sweep and gone after the
    TTL pass. *)
Lemma ttl_removes_expired_post :
  state_of (posts (db (run [Sweep after_24h] young_world))) 1%N = Expired ∧
  state_of (posts (db (run ttl_events young_world))) 1%N = Purged.
Proof. split; vm_compute; reflexivity. Qed.

(** A pass of the TTL monitor at or after [expiresAt] plus the 86400
    seconds of the index removes the record, whatever [isActive] holds. *)
Lemma ttlMonitor_removes (t : Date) d i p :
  posts d !! i = Some p → expiresAt p + expireAfterSeconds * 1000 ≤ t →
  posts (ttlMonitor t d) !! i = None.
Proof.
  intros Hp Ht. apply map_lookup_filter_None. right.
  intros q Hq. assert (q = p) as -> by congruence. simpl. tauto.
Qed.

(** C4, amended: the soft delete removes neither the record of a post nor a
    file.  Through every sweep that finds the post at most 7 days old and
    every TTL pass that comes before [expiresAt] plus the 86400 seconds of
    the index, the record of an Active or Expired post stays in the store:
    unchanged, or with [isActive] cleared and [updatedAt] stamped by the
    sweep that expired it, and nothing else changed.  A TTL pass that comes
    at or after [expiresAt] plus the 86400 seconds then removes it, Active
    or Expired; for a post the pre-save hook stamped at [t_hook] that is 48
    hours after [t_hook]. *)
Theorem record_retained evs (w : World) i p :
  posts (db w) !! i = Some p →
  Forall (spares p) evs →
  files (run evs w) = files w ∧
  (posts (db (run evs w)) !! i = Some p ∨
   (isActive p = true ∧ ∃ ck, Sweep ck ∈ evs ∧
    posts (db (run evs w)) !! i =
      Some (set_updatedAt (at_update ck) (set_isActive false p)))) ∧
  (∀ t, expiresAt p + expireAfterSeconds * 1000 ≤ t →
        posts (db (run (evs ++ [TtlPass t]) w)) !! i = None) ∧
  (∀ t_created t_hook a c g tg ims t,
     p = new_Post t_created t_hook a c g tg ims →
     t_hook + 2 * DAY_MS ≤ t →
     posts (db (run (evs ++ [TtlPass t]) w)) !! i = None).
Proof.
  intros Hp Hev. destruct (run_spares evs w i p Hp Hev) as [Hfiles Hrec].
  assert (Httl : ∀ t, expiresAt p + expireAfterSeconds * 1000 ≤ t →
            posts (db (run (evs ++ [TtlPass t]) w)) !! i = None).
  { intros t Ht. unfold run. rewrite foldl_app. cbn [foldl step ttl_world db].
    fold (run evs w).
    destruct Hrec as [Hrec|(_ & ck & _ & Hrec)];
      by apply (ttlMonitor_removes _ _ _ _ Hrec). }
  split_and!; [done|done|done|].
  intros tc th a c g tg ims t -> Ht. apply Httl.
  cbn [new_Post expiresAt]. unfold expireAfterSeconds, DAY_MS in *. lia.
Qed.

Lemma record_retained_witness :
  files (run early_events young_world) = files young_world ∧
  (posts (db (run early_events young_world)) !! 1%N = Some sample_post ∨
   (isActive sample_post = true ∧ ∃ ck, Sweep ck ∈ early_events ∧
    posts (db (run early_events young_world)) !! 1%N =
      Some (set_updatedAt (at_update ck) (set_isActive false sample_post)))) ∧
  (∀ t, expiresAt sample_post + expireAfterSeconds * 1000 ≤ t →
        posts (db (run (early_events ++ [TtlPass t]) young_world)) !! 1%N = None) ∧
  (∀ t_created t_hook a c g tg ims t,
     sample_post = new_Post t_created t_hook a c g tg ims →
     t_hook + 2 * DAY_MS ≤ t →
     posts (db (run (early_events ++ [TtlPass t]) young_world)) !! 1%N = None).
Proof.
  apply (record_retained early_events young_world 1%N sample_post eq_refl).
  apply Forall_cons. split; [by vm_compute|].
  apply Forall_cons. split; [by vm_compute|]. apply Forall_nil_2.
Defined.

(** ** The purge *)

(** C1, as worded: false at a run that purges an Expired post owning
    [u1.jpg]; the record goes, the file stays. *)
Lemma purge_reaps_fails : ¬ purge_reaps sample_env after_8d sample_world.
Proof.
  intros H.
  destruct (H 1%N old_post eq_refl eq_refl) as [_ Hf]; [by vm_compute|].
  specialize (Hf "u1.jpg"%string eq_refl). vm_compute in Hf. discriminate.
Qed.

(** The record of that post is removed by the run, the file is not. *)
Lemma purge_leaves_file :
  posts (db (sweep_world after_8d sample_world)) !! 1%N = None ∧
  files (sweep_world after_8d sample_world) !! "u1.jpg"%string = Some sample_file.
Proof. split; vm_compute; reflexivity. Qed.

(** A run that finds no post to expire returns before its purge: the same
    Expired post, 8 days old, is still stored after it. *)
Lemma idle_sweep_skips_purge :
  cleanupExpiredPosts after_8d (db idle_world) = (db idle_world, None) ∧
  posts (db (sweep_world after_8d idle_world)) !! 1%N = Some old_post.
Proof. split; vm_compute; reflexivity. Qed.

(** C1, amended: on a sweep that finds at least one post to expire, every
    Expired post strictly older than 7 days has its record removed from the
    store; the sweep deletes no file. *)
Theorem sweep_purges ck (w : World) i p :
  found_expired ck (db w) →
  posts (db w) !! i = Some p → isActive p = false →
  7 * DAY_MS < at_purge ck - createdAt p →
  posts (db (sweep_world ck w)) !! i = None ∧
  files (sweep_world ck w) = files w.
Proof.
  intros Hf Hp Ha Hold. split; [|done]. simpl.
  apply (sweep_found_lookup_None _ _ _ Hf). intros p' Hp'.
  assert (p' = p) as -> by congruence.
  unfold expire, expired_filter. rewrite Ha, andb_false_r.
  unfold purge_filter. rewrite Ha. simpl. rewrite andb_true_r.
  apply bool_decide_eq_true_2. lia.
Qed.

Lemma sweep_purges_witness :
  posts (db (sweep_world after_8d sample_world)) !! 1%N = None ∧
  files (sweep_world after_8d sample_world) = files sample_world.
Proof.
  apply (sweep_purges after_8d sample_world 1%N old_post).
  - exists 2%N, due_post. split; reflexivity.
  - reflexivity.
  - reflexivity.
  - vm_compute. reflexivity.
Defined.

(** An Expired post that is exactly 7 days old at the purge reading is not
    purged. *)
Lemma purge_threshold_strict ck d i p :
  found_expired ck d →
  posts d !! i = Some p → isActive p = false →
  at_purge ck - createdAt p ≤ 7 * DAY_MS →
  posts (sweep ck d) !! i = Some p.
Proof.
  intros Hf Hp Ha Hy. apply (sweep_found_lookup_Some _ _ _ _ Hf).
  exists p. unfold expire, expired_filter. rewrite Ha, andb_false_r.
  split_and!; [done..|]. unfold purge_filter.
  rewrite bool_decide_eq_false_2; [done|lia].
Qed.

(** ** The author counter *)

Lemma Set_spread_elem {A} `{EqDecision A} (seen l : list A) x :
  x ∈ Set_spread seen l ↔ x ∈ l ∧ x ∉ seen.
Proof.
  revert seen. induction l as [|y l IH]; intros seen; simpl.
  - rewrite elem_of_nil. tauto.
  - destruct (decide (y ∈ seen)) as [Hy|Hy].
    + rewrite IH, elem_of_cons. split; [tauto|].
      intros [[->|?] ?]; tauto.
    + rewrite !elem_of_cons, IH, elem_of_cons. split.
      * intros [->|[? ?]]; tauto.
      * intros [[->|?] ?]; [tauto|].
        destruct (decide (x = y)) as [->|]; tauto.
Qed.

Lemma authorIds_of_elem ck d a :
  a ∈ authorIds_of ck d ↔
  ∃ i p, posts d !! i = Some p ∧
         expired_filter (at_cutoff ck - DAY_MS) p = true ∧ author p = a.
Proof.
  unfold authorIds_of. rewrite Set_spread_elem, list_elem_of_fmap.
  unfold Post_find. split.
  - intros [([i p] & -> & Hin) _]. apply elem_of_map_to_list in Hin.
    apply map_lookup_filter_Some in Hin as [Hp Hq]. by exists i, p.
  - intros (i & p & Hp & Hq & <-). split; [|apply not_elem_of_nil].
    exists (i, p). split; [done|]. apply elem_of_map_to_list.
    by apply map_lookup_filter_Some.
Qed.

(** The counter loop writes the recount to each listed author and to no one
    else. *)
Lemma foldl_syncCounter_lookup (ps : gmap ObjectId Post) (l : list ObjectId)
    (us : gmap ObjectId User) a :
  foldl (syncCounter ps) us l !! a =
  if decide (a ∈ l)
  then set_postsCount (Post_countDocuments (active_of a) ps) <$> us !! a
  else us !! a.
Proof.
  revert us. induction l as [|b l IH]; intros us.
  - cbn [foldl]. destruct (decide (a ∈ [])) as [Hin|Hin]; [by apply elem_of_nil in Hin|done].
  - cbn [foldl]. rewrite IH. unfold syncCounter, User_findByIdAndUpdate.
    rewrite lookup_alter.
    destruct (decide (b = a)) as [->|Hne].
    + rewrite (decide_True (P := a ∈ a :: l)); [|by left].
      destruct (decide (a ∈ l)); [|done].
      by destruct (us !! a).
    + destruct (decide (a ∈ l)) as [Hin|Hin].
      * rewrite decide_True; [done|by right].
      * rewrite decide_False; [done|].
        rewrite elem_of_cons. intros [->|?]; tauto.
Qed.

(** The purge removes no Active post, so it leaves every recount as it is. *)
Lemma hardDeletePhase_count ck d a :
  Post_countDocuments (active_of a) (posts (hardDeletePhase ck d).1) =
  Post_countDocuments (active_of a) (posts d).
Proof.
  unfold hardDeletePhase, Post_deleteMany, Post_countDocuments; simpl.
  f_equal. f_equal. apply map_filter_filter_l.
  intros i p _ Hact. simpl in *. unfold active_of in Hact.
  apply andb_true_iff in Hact as [_ Hact].
  unfold purge_filter. rewrite Hact. apply andb_false_r.
Qed.

(** C7: after a sweep that expires at least one post of author [a], the
    stored [postsCount] of [a] is the number of posts of [a] that the store
    holds Active, whatever the counter held before the sweep. *)
Theorem counter_converges ck d a u i p :
  users d !! a = Some u →
  posts d !! i = Some p → author p = a → isActive p = true →
  DAY_MS < at_cutoff ck - createdAt p →
  ∃ u', users (sweep ck d) !! a = Some u' ∧
        postsCount u' = Post_countDocuments (active_of a) (posts (sweep ck d)).
Proof.
  intros Hu Hp Hau Ha Hold.
  assert (Hq : expired_filter (at_cutoff ck - DAY_MS) p = true).
  { unfold expired_filter. rewrite Ha, andb_true_r.
    apply bool_decide_eq_true_2. lia. }
  assert (Hf : found_expired ck d) by (by exists i, p).
  assert (Hin : a ∈ authorIds_of ck d).
  { apply authorIds_of_elem. by exists i, p. }
  rewrite (sweep_found _ _ Hf), hardDeletePhase_count.
  set (d1 := (softDeletePhase ck d).1).
  exists (set_postsCount (Post_countDocuments (active_of a) (posts d1)) u).
  split; [|done].
  change (users (hardDeletePhase ck (syncPhase (authorIds_of ck d) d1)).1)
    with (foldl (syncCounter (posts d1)) (users d1) (authorIds_of ck d)).
  rewrite foldl_syncCounter_lookup, decide_True by done.
  unfold d1. rewrite softDeletePhase_users, Hu. done.
Qed.

Lemma counter_converges_witness :
  ∃ u', users (sweep after_24h sample_db) !! alice = Some u' ∧
        postsCount u' =
        Post_countDocuments (active_of alice) (posts (sweep after_24h sample_db)).
Proof.
  apply (counter_converges after_24h sample_db alice sample_user 1%N sample_post);
    [reflexivity..|]. by vm_compute.
Defined.

(** The recount on the sample store: the counter held 5 and holds 0 after
    the only post of the author has expired. *)
Lemma counter_resets_drift :
  postsCount <$> users sample_db !! alice = Some 5 ∧
  postsCount <$> users (sweep after_24h sample_db) !! alice = Some 0.
Proof. split; vm_compute; reflexivity. Qed.

(** ** Monotonic post state *)

Lemma Post_set_isActive k v p :
  (∀ b, v ≠ VBool b) → isActive (Post_set k v p) = isActive p.
Proof.
  intros Hv. destruct v as [b|t|s|l]; simpl.
  - by destruct (Hv b).
  - by repeat case_match.
  - by repeat case_match.
  - by case_match.
Qed.

(** An update that carries no boolean leaves [isActive] as it is. *)
Lemma applyUpdate_isActive (now : Date) upd p :
  Forall (λ kv : string * value, ∀ b, kv.2 ≠ VBool b) upd →
  isActive (applyUpdate now upd p) = isActive p.
Proof.
  intros H. unfold applyUpdate, castUpdate. rewrite foldl_app. cbn [foldl].
  rewrite Post_set_isActive by discriminate.
  revert p. induction H as [|kv l Hkv _ IH]; intros p; [done|].
  rewrite filter_cons. destruct (decide _); [|apply IH].
  simpl. rewrite IH. by apply Post_set_isActive.
Qed.

(** Every update stamps the post with its timestamp. *)
Lemma applyUpdate_updatedAt (now : Date) upd p :
  updatedAt (applyUpdate now upd p) = now.
Proof. unfold applyUpdate, castUpdate. by rewrite foldl_app. Qed.

Lemma state_of_insert (ps : gmap ObjectId Post) i j p :
  state_of (<[j := p]> ps) i =
  if decide (j = i) then (if isActive p then Active else Expired)
  else state_of ps i.
Proof.
  unfold state_of. rewrite lookup_insert. by destruct (decide (j = i)).
Qed.

Lemma softDeletePhase_step ck d i :
  lifecycle_step (state_of (posts d) i)
                 (state_of (posts (softDeletePhase ck d).1) i).
Proof.
  unfold state_of. rewrite softDeletePhase_lookup.
  destruct (posts d !! i) as [p|]; simpl; [|constructor].
  unfold expire. destruct (expired_filter _ p) eqn:Hq; [|constructor].
  apply andb_true_iff in Hq as [_ ->]. simpl. constructor.
Qed.

Lemma hardDeletePhase_step ck d i :
  lifecycle_step (state_of (posts d) i)
                 (state_of (posts (hardDeletePhase ck d).1) i).
Proof.
  unfold state_of.
  destruct (posts d !! i) as [p|] eqn:Hp.
  - destruct (purge_filter (at_purge ck - 7 * DAY_MS) p) eqn:Hq.
    + assert (Hn : posts (hardDeletePhase ck d).1 !! i = None).
      { apply hardDeletePhase_lookup_None. intros p' Hp'. congruence. }
      rewrite Hn. apply andb_true_iff in Hq as [_ Hq].
      apply negb_true_iff in Hq as ->. constructor.
    + assert (Hs : posts (hardDeletePhase ck d).1 !! i = Some p)
        by (by apply hardDeletePhase_lookup_Some).
      rewrite Hs. constructor.
  - assert (Hn : posts (hardDeletePhase ck d).1 !! i = None).
    { apply hardDeletePhase_lookup_None. intros p' Hp'. congruence. }
    rewrite Hn. constructor.
Qed.

Lemma deletePost_soft_step postId userId (now : Date) d i :
  lifecycle_step (state_of (posts d) i)
                 (state_of (posts (deletePost_soft postId userId now d).1) i).
Proof.
  unfold deletePost_soft.
  destruct (posts d !! postId) as [p|] eqn:Hp; [|constructor].
  destruct (bool_decide (author p = userId) && isActive p) eqn:Hq; [|constructor].
  simpl. rewrite state_of_insert.
  destruct (decide (postId = i)) as [<-|]; [|constructor].
  apply andb_true_iff in Hq as [_ Ha].
  rewrite (state_of_Some _ _ _ Hp), Ha. constructor.
Qed.

Lemma deletePost_step id userId d i :
  allowed i (OpDelete id userId) (state_of (posts d) i)
          (state_of (posts (deletePost id userId d).1) i).
Proof.
  unfold deletePost.
  destruct (posts d !! id) as [p|] eqn:Hp; [|left; constructor].
  destruct (bool_decide (author p = userId)); [|left; constructor].
  simpl. unfold state_of at 2. rewrite lookup_delete.
  destruct (decide (id = i)) as [<-|].
  - rewrite (state_of_Some _ _ _ Hp). destruct (isActive p).
    + right. eauto.
    + left. constructor.
  - left. fold (state_of (posts d) i). constructor.
Qed.

(** A pass of the TTL monitor removes a post or leaves it as it is; a post
    it removes may still be Active. *)
Lemma ttlMonitor_step (t : Date) d i :
  allowed i (OpTtlPass t) (state_of (posts d) i)
          (state_of (posts (ttlMonitor t d)) i).
Proof.
  unfold state_of at 2.
  destruct (posts (ttlMonitor t d) !! i) as [q|] eqn:Hq.
  - apply map_lookup_filter_Some in Hq as [Hq _].
    rewrite (state_of_Some _ _ _ Hq). left. constructor.
  - destruct (state_of (posts d) i); [right; eauto|left; constructor..].
Qed.

Lemma updatePost_old_step v vs postId userId (td now : Date) c g t d i :
  state_of (posts (updatePost_old v vs postId userId td now c g t d).1) i =
  state_of (posts d) i.
Proof.
  unfold updatePost_old. destruct v, vs; try done. cbn [negb].
  destruct (posts d !! postId) as [p|] eqn:Hp; [|done].
  destruct (bool_decide (author p = userId) && isActive p); [|done].
  simpl. rewrite state_of_insert.
  destruct (decide (postId = i)) as [<-|]; [|done].
  rewrite applyUpdate_isActive, (state_of_Some _ _ _ Hp); [done|].
  repeat constructor; discriminate.
Qed.

Lemma updatePost_step v vs id userId (now : Date) c g t d i :
  state_of (posts (updatePost v vs id userId now c g t d).1) i =
  state_of (posts d) i.
Proof.
  unfold updatePost. destruct v; [|done]. cbn [negb].
  destruct (posts d !! id) as [p|] eqn:Hp; [|done].
  destruct (bool_decide (author p = userId)); [|done].
  destruct vs; [|done]. cbn [negb].
  simpl. rewrite state_of_insert.
  destruct (decide (id = i)) as [<-|]; [|done].
  rewrite applyUpdate_isActive, (state_of_Some _ _ _ Hp); [done|].
  rewrite !Forall_app. unfold spread_string, spread_strings.
  split_and!; repeat case_match; repeat constructor; discriminate.
Qed.

Lemma syncPhase_step (ids : list ObjectId) d i :
  lifecycle_step (state_of (posts d) i) (state_of (posts (syncPhase ids d)) i).
Proof. rewrite syncPhase_posts. constructor. Qed.

Create HintDb lifecycle.
#[local] Hint Constructors lifecycle_step : lifecycle.
#[local] Hint Resolve softDeletePhase_step syncPhase_step hardDeletePhase_step
  deletePost_soft_step : lifecycle.

(** The states of one post along the writes of one operation. *)
Lemma writes_allowed i op d :
  steps_allowed i (state_of (posts d) i)
    (map (λ od, (od.1, state_of (posts od.2) i)) (map (pair op) (writes op d))).
Proof.
  unfold steps_allowed.
  destruct op as [ck|pid uid now|id uid|v vs pid uid td now c g t
                 |v vs id uid now c g t|t]; unfold writes;
    [case_bool_decide|..]; cbn [map steps_by fst snd];
    rewrite ?updatePost_old_step, ?updatePost_step;
    split_and?; trivial;
    first [apply deletePost_step | apply ttlMonitor_step
          | left; auto with lifecycle].
Qed.

(** The last of the writes of an operation is the store it leaves. *)
Lemma exec_last op d : exec op d = default d (last (writes op d)).
Proof.
  destruct op as [ck|pid uid now|id uid|v vs pid uid td now c g t
                 |v vs id uid now c g t|t]; try done.
  unfold exec, writes. case_bool_decide as Hn; cbn [last default].
  - unfold sweep, cleanupExpiredPosts. by rewrite bool_decide_eq_true_2.
  - rewrite sweep_found; [done|].
    destruct (found_expired_dec ck d) as [Hf|Hf]; [done|].
    exfalso. apply Hn. apply length_zero_iff_nil, Post_find_nil.
    intros j q Hq. destruct (expired_filter _ q) eqn:E; [|done].
    destruct Hf. by exists j, q.
Qed.

(** The state a chain of observations ends in. *)
Lemma steps_by_app R s l1 l2 :
  steps_by R s (l1 ++ l2) ↔
  steps_by R s l1 ∧ steps_by R (default s (last l1.*2)) l2.
Proof.
  revert s. induction l1 as [|[op s'] l1 IH]; intros s.
  - simpl. tauto.
  - cbn [app steps_by]. rewrite IH, fmap_cons, last_cons.
    destruct (last l1.*2); simpl; tauto.
Qed.

Lemma last_states_of_writes i op d :
  default (state_of (posts d) i)
    (last (map (λ od : operation * Db, (od.1, state_of (posts od.2) i))
             (map (pair op) (writes op d))).*2) =
  state_of (posts (exec op d)) i.
Proof.
  rewrite exec_last. rewrite <- !list_fmap_compose.
  rewrite fmap_last. by destruct (last (writes op d)).
Qed.

Lemma observed_states_allowed i ops d :
  steps_allowed i (state_of (posts d) i) (observed_states i ops d).
Proof.
  revert d. unfold observed_states, steps_allowed.
  induction ops as [|op ops IH]; intros d; [done|].
  cbn [trace]. rewrite map_app, steps_by_app. split.
  - apply writes_allowed.
  - rewrite last_states_of_writes. apply IH.
Qed.

Lemma squash_head s l : ∃ t, squash s l = s :: t.
Proof.
  revert s. induction l as [|s' l IH]; intros s; simpl; [by exists []|].
  destruct (decide (s = s')) as [->|]; [apply IH|eauto].
Qed.

Lemma squash_Purged l :
  squash Purged l `prefix_of` [Purged] → squash Purged l = [Purged].
Proof.
  destruct (squash_head Purged l) as [t ->]. intros [k Hk].
  destruct t; [done|discriminate].
Qed.

(** A chain of allowed steps, neighbours merged, runs along the lifecycle,
    or is the one shortcut. *)
Lemma steps_allowed_squash i s l :
  steps_allowed i s l →
  squash s l.*2 `prefix_of` lifecycle_from s ∨ squash s l.*2 = [Active; Purged].
Proof.
  unfold steps_allowed.
  revert s. induction l as [|[op s'] l IH]; intros s; simpl.
  - intros _. left. destruct s; by eexists.
  - intros [Hal Hrest]. specialize (IH s' Hrest).
    destruct (decide (s = s')) as [->|Hne]; [done|].
    destruct (squash_head s' l.*2) as [t Ht].
    destruct Hal as [Hstep|(-> & -> & _)].
    + destruct Hstep as [s| |]; [done| |].
      * destruct IH as [IH|IH]; [|rewrite Ht in IH; discriminate].
        left. by apply prefix_cons.
      * destruct IH as [IH|IH]; [|rewrite Ht in IH; discriminate].
        left. by apply prefix_cons.
    + destruct IH as [IH|IH]; [|rewrite Ht in IH; discriminate].
      right. f_equal. by apply squash_Purged.
Qed.

Lemma lifecycle_step_rank s s' : lifecycle_step s s' → (rank s ≤ rank s')%nat.
Proof. destruct 1; simpl; lia. Qed.

(** C8, as worded: false at a pass of the TTL monitor over the sample post,
    49 hours after its creation and still Active: the post goes from Active
    to Purged and no delete was requested. *)
Lemma monotonic_as_stated_fails :
  ¬ monotonic_as_stated [OpTtlPass (2 * DAY_MS + 3600000)] sample_db 1%N.
Proof.
  intros H.
  assert (E : observed_states 1%N [OpTtlPass (2 * DAY_MS + 3600000)] sample_db =
              [(OpTtlPass (2 * DAY_MS + 3600000), Purged)])
    by (vm_compute; reflexivity).
  unfold monotonic_as_stated in H. rewrite E in H.
  destruct H as [[H|(_ & _ & u & H)] _]; [|discriminate].
  change (state_of (posts sample_db) 1%N) with Active in H. inversion H.
Qed.

(** C8, amended: under sweeps, explicit deletes, updates and the passes of
    the TTL monitor, in any order and from any store, every step of the
    state of a post that a reader of the store can observe is a step of
    the lifecycle, or the shortcut from Active to Purged, which only an
    explicit delete of that post and a TTL pass take; so no step leads
    from Expired back to Active or out of Purged, and the states observed,
    repeated neighbours merged, are a prefix of the lifecycle from the
    first state on, or Active followed by Purged. *)
Theorem post_state_monotonic (ops : list operation) d i :
  let s := state_of (posts d) i in
  let obs := observed_states i ops d in
  steps_allowed i s obs ∧
  (squash s obs.*2 `prefix_of` lifecycle_from s ∨
   squash s obs.*2 = [Active; Purged]).
Proof.
  intros s obs. split.
  - apply observed_states_allowed.
  - apply (steps_allowed_squash i). apply observed_states_allowed.
Qed.

(** No allowed step lowers the rank of a state. *)
Lemma allowed_rank i op s s' : allowed i op s s' → (rank s ≤ rank s')%nat.
Proof.
  intros [H|(-> & -> & _)]; [by apply lifecycle_step_rank|simpl; lia].
Qed.

Lemma steps_allowed_rank i s l :
  steps_allowed i s l → (rank s ≤ rank (default s (last l.*2)))%nat.
Proof.
  unfold steps_allowed.
  revert s. induction l as [|[o s'] l IH]; intros s; [done|].
  cbn [steps_by]. intros [Ha Hr].
  apply allowed_rank in Ha. specialize (IH s' Hr).
  rewrite fmap_cons, last_cons. destruct (last l.*2); simpl in *; lia.
Qed.

(** A whole operation never lowers the rank of the state of a post: it
    never leads from Expired back to Active, nor from Purged to a stored
    post. *)
Lemma exec_rank op d i :
  (rank (state_of (posts d) i) ≤ rank (state_of (posts (exec op d)) i))%nat.
Proof.
  rewrite <- last_states_of_writes.
  apply (steps_allowed_rank i), writes_allowed.
Qed.

(** The states of the sample post along a run that expires it, a delete
    request that comes too late and a run 8 days on. *)
Lemma sample_post_states :
  (observed_states 1%N
     [OpSweep after_24h; OpDeleteSoft 1%N alice (DAY_MS + 2000);
      OpSweep (clock_at (9 * DAY_MS))]
     {| posts := {[ 1%N := sample_post;
                    2%N := new_Post (8 * DAY_MS - 1) (8 * DAY_MS - 1) alice
                             "later" "General" [] [] ]};
        users := {[ alice := sample_user ]} |}).*2 =
  [Expired; Expired; Expired; Expired; Expired; Expired; Purged].
Proof. vm_compute. reflexivity. Qed.

(** * Properties of the image pipeline *)

(** ** Deleting an asset *)

Lemma unlink_quietly_eq (name : string) (fs : Fs) :
  unlink_quietly name fs = (delete name fs, inr ()).
Proof.
  unfold unlink_quietly, try_catch, unlink.
  destruct (fs !! name) eqn:E; [done|]. simpl. by rewrite delete_id.
Qed.

(** The thumbnail loop never throws; it removes the listed thumbnails and
    nothing else. *)
Lemma unlinkThumbnails_spec name sizes (fs : Fs) :
  ∃ fs', unlinkThumbnails name sizes fs = (fs', inr ()) ∧
    ∀ f, fs' !! f =
         if decide (f ∈ thumbnailName name <$> sizes) then None else fs !! f.
Proof.
  revert fs. induction sizes as [|s sizes IH]; intros fs.
  - exists fs. split; [done|]. intros f.
    destruct (decide _) as [H|_]; [|done]. by apply elem_of_nil in H.
  - destruct (IH (delete (thumbnailName name s) fs)) as (fs' & Hrun & Hfs').
    exists fs'. split.
    + cbn [unlinkThumbnails]. unfold mbind, FsM_bind.
      by rewrite unlink_quietly_eq.
    + intros f. rewrite Hfs', fmap_cons.
      destruct (decide (f = thumbnailName name s)) as [->|Hne].
      * rewrite lookup_delete_eq.
        rewrite (decide_True (P := _ ∈ _ :: _)); [|by left].
        by destruct (decide _).
      * rewrite lookup_delete_ne by done.
        destruct (decide (f ∈ thumbnailName name <$> sizes)) as [Hin|Hin].
        -- rewrite decide_True; [done|by right].
        -- rewrite decide_False; [done|].
           rewrite elem_of_cons. tauto.
Qed.




(** A delete request for a name that is not stored answers 404. *)
Lemma deleteImage_missing name (fs : Fs) :
  fs !! name = None → status (deleteImage name fs).2 = 404.
Proof. intros H. unfold deleteImage, access. by rewrite H. Qed.

(** ** Ingestion *)

Section Ingestion.

(** One request, with its failures, fixed. *)
Context (e : env).

(** One derivative written: the source is stored, [toFile] did not fail,
    and the directory gained a JPEG of quality 85 with the size of the
    profile at the output path. *)
Lemma sharp_thumbnail_ok src dims dst (fs fs' : Fs) :
  sharp_thumbnail e src dims dst fs = (fs', inr ()) →
  is_Some (fs !! src) ∧ toFile_fails e dst = false ∧
  fs' = <[dst := {| file_format := JPEG; file_quality := Some 85;
                    file_size := dims |}]> fs.
Proof.
  unfold sharp_thumbnail. destruct (fs !! src) as [f0|]; [|discriminate].
  destruct (toFile_fails e dst); [discriminate|].
  intros [= <-]. eauto.
Qed.

(** A failure, of whatever step, removes nothing. *)
Lemma sharp_thumbnail_keeps src dims dst (fs : Fs) name :
  is_Some (fs !! name) →
  is_Some ((sharp_thumbnail e src dims dst fs).1 !! name).
Proof.
  intros H. unfold sharp_thumbnail.
  destruct (fs !! src); [|done]. destruct (toFile_fails e dst); [done|].
  simpl. rewrite lookup_insert. by destruct (decide _).
Qed.

Lemma makeThumbnails_keeps f sizes (fs : Fs) name :
  is_Some (fs !! name) →
  is_Some ((makeThumbnails e f sizes fs).1 !! name).
Proof.
  revert fs. induction sizes as [|[s dims] sizes IH]; intros fs H; [done|].
  cbn [makeThumbnails]. unfold mbind, FsM_bind.
  pose proof (sharp_thumbnail_keeps (filename f) dims
                (thumbnailName (filename f) s) fs name H) as H1.
  destruct (sharp_thumbnail _ _ _ _ fs) as [fs1 [err|[]]]; [done|].
  specialize (IH fs1 H1).
  by destruct (makeThumbnails e f sizes fs1) as [fs2 [err|ths]].
Qed.

Lemma processOne_keeps (n : nat) f (fs : Fs) name :
  is_Some (fs !! name) → is_Some ((processOne e n f fs).1 !! name).
Proof.
  intros H. unfold processOne, mbind, FsM_bind.
  pose proof (makeThumbnails_keeps f thumbnailSizes fs name H) as H1.
  destruct (makeThumbnails e f thumbnailSizes fs) as [fs1 [err|ths]]; [done|].
  unfold sharp_metadata. by destruct (fs1 !! filename f).
Qed.

Lemma processFiles_keeps (n : nat) fls (fs : Fs) name :
  is_Some (fs !! name) → is_Some ((processFiles e n fls fs).1 !! name).
Proof.
  revert n fs. induction fls as [|f fls IH]; intros n fs H; [done|].
  cbn [processFiles]. unfold mbind, FsM_bind.
  pose proof (processOne_keeps n f fs name H) as H1.
  destruct (processOne e n f fs) as [fs1 [err|pim]]; [done|].
  specialize (IH (S n) fs1 H1).
  by destruct (processFiles e (S n) fls fs1) as [fs2 [err|pims]].
Qed.

Lemma processImage_eq fls (fs : Fs) : processImage e fls fs = processFiles e 0 fls fs.
Proof.
  unfold processImage, try_catch, throw.
  by destruct (processFiles e 0 fls fs) as [fs1 [err|pims]].
Qed.

(** Whether it succeeds or fails, [processImage] removes no file: what was
    stored before the call, the originals multer wrote included, is stored
    after it. *)
Lemma processImage_keeps fls (fs : Fs) name :
  is_Some (fs !! name) → is_Some ((processImage e fls fs).1 !! name).
Proof. rewrite processImage_eq. apply processFiles_keeps. Qed.

(** After a failed ingestion the original of every file of the request is
    still stored. *)
Lemma failed_ingestion_keeps_originals fls (fs fs' : Fs) err f :
  processImage e fls fs = (fs', inl err) →
  f ∈ fls → is_Some (fs !! filename f) →
  getImage (filename f) fs' = 200.
Proof.
  intros Hrun _ Hf.
  pose proof (processImage_keeps fls fs (filename f) Hf) as H.
  rewrite Hrun in H. simpl in H. destruct H as [x Hx].
  unfold getImage, access. by rewrite Hx.
Qed.

End Ingestion.

(** C3 at an upload whose large derivative fails: the call ends in the
    error, and the original and the two derivatives written before the
    failure are still served, where the claim has them removed. *)
Theorem failed_ingestion_leaves_files :
  let r := processImage failing_env [sample_upload] fresh_fs in
  r.2 = inl (SharpError "u1_large.jpg") ∧
  getImage "u1.jpg" r.1 = 200 ∧
  getImage "u1_small.jpg" r.1 = 200 ∧
  getImage "u1_medium.jpg" r.1 = 200 ∧
  getImage "u1_large.jpg" r.1 = 404.
Proof. vm_compute. by split_and!. Qed.

Lemma ingestion_atomic_fails :
  ¬ ingestion_atomic failing_env [sample_upload] fresh_fs.
Proof.
  intros H.
  specialize (H (processImage failing_env [sample_upload] fresh_fs).1
                (SharpError "u1_large.jpg") eq_refl
                sample_upload "u1.jpg"%string).
  assert (E : getImage "u1.jpg"
                (processImage failing_env [sample_upload] fresh_fs).1 = 200)
    by (by vm_compute).
  rewrite H in E; [discriminate|left|left].
Qed.

(** What [cleanupFiles] would do for a stored upload: the original and
    every derivative are gone afterwards.  No caller invokes it. *)
Lemma cleanupFiles_removes_asset f (fs : Fs) name :
  is_Some (fs !! filename f) →
  name ∈ asset_files (filename f) →
  (cleanupFiles [f] fs).1 !! name = None.
Proof.
  intros [x Hx] Hin.
  destruct (unlinkThumbnails_spec (filename f) thumbnailSizes.*1
              (delete (filename f) fs)) as (fs' & Hrun & Hfs').
  assert (E : cleanupFiles [f] fs = (fs', inr ())).
  { cbn [cleanupFiles]. unfold mbind, FsM_bind, try_catch, unlink.
    rewrite Hx. by rewrite Hrun. }
  rewrite E. simpl. rewrite Hfs'. destruct (decide _); [done|].
  unfold asset_files in Hin. apply elem_of_cons in Hin as [->|Hin].
  - apply lookup_delete_eq.
  - tauto.
Qed.

Lemma cleanup_after_failure :
  let r := processImage failing_env [sample_upload] fresh_fs in
  (cleanupFiles [sample_upload] r.1).1 = ∅.
Proof. by vm_compute. Qed.

(** ** The derivatives *)

Lemma append_cancel (a b c : string) : a +:+ b = a +:+ c → b = c.
Proof. induction a as [|x a IH]; simpl; [done|]. intros [= H]. by apply IH. Qed.

(** The three profiles give three different file names. *)
Lemma thumbnailName_NoDup name : NoDup (thumbnailName name <$> thumbnailSizes.*1).
Proof.
  unfold thumbnailName. simpl.
  repeat (apply NoDup_cons; split);
    rewrite ?elem_of_cons, ?elem_of_nil; [| |tauto|apply NoDup_nil_2].
  - intros [H|[H|[]]]; apply append_cancel in H; discriminate.
  - intros [H|[]]; apply append_cancel in H; discriminate.
Qed.

Section Derivatives.

Context (e : env).

(** What a successful run of the thumbnail loop leaves: the descriptors of
    the profiles in order, a JPEG of quality 85 at every output path, the
    size of the profile in each when the paths differ, and every other
    path as it was. *)
Lemma makeThumbnails_ok f sizes (fs fs' : Fs) ths :
  makeThumbnails e f sizes fs = (fs', inr ths) →
  ths = thumbnail_of e f <$> sizes ∧
  (∀ name, name ∉ thumbnailName (filename f) <$> sizes.*1 →
     fs' !! name = fs !! name) ∧
  (∀ name, name ∈ thumbnailName (filename f) <$> sizes.*1 → jpeg85 fs' name) ∧
  (NoDup (thumbnailName (filename f) <$> sizes.*1) →
   ∀ sd, sd ∈ sizes →
     fs' !! thumbnailName (filename f) sd.1 =
     Some {| file_format := JPEG; file_quality := Some 85; file_size := sd.2 |}).
Proof.
  revert fs fs' ths. induction sizes as [|[s dims] sizes IH]; intros fs fs' ths.
  - intros [= <- <-]. split_and!; [done|done| |].
    + intros name H. by apply elem_of_nil in H.
    + intros _ sd H. by apply elem_of_nil in H.
  - cbn [makeThumbnails]. unfold mbind, FsM_bind.
    destruct (sharp_thumbnail e (filename f) dims
                (thumbnailName (filename f) s) fs) as [fs1 [err|[]]] eqn:E1;
      [discriminate|].
    destruct (makeThumbnails e f sizes fs1) as [fs2 [err|ths']] eqn:E2;
      [discriminate|].
    unfold mret, FsM_ret. intros [= <- <-].
    apply sharp_thumbnail_ok in E1 as (_ & _ & ->).
    destruct (IH _ _ _ E2) as (-> & Hother & Hjpeg & Hsize).
    set (t1 := thumbnailName (filename f) s) in *.
    assert (Hhead : t1 ∉ thumbnailName (filename f) <$> sizes.*1 →
              fs2 !! t1 = Some {| file_format := JPEG; file_quality := Some 85;
                                  file_size := dims |}).
    { intros Hn. by rewrite (Hother _ Hn), lookup_insert_eq. }
    rewrite !fmap_cons. cbn [fst snd]. fold t1. split_and!.
    + done.
    + intros name Hn. rewrite not_elem_of_cons in Hn. destruct Hn as [Hne Hn].
      by rewrite (Hother _ Hn), lookup_insert_ne.
    + intros name Hin.
      destruct (decide (name ∈ thumbnailName (filename f) <$> sizes.*1))
        as [Hr|Hr]; [by apply Hjpeg|].
      apply elem_of_cons in Hin as [->|Hin]; [|done].
      eexists. split; [by apply Hhead|done].
    + intros Hnd sd Hin. apply NoDup_cons in Hnd as [Hn Hnd].
      apply elem_of_cons in Hin as [->|Hin]; [by apply Hhead|by apply Hsize].
Qed.

Lemma processOne_ok (n : nat) f (fs fs' : Fs) pim :
  processOne e n f fs = (fs', inr pim) →
  makeThumbnails e f thumbnailSizes fs =
    (fs', inr (thumbnail_of e f <$> thumbnailSizes)) ∧
  pi_thumbnails pim = thumbnail_of e f <$> thumbnailSizes.
Proof.
  unfold processOne, mbind, FsM_bind.
  destruct (makeThumbnails e f thumbnailSizes fs) as [fs1 [err|ths]] eqn:E;
    [discriminate|].
  destruct (makeThumbnails_ok _ _ _ _ _ E) as (-> & _).
  unfold sharp_metadata. destruct (fs1 !! filename f); [|discriminate].
  unfold mret, FsM_ret. by intros [= <- <-].
Qed.

(** A successful step keeps what is already a JPEG of quality 85. *)
Lemma makeThumbnails_jpeg85 f sizes (fs fs' : Fs) ths name :
  makeThumbnails e f sizes fs = (fs', inr ths) →
  jpeg85 fs name → jpeg85 fs' name.
Proof.
  intros E H. destruct (makeThumbnails_ok _ _ _ _ _ E) as (_ & Hother & Hjpeg & _).
  destruct (decide (name ∈ thumbnailName (filename f) <$> sizes.*1)) as [Hin|Hin].
  - by apply Hjpeg.
  - unfold jpeg85. by rewrite (Hother _ Hin).
Qed.

Lemma processFiles_jpeg85_mono (n : nat) fls (fs fs' : Fs) pims name :
  processFiles e n fls fs = (fs', inr pims) →
  jpeg85 fs name → jpeg85 fs' name.
Proof.
  revert n fs fs' pims. induction fls as [|f fls IH]; intros n fs fs' pims.
  - by intros [= <- <-].
  - cbn [processFiles]. unfold mbind, FsM_bind.
    destruct (processOne e n f fs) as [fs1 [err|pim]] eqn:E1; [discriminate|].
    destruct (processFiles e (S n) fls fs1) as [fs2 [err|pims']] eqn:E2;
      [discriminate|].
    unfold mret, FsM_ret. intros [= <- <-] H.
    apply (IH _ _ _ _ E2).
    apply processOne_ok in E1 as [E1 _].
    by apply (makeThumbnails_jpeg85 _ _ _ _ _ _ E1).
Qed.

Lemma processFiles_jpeg85 (n : nat) fls (fs fs' : Fs) pims f s :
  processFiles e n fls fs = (fs', inr pims) →
  f ∈ fls → s ∈ thumbnailSizes.*1 →
  jpeg85 fs' (thumbnailName (filename f) s).
Proof.
  revert n fs fs' pims. induction fls as [|g fls IH]; intros n fs fs' pims.
  - intros _ H. by apply elem_of_nil in H.
  - cbn [processFiles]. unfold mbind, FsM_bind.
    destruct (processOne e n g fs) as [fs1 [err|pim]] eqn:E1; [discriminate|].
    destruct (processFiles e (S n) fls fs1) as [fs2 [err|pims']] eqn:E2;
      [discriminate|].
    unfold mret, FsM_ret. intros [= <- <-] Hf Hs.
    apply elem_of_cons in Hf as [->|Hf]; [|by apply (IH _ _ _ _ E2)].
    apply (processFiles_jpeg85_mono _ _ _ _ _ _ E2).
    apply processOne_ok in E1 as [E1 _].
    destruct (makeThumbnails_ok _ _ _ _ _ E1) as (_ & _ & Hjpeg & _).
    apply Hjpeg. by apply list_elem_of_fmap_2.
Qed.

(** A successful ingestion of one file: the processed image of the file,
    and a JPEG of quality 85 with the size of the profile at each
    derivative path. *)
Lemma processImage_single_ok f (fs fs' : Fs) pims sd :
  processImage e [f] fs = (fs', inr pims) → sd ∈ thumbnailSizes →
  fs' !! thumbnailName (filename f) sd.1 =
    Some {| file_format := JPEG; file_quality := Some 85; file_size := sd.2 |} ∧
  ∃ pim, pims = [pim] ∧ pi_thumbnails pim = thumbnail_of e f <$> thumbnailSizes.
Proof.
  rewrite processImage_eq. cbn [processFiles]. unfold mbind, FsM_bind.
  destruct (processOne e 0 f fs) as [fs1 [err|pim]] eqn:E1; [discriminate|].
  unfold mret, FsM_ret. intros [= <- <-] Hsd.
  apply processOne_ok in E1 as [E1 Hths].
  destruct (makeThumbnails_ok _ _ _ _ _ E1) as (_ & _ & _ & Hsize).
  split; [apply Hsize; [apply thumbnailName_NoDup|done]|by exists pim].
Qed.

End Derivatives.

(** C5, as worded: false at a 100×80 source, whose small derivative is
    150×150. *)
Lemma never_upscaled_fails : ¬ never_upscaled sample_env sample_upload tiny_fs.
Proof.
  intros H.
  destruct (processImage sample_env [sample_upload] tiny_fs)
    as [fs' [err|pims]] eqn:E; [by vm_compute in E|].
  destruct (H tiny_file fs' pims eq_refl E "small"%string
              {| width := 150; height := 150 |}) as (d & Hd & _ & _ & Hw & _);
    [left|].
  destruct (processImage_single_ok _ _ _ _ _
              ("small"%string, {| width := 150; height := 150 |}) E)
    as [Hd' _]; [left|].
  assert (Hdd : Some d = Some {| file_format := JPEG; file_quality := Some 85;
                                 file_size := {| width := 150; height := 150 |} |})
    by (rewrite <- Hd; exact Hd').
  injection Hdd as ->. simpl in Hw. lia.
Qed.

(** On the 1000×800 source of the scenario the three derivatives are
    150×150, 400×400 and 800×600. *)
Lemma scenario_derivatives :
  file_size <$> stored_fs !! "u1_small.jpg"%string = Some {| width := 150; height := 150 |} ∧
  file_size <$> stored_fs !! "u1_medium.jpg"%string = Some {| width := 400; height := 400 |} ∧
  file_size <$> stored_fs !! "u1_large.jpg"%string = Some {| width := 800; height := 600 |}.
Proof. by vm_compute. Qed.

(** The cover fit enlarges whenever the source falls short of the profile
    in one direction. *)
Lemma cover_enlarges_small_source (target source : dimensions) :
  0 < width source → 0 < height source →
  0 < width target → 0 < height target →
  width source < width target ∨ height source < height target →
  enlarges target source = true.
Proof.
  intros Hws Hhs Hwt Hht Hsmall. unfold enlarges, cover_scale.
  case_bool_decide as Hc; apply bool_decide_eq_true_2; nia.
Qed.

(** ** Encoding and extension of the derivatives *)

Lemma append_nil_l (b : string) : EmptyString +:+ b = b.
Proof. reflexivity. Qed.

Lemma append_cons c (a b : string) : String c a +:+ b = String c (a +:+ b).
Proof. reflexivity. Qed.

Ltac push_append := rewrite ?append_cons, ?append_nil_l; simpl.

Lemma split_last_dot_app (a b : string) :
  Path.split_last_dot (a +:+ b) =
  match Path.split_last_dot b with
  | Some (pre, suf) => Some (a +:+ pre, suf)
  | None =>
      match Path.split_last_dot a with
      | Some (pre, suf) => Some (pre, suf +:+ b)
      | None => None
      end
  end.
Proof.
  induction a as [|c a IH]; push_append.
  - by destruct (Path.split_last_dot b) as [[pre suf]|].
  - rewrite IH.
    destruct (Path.split_last_dot b) as [[pre suf]|]; [done|].
    destruct (Path.split_last_dot a) as [[pre suf]|]; [done|].
    by destruct (Ascii.eqb c _).
Qed.

Lemma split_last_dot_Some (s pre suf : string) :
  Path.split_last_dot s = Some (pre, suf) →
  s = pre +:+ "." +:+ suf ∧ Path.split_last_dot suf = None.
Proof.
  revert pre. induction s as [|c s IH]; intros pre; simpl; [done|].
  destruct (Path.split_last_dot s) as [[pre' suf']|] eqn:E.
  - intros [= <- <-]. destruct (IH pre' eq_refl) as [-> Hn]. by push_append.
  - destruct (Ascii.eqb c _) eqn:Hc; [|done].
    apply Ascii.eqb_eq in Hc as ->. by intros [= <- <-].
Qed.

Lemma length_append (a b : string) :
  String.length (a +:+ b) = (String.length a + String.length b)%nat.
Proof. induction a as [|c a IH]; push_append; [done|]. by rewrite IH. Qed.

Lemma substring_prefix (a b : string) :
  String.substring 0 (String.length a) (a +:+ b) = a.
Proof.
  induction a as [|c a IH]; push_append; [by destruct b|]. by rewrite IH.
Qed.

Lemma append_empty_r (a : string) : a +:+ EmptyString = a.
Proof. induction a as [|c a IH]; push_append; [done|]. by rewrite IH. Qed.

Lemma substring_full (s : string) : String.substring 0 (String.length s) s = s.
Proof.
  rewrite <- (append_empty_r s) at 2. by rewrite substring_prefix.
Qed.

Lemma eqb_length (a b : string) :
  String.eqb a b = true → String.length a = String.length b.
Proof. intros H. apply String.eqb_eq in H. by subst. Qed.

(** The two shapes of a name: no extension, and then the name has no dot,
    or only a leading one, or is [".."]; or a stem that is not empty
    followed by a dot and a suffix free of dots. *)
Lemma path_cases (s : string) :
  (Path.extname s = EmptyString ∧ Path.parse_name s = s ∧
   (Path.split_last_dot s = None ∨
    (∃ suf, Path.split_last_dot s = Some (EmptyString, suf)) ∨
    s = ".."%string)) ∨
  (∃ c pre suf, Path.split_last_dot s = Some (String c pre, suf) ∧
     Path.extname s = "." +:+ suf ∧ Path.parse_name s = String c pre ∧
     Path.split_last_dot suf = None).
Proof.
  unfold Path.parse_name, Path.extname.
  destruct (Path.split_last_dot s) as [[pre suf]|] eqn:E.
  - destruct (String.eqb pre EmptyString || String.eqb s "..") eqn:Hq.
    + left. cbn [String.length]. rewrite Nat.sub_0_r, substring_full.
      split_and!; [done..|]. right.
      apply orb_true_iff in Hq as [Hq|Hq]; apply String.eqb_eq in Hq.
      * left. subst pre. by exists suf.
      * by right.
    + right. apply orb_false_iff in Hq as [Hpre _].
      destruct pre as [|c pre]; [done|]. exists c, pre, suf.
      destruct (split_last_dot_Some _ _ _ E) as [Hs Hsuf].
      split_and!; [done..| |done].
      rewrite Hs. rewrite !length_append.
      replace (_ + _ - _)%nat with (String.length (String c pre)) by lia.
      by rewrite substring_prefix.
  - left. cbn [String.length]. rewrite Nat.sub_0_r, substring_full. auto.
Qed.

(** A name is its stem followed by its extension. *)
Lemma parse_name_extname (s : string) : Path.parse_name s +:+ Path.extname s = s.
Proof.
  destruct (path_cases s) as [(-> & -> & _)|(c & pre & suf & E & -> & -> & _)].
  - apply append_empty_r.
  - by destruct (split_last_dot_Some _ _ _ E) as [<- _].
Qed.

(** The derivative of a profile carries the extension of its source. *)
Lemma extname_thumbnailName (name s : string) :
  name ≠ ".."%string → s ∈ thumbnailSizes.*1 →
  Path.extname (thumbnailName name s) = Path.extname name.
Proof.
  intros Hname Hs.
  assert (Hdot : ∀ x, Path.split_last_dot ("_" +:+ s +:+ x) =
            match Path.split_last_dot x with
            | Some (pre, suf) => Some ("_" +:+ s +:+ pre, suf)
            | None => None
            end).
  { intros x.
    assert (Hnodot : Path.split_last_dot s = None).
    { simpl in Hs.
      repeat (apply elem_of_cons in Hs as [->|Hs]); try reflexivity.
      by apply elem_of_nil in Hs. }
    rewrite (split_last_dot_app "_"), (split_last_dot_app s), Hnodot.
    by destruct (Path.split_last_dot x) as [[pre suf]|]. }
  unfold thumbnailName.
  destruct (path_cases name)
    as [(-> & -> & Hshape)|(c & pre & suf & E & -> & -> & Hsuf)].
  - unfold Path.extname. rewrite split_last_dot_app, Hdot.
    change (Path.split_last_dot EmptyString) with (@None (string * string)).
    destruct Hshape as [->|[[suf ->]| ->]]; done.
  - assert (Hx : Path.split_last_dot ("." +:+ suf) = Some (EmptyString, suf)).
    { push_append. by rewrite Hsuf. }
    unfold Path.extname. rewrite split_last_dot_app, Hdot, Hx.
    match goal with |- (if ?b then _ else _) = _ => destruct b eqn:Hb end;
      [|done].
    exfalso. apply orb_true_iff in Hb as [Hb|Hb]; apply eqb_length in Hb;
      rewrite !length_append in Hb; simpl in Hb; lia.
Qed.

(** ** The size of the derivatives of a whole request *)

Lemma append_cancel_r (a b c : string) : a +:+ c = b +:+ c → a = b.
Proof.
  revert b. induction a as [|x a IH]; intros [|y b] H.
  - done.
  - apply (f_equal String.length) in H.
    rewrite append_nil_l, append_cons in H. cbn [String.length] in H.
    rewrite length_append in H. lia.
  - apply (f_equal String.length) in H.
    rewrite append_nil_l, append_cons in H. cbn [String.length] in H.
    rewrite length_append in H. lia.
  - rewrite !append_cons in H. injection H as -> H. f_equal. by apply IH.
Qed.

Lemma append_assoc_r (a b c : string) : (a +:+ b) +:+ c = a +:+ (b +:+ c).
Proof. induction a as [|x a IH]; [done|]. rewrite !append_cons. by rewrite IH. Qed.

Lemma last_char_append (a b : string) :
  b ≠ EmptyString → last_char (a +:+ b) = last_char b.
Proof.
  intros Hb. induction a as [|x a IH]; [done|].
  rewrite append_cons. cbn [last_char]. rewrite IH.
  destruct b as [|y b]; [done|]. cbn [last_char]. by destruct (last_char b).
Qed.

(** The names of the profiles end in three different characters, so a
    derivative path tells its profile. *)
Lemma profile_suffix_inj (a b s s' : string) :
  s ∈ thumbnailSizes.*1 → s' ∈ thumbnailSizes.*1 →
  a +:+ "_" +:+ s = b +:+ "_" +:+ s' → s = s'.
Proof.
  intros Hs Hs' H. apply (f_equal last_char) in H.
  simpl in Hs, Hs'.
  repeat (apply elem_of_cons in Hs as [->|Hs]);
    repeat (apply elem_of_cons in Hs' as [->|Hs']);
    try (by apply elem_of_nil in Hs); try (by apply elem_of_nil in Hs');
    try reflexivity;
    rewrite (last_char_append a), (last_char_append b) in H by done;
    vm_compute in H; discriminate H.
Qed.

(** The stem of a derivative is the stem of its source followed by the
    profile. *)
Lemma parse_name_thumbnailName (name s : string) :
  name ≠ ".."%string → s ∈ thumbnailSizes.*1 →
  Path.parse_name (thumbnailName name s) = Path.parse_name name +:+ "_" +:+ s.
Proof.
  intros Hname Hs.
  pose proof (parse_name_extname (thumbnailName name s)) as H.
  rewrite (extname_thumbnailName _ _ Hname Hs) in H.
  unfold thumbnailName in H at 2.
  apply (append_cancel_r _ (Path.parse_name name +:+ "_" +:+ s) (Path.extname name)).
  rewrite H. unfold thumbnailName. by rewrite !append_assoc_r.
Qed.

Lemma thumbnailName_dotdot (s : string) :
  s ∈ thumbnailSizes.*1 →
  String.length (Path.parse_name (thumbnailName ".." s)) = 1%nat.
Proof.
  intros Hs. simpl in Hs.
  repeat (apply elem_of_cons in Hs as [->|Hs]); try (by vm_compute).
  by apply elem_of_nil in Hs.
Qed.

Lemma profile_length (s : string) :
  s ∈ thumbnailSizes.*1 → (5 ≤ String.length s)%nat.
Proof.
  intros Hs. simpl in Hs.
  repeat (apply elem_of_cons in Hs as [->|Hs]); try (simpl; lia).
  by apply elem_of_nil in Hs.
Qed.

(** Two files of a request never share a derivative path across
    profiles. *)
Lemma thumbnailName_profile_inj (f g s s' : string) :
  s ∈ thumbnailSizes.*1 → s' ∈ thumbnailSizes.*1 →
  thumbnailName g s' = thumbnailName f s → s' = s.
Proof.
  intros Hs Hs' H.
  destruct (decide (f = ".."%string)) as [->|Hf];
    destruct (decide (g = ".."%string)) as [->|Hg].
  - unfold thumbnailName in H. do 2 apply append_cancel in H.
    by apply append_cancel_r in H.
  - pose proof (thumbnailName_dotdot s Hs) as Hlen.
    pose proof (profile_length s' Hs').
    rewrite <- H, (parse_name_thumbnailName _ _ Hg Hs') in Hlen.
    rewrite length_append, (length_append "_") in Hlen.
    cbn [String.length] in Hlen. lia.
  - pose proof (thumbnailName_dotdot s' Hs') as Hlen.
    pose proof (profile_length s Hs).
    rewrite H, (parse_name_thumbnailName _ _ Hf Hs) in Hlen.
    rewrite length_append, (length_append "_") in Hlen.
    cbn [String.length] in Hlen. lia.
  - apply (f_equal Path.parse_name) in H.
    rewrite (parse_name_thumbnailName _ _ Hf Hs),
            (parse_name_thumbnailName _ _ Hg Hs') in H.
    by apply profile_suffix_inj in H.
Qed.

(** A profile has one size. *)
Lemma thumbnailSizes_functional sd sd' :
  sd ∈ thumbnailSizes → sd' ∈ thumbnailSizes → sd'.1 = sd.1 → sd' = sd.
Proof.
  intros H H'. unfold thumbnailSizes in *.
  repeat (apply elem_of_cons in H as [->|H]);
    repeat (apply elem_of_cons in H' as [->|H']);
    try (by apply elem_of_nil in H); try (by apply elem_of_nil in H');
    by intros [=].
Qed.

Section RequestSizes.

Context (e : env).

(** Processing one more file leaves a derivative of the size of its profile
    one: a later file that writes the same path writes the same profile. *)
Lemma processOne_size_mono (n : nat) g (fs fs' : Fs) pim name sd :
  processOne e n g fs = (fs', inr pim) → sd ∈ thumbnailSizes →
  fs !! thumbnailName name sd.1 =
    Some {| file_format := JPEG; file_quality := Some 85; file_size := sd.2 |} →
  fs' !! thumbnailName name sd.1 =
    Some {| file_format := JPEG; file_quality := Some 85; file_size := sd.2 |}.
Proof.
  intros E Hsd Hold. apply processOne_ok in E as [E _].
  destruct (makeThumbnails_ok _ _ _ _ _ _ E) as (_ & Hother & _ & Hsize).
  destruct (decide (thumbnailName name sd.1 ∈
                    thumbnailName (filename g) <$> thumbnailSizes.*1)) as [Hin|Hin].
  - apply list_elem_of_fmap in Hin as (s' & Heq & Hs').
    assert (s' = sd.1) as ->.
    { symmetry in Heq. apply (thumbnailName_profile_inj _ _ _ _ ) in Heq; [done| |done].
      by apply list_elem_of_fmap_2. }
    rewrite Heq. apply Hsize; [apply thumbnailName_NoDup|done].
  - by rewrite (Hother _ Hin).
Qed.

Lemma processFiles_size_mono (n : nat) fls (fs fs' : Fs) pims name sd :
  processFiles e n fls fs = (fs', inr pims) → sd ∈ thumbnailSizes →
  fs !! thumbnailName name sd.1 =
    Some {| file_format := JPEG; file_quality := Some 85; file_size := sd.2 |} →
  fs' !! thumbnailName name sd.1 =
    Some {| file_format := JPEG; file_quality := Some 85; file_size := sd.2 |}.
Proof.
  revert n fs fs' pims. induction fls as [|g fls IH]; intros n fs fs' pims.
  - by intros [= <- <-].
  - cbn [processFiles]. unfold mbind, FsM_bind.
    destruct (processOne e n g fs) as [fs1 [err|pim]] eqn:E1; [discriminate|].
    destruct (processFiles e (S n) fls fs1) as [fs2 [err|pims']] eqn:E2;
      [discriminate|].
    unfold mret, FsM_ret. intros [= <- <-] Hsd Hold.
    apply (IH _ _ _ _ E2 Hsd). by apply (processOne_size_mono _ _ _ _ _ _ _ E1).
Qed.

(** A successful ingestion of a request: one descriptor per file, in the
    order of the request, and behind every derivative path of every file a
    JPEG of quality 85 with the size of the profile. *)
Lemma processFiles_sizes (n : nat) fls (fs fs' : Fs) pims :
  processFiles e n fls fs = (fs', inr pims) →
  length pims = length fls ∧
  ∀ (k : nat) f, fls !! k = Some f →
    (∃ pim, pims !! k = Some pim ∧ pi_filename pim = filename f ∧
            pi_thumbnails pim = thumbnail_of e f <$> thumbnailSizes) ∧
    ∀ sd, sd ∈ thumbnailSizes →
      fs' !! thumbnailName (filename f) sd.1 =
      Some {| file_format := JPEG; file_quality := Some 85; file_size := sd.2 |}.
Proof.
  revert n fs fs' pims. induction fls as [|g fls IH]; intros n fs fs' pims.
  - intros [= <- <-]. split; [done|]. intros k f Hk. by rewrite lookup_nil in Hk.
  - cbn [processFiles]. unfold mbind, FsM_bind.
    destruct (processOne e n g fs) as [fs1 [err|pim]] eqn:E1; [discriminate|].
    destruct (processFiles e (S n) fls fs1) as [fs2 [err|pims']] eqn:E2;
      [discriminate|].
    unfold mret, FsM_ret. intros [= <- <-].
    destruct (IH _ _ _ _ E2) as [Hlen Hrest]. split; [simpl; lia|].
    intros [|k] f Hk.
    + injection Hk as <-. split.
      * exists pim. split; [done|].
        pose proof (processOne_ok _ _ _ _ _ _ E1) as [_ Hths].
        split; [|done]. revert E1. unfold processOne, mbind, FsM_bind.
        destruct (makeThumbnails e g thumbnailSizes fs) as [? [?|?]]; [discriminate|].
        destruct (sharp_metadata (filename g) _) as [? [?|?]]; [discriminate|].
        unfold mret, FsM_ret. by intros [= _ <-].
      * intros sd Hsd. apply (processFiles_size_mono _ _ _ _ _ _ _ E2 Hsd).
        apply processOne_ok in E1 as [E1 _].
        destruct (makeThumbnails_ok _ _ _ _ _ _ E1) as (_ & _ & _ & Hsize).
        apply Hsize; [apply thumbnailName_NoDup|done].
    + by apply Hrest.
Qed.

End RequestSizes.

(** C5, amended: every derivative of every image of an upload request has
    exactly the width and height of its profile, whatever the source
    measures, and the descriptor of the image records those sizes: the
    cover fit crops, and enlarges a source that is smaller than the
    profile. *)
Theorem derivative_has_profile_size e fls f (fs fs' : Fs) pims sd :
  processImage e fls fs = (fs', inr pims) → f ∈ fls → sd ∈ thumbnailSizes →
  (∃ d : file, fs' !! thumbnailName (filename f) sd.1 = Some d ∧ file_size d = sd.2) ∧
  length pims = length fls ∧
  ∃ (k : nat) pim, fls !! k = Some f ∧ pims !! k = Some pim ∧
                   thumbnail_of e f sd ∈ pi_thumbnails pim.
Proof.
  rewrite processImage_eq. intros E Hf Hsd.
  destruct (processFiles_sizes _ _ _ _ _ _ E) as [Hlen Hall].
  apply list_elem_of_lookup in Hf as [k Hk].
  destruct (Hall k f Hk) as [(pim & Hpim & _ & Hths) Hsize].
  split_and!; [by eexists; split; [apply Hsize|]|done|].
  exists k, pim. split_and!; [done..|]. rewrite Hths. by apply list_elem_of_fmap_2.
Qed.

Lemma derivative_has_profile_size_witness :
  (∃ d : file, two_stored_fs !! thumbnailName "u2.png" "large" = Some d ∧
        file_size d = {| width := 800; height := 600 |}) ∧
  ∃ pims, (processImage sample_env [sample_upload; png_upload] two_fs).2 = inr pims ∧
    length pims = 2%nat ∧
    ∃ (k : nat) pim,
      [sample_upload; png_upload] !! k = Some png_upload ∧
      pims !! k = Some pim ∧
      thumbnail_of sample_env png_upload
        ("large"%string, {| width := 800; height := 600 |}) ∈ pi_thumbnails pim.
Proof.
  destruct (processImage sample_env [sample_upload; png_upload] two_fs)
    as [fs' [err|pims]] eqn:E; [by vm_compute in E|].
  assert (Hfs : two_stored_fs = fs') by (unfold two_stored_fs; by rewrite E).
  rewrite Hfs.
  destruct (derivative_has_profile_size sample_env [sample_upload; png_upload]
              png_upload two_fs fs' pims
              ("large"%string, {| width := 800; height := 600 |}) E)
    as (H1 & H2 & H3).
  - right. left.
  - right. right. left.
  - split; [exact H1|]. exists pims. by split_and!.
Defined.

(** C10: after a successful ingestion every derivative of every file of the
    request holds JPEG data written at quality 85, whatever the format of
    its source, while its file name carries the extension of the source
    file (for every source name but [".."], which multer never produces). *)
Theorem derivatives_are_jpeg e fls (fs fs' : Fs) pims f s :
  processImage e fls fs = (fs', inr pims) →
  f ∈ fls → s ∈ thumbnailSizes.*1 →
  jpeg85 fs' (thumbnailName (filename f) s) ∧
  (filename f ≠ ".."%string →
   Path.extname (thumbnailName (filename f) s) = Path.extname (filename f)).
Proof.
  rewrite processImage_eq. intros E Hf Hs. split.
  - by apply (processFiles_jpeg85 _ _ _ _ _ _ _ _ E).
  - intros Hn. by apply extname_thumbnailName.
Qed.

Lemma derivatives_are_jpeg_witness :
  jpeg85 (processImage sample_env [png_upload] png_fs).1
         (thumbnailName "u2.png" "small") ∧
  ("u2.png"%string ≠ ".."%string →
   Path.extname (thumbnailName "u2.png" "small") = Path.extname "u2.png").
Proof.
  destruct (processImage sample_env [png_upload] png_fs)
    as [fs' [err|pims]] eqn:E; [by vm_compute in E|].
  apply (derivatives_are_jpeg sample_env [png_upload] png_fs fs' pims
           png_upload "small"%string E); left.
Defined.

(** A PNG source: the small derivative is stored under a [.png] name and
    holds JPEG data. *)
Lemma png_derivative_is_jpeg :
  let fs' := (processImage sample_env [png_upload] png_fs).1 in
  file_format <$> fs' !! "u2.png"%string = Some PNG ∧
  Path.extname "u2_small.png" = ".png"%string ∧
  file_format <$> fs' !! "u2_small.png"%string = Some JPEG ∧
  file_quality <$> fs' !! "u2_small.png"%string = Some (Some 85).
Proof. by vm_compute. Qed.

(** * Further properties of the cleanup service *)

(** ** Counting documents *)

Lemma count_ext (q1 q2 : Post → bool) (ps : gmap ObjectId Post) :
  (∀ i p, ps !! i = Some p → q1 p = q2 p) →
  Post_countDocuments q1 ps = Post_countDocuments q2 ps.
Proof.
  intros H. unfold Post_countDocuments. do 2 f_equal.
  apply map_filter_ext. intros i p Hp. simpl. by rewrite (H i p Hp).
Qed.

Lemma count_zero (q : Post → bool) (ps : gmap ObjectId Post) :
  Post_countDocuments q ps = 0 ↔ ∀ i p, ps !! i = Some p → q p = false.
Proof.
  unfold Post_countDocuments. rewrite <- Post_find_nil. unfold Post_find.
  rewrite map_to_list_empty_iff, <- map_size_empty_iff. lia.
Qed.

Lemma count_nonneg (q : Post → bool) (ps : gmap ObjectId Post) :
  0 ≤ Post_countDocuments q ps.
Proof. unfold Post_countDocuments. lia. Qed.

Lemma count_le (q1 q2 : Post → bool) (ps : gmap ObjectId Post) :
  (∀ p, q1 p = true → q2 p = true) →
  Post_countDocuments q1 ps ≤ Post_countDocuments q2 ps.
Proof.
  intros H. unfold Post_countDocuments. apply inj_le, map_subseteq_size.
  apply map_filter_subseteq_ext. intros i p _. apply H.
Qed.

Lemma count_complement (q : Post → bool) (ps : gmap ObjectId Post) :
  Post_countDocuments q ps + Post_countDocuments (λ p, negb (q p)) ps =
  Z.of_nat (base.size ps).
Proof.
  unfold Post_countDocuments. rewrite <- Nat2Z.inj_add. f_equal.
  rewrite <- (map_filter_union_complement
                (λ kv : ObjectId * Post, q kv.2 = true) ps) at 3.
  rewrite map_size_disj_union by apply map_disjoint_filter_complement.
  do 2 f_equal. apply map_filter_ext. intros i p _. simpl.
  destruct (q p); simpl; naive_solver.
Qed.

Lemma count_fmap (q : Post → bool) (f : Post → Post) (ps : gmap ObjectId Post) :
  Post_countDocuments q (f <$> ps) = Post_countDocuments (λ p, q (f p)) ps.
Proof.
  unfold Post_countDocuments. f_equal.
  rewrite (map_filter_fmap (λ kv : ObjectId * Post, q kv.2 = true)).
  by rewrite map_size_fmap.
Qed.

Lemma lookup_filter_bool (q : Post → bool) (ps : gmap ObjectId Post) i :
  filter (λ kv : ObjectId * Post, q kv.2 = true) ps !! i =
  match ps !! i with
  | Some y => if q y then Some y else None
  | None => None
  end.
Proof.
  destruct (ps !! i) as [y|] eqn:E.
  - destruct (q y) eqn:Hq.
    + by apply map_lookup_filter_Some.
    + apply map_lookup_filter_None. right. intros y' Hy'.
      assert (y' = y) as -> by congruence. simpl. congruence.
  - apply map_lookup_filter_None. by left.
Qed.

Lemma count_insert (q : Post → bool) (ps : gmap ObjectId Post) i x :
  Post_countDocuments q (<[i := x]> ps) =
  Post_countDocuments q ps
  - match ps !! i with Some y => if q y then 1 else 0 | None => 0 end
  + (if q x then 1 else 0).
Proof.
  unfold Post_countDocuments. rewrite map_filter_insert. simpl.
  pose proof (lookup_filter_bool q ps i) as Hl.
  destruct (decide (q x = true)) as [Hx|Hx].
  - rewrite Hx, map_size_insert, Hl.
    destruct (ps !! i) as [y|]; [destruct (q y)|]; simpl; lia.
  - apply not_true_is_false in Hx. rewrite Hx, map_filter_delete, map_size_delete, Hl.
    destruct (ps !! i) as [y|] eqn:E; [destruct (q y) eqn:Hq|]; simpl; try lia.
    assert (base.size (filter (λ kv : ObjectId * Post, q kv.2 = true) ps) ≠ 0)%nat; [|lia].
    apply map_size_non_empty_iff. intros He. by rewrite He, lookup_empty in Hl.
Qed.


(** ** Running the sweep again *)

(** What a run that found something leaves holds no Active post older than
    the cutoff of the run. *)
Lemma sweep_leaves_none_due ck d j q :
  posts (sweep ck d) !! j = Some q →
  expired_filter (at_cutoff ck - DAY_MS) q = false.
Proof.
  intros Hq. destruct (found_expired_dec ck d) as [Hf|Hf].
  - apply (sweep_found_lookup_Some _ _ _ _ Hf) in Hq as (p & Hp & -> & _).
    unfold expire. destruct (expired_filter _ p) eqn:E; [|done].
    unfold expired_filter. simpl. apply andb_false_r.
  - unfold sweep in Hq. rewrite (sweep_nothing_found _ _ Hf) in Hq. simpl in Hq.
    destruct (expired_filter _ q) eqn:E; [|done].
    destruct Hf. by exists j, q.
Qed.

(** X1: a run of the sweep right after another, with a cutoff that is not
    later, finds nothing to expire, returns early and leaves the store as
    the first run left it. *)
Theorem sweep_again_idle ck ck' d :
  at_cutoff ck' ≤ at_cutoff ck →
  cleanupExpiredPosts ck' (sweep ck d) = (sweep ck d, None).
Proof.
  intros Hle. apply sweep_nothing_found. intros (j & q & Hq & Hdue).
  pose proof (sweep_leaves_none_due _ _ _ _ Hq) as Hnot.
  unfold expired_filter in *.
  apply andb_true_iff in Hdue as [Hold Hact]. rewrite Hact, andb_true_r in Hnot.
  apply bool_decide_eq_true in Hold. apply bool_decide_eq_false in Hnot. lia.
Qed.

Lemma sweep_again_idle_witness :
  cleanupExpiredPosts after_24h (sweep after_24h sample_db) =
  (sweep after_24h sample_db, None).
Proof. apply (sweep_again_idle after_24h after_24h sample_db). by vm_compute. Defined.

(** ** The result of a run and the statistics *)

Lemma modifiedCount_softDelete (now c stamp : Date) (ps : gmap ObjectId Post) :
  (Post_updateMany now (expired_filter c) (softDelete_update stamp) ps).2 =
  Post_countDocuments (expired_filter c) ps.
Proof.
  unfold Post_updateMany. cbn [snd]. apply count_ext. intros j q _.
  destruct (expired_filter c q) eqn:E; [|done]. simpl.
  rewrite applyUpdate_softDelete.
  apply andb_true_iff in E as [_ Hact].
  rewrite bool_decide_eq_false_2; [done|].
  intros Heq. apply (f_equal isActive) in Heq. simpl in Heq. congruence.
Qed.

Lemma Set_spread_length {A} `{EqDecision A} (seen l : list A) :
  (length (Set_spread seen l) ≤ length l)%nat.
Proof.
  revert seen. induction l as [|x l IH]; intros seen; simpl; [lia|].
  destruct (decide (x ∈ seen)); simpl.
  - specialize (IH seen). lia.
  - specialize (IH (x :: seen)). lia.
Qed.

Lemma Set_spread_NoDup {A} `{EqDecision A} (seen l : list A) :
  NoDup (Set_spread seen l).
Proof.
  revert seen. induction l as [|x l IH]; intros seen; simpl; [constructor|].
  destruct (decide (x ∈ seen)); [apply IH|].
  constructor; [|apply IH]. rewrite Set_spread_elem, elem_of_cons. tauto.
Qed.

(** The list of author ids a run makes has one entry for each author of a
    post it found. *)
Lemma authorIds_of_length ck d :
  length (authorIds_of ck d) = base.size (due_authors (at_cutoff ck - DAY_MS) d).
Proof.
  unfold authorIds_of, due_authors.
  set (l := map _ _).
  change ((λ kv : ObjectId * Post, author kv.2) <$> Post_find _ _) with l.
  rewrite <- (size_list_to_set (C := gset ObjectId) (Set_spread [] l))
    by apply Set_spread_NoDup.
  f_equal. apply set_eq. intros x.
  rewrite !elem_of_list_to_set, Set_spread_elem, elem_of_nil. tauto.
Qed.

Lemma cleanupExpiredPosts_found ck d :
  found_expired ck d →
  cleanupExpiredPosts ck d =
  (sweep ck d,
   Some {| softDeleted := (softDeletePhase ck d).2;
           hardDeleted :=
             (hardDeletePhase ck
                (syncPhase (authorIds_of ck d) (softDeletePhase ck d).1)).2;
           usersUpdated := Z.of_nat (length (authorIds_of ck d)) |}).
Proof.
  intros (j & q & Hq & Hdue). unfold sweep, cleanupExpiredPosts.
  rewrite bool_decide_eq_false_2; [reflexivity|].
  rewrite length_zero_iff_nil, Post_find_nil. intros H.
  specialize (H j q Hq). congruence.
Qed.

Lemma softDeletePhase_count ck d :
  (softDeletePhase ck d).2 =
  Post_countDocuments (expired_filter (at_cutoff ck - DAY_MS)) (posts d).
Proof. apply modifiedCount_softDelete. Qed.

Lemma softDeletePhase_size ck d :
  base.size (posts (softDeletePhase ck d).1) = base.size (posts d).
Proof. apply map_size_fmap. Qed.

Lemma hardDeletePhase_size ck d :
  Z.of_nat (base.size (posts (hardDeletePhase ck d).1)) =
  Z.of_nat (base.size (posts d)) - (hardDeletePhase ck d).2.
Proof.
  unfold hardDeletePhase, Post_deleteMany. cbn [fst snd posts].
  pose proof (count_complement (purge_filter (at_purge ck - 7 * DAY_MS)) (posts d)) as Hc.
  assert (He : Post_countDocuments
                 (λ p, negb (purge_filter (at_purge ck - 7 * DAY_MS) p)) (posts d) =
               Z.of_nat (base.size (filter (λ kv : ObjectId * Post,
                 purge_filter (at_purge ck - 7 * DAY_MS) kv.2 = false) (posts d)))).
  { unfold Post_countDocuments. do 2 f_equal. apply map_filter_ext.
    intros j q _. simpl. by destruct (purge_filter _ q). }
  lia.
Qed.

(** X2: a run that does not return early reports as [softDeleted] the
    number of Active posts older than its cutoff, the [postsExpiringSoon] of
    the statistics taken at that time before the run, and as [usersUpdated]
    the number of distinct authors of those posts, at least one and at most
    [softDeleted], whether or not a user document exists for them; the
    store holds [hardDeleted] posts fewer than before. *)
Theorem sweep_result_counts ck d d' r :
  cleanupExpiredPosts ck d = (d', Some r) →
  softDeleted r = postsExpiringSoon (getCleanupStats (at_cutoff ck) d) ∧
  usersUpdated r =
    Z.of_nat (base.size (due_authors (at_cutoff ck - DAY_MS) d)) ∧
  1 ≤ usersUpdated r ≤ softDeleted r ∧
  Z.of_nat (base.size (posts d')) = Z.of_nat (base.size (posts d)) - hardDeleted r.
Proof.
  intros Hrun. destruct (found_expired_dec ck d) as [Hf|Hf].
  2: { rewrite (sweep_nothing_found _ _ Hf) in Hrun. discriminate. }
  rewrite (cleanupExpiredPosts_found _ _ Hf) in Hrun.
  assert (Hd' : d' = sweep ck d) by congruence.
  assert (Hr : r = {| softDeleted := (softDeletePhase ck d).2;
                      hardDeleted :=
                        (hardDeletePhase ck
                           (syncPhase (authorIds_of ck d) (softDeletePhase ck d).1)).2;
                      usersUpdated := Z.of_nat (length (authorIds_of ck d)) |})
    by congruence.
  subst d' r. clear Hrun. cbn [softDeleted usersUpdated hardDeleted].
  rewrite softDeletePhase_count. split_and!.
  - done.
  - by rewrite authorIds_of_length.
  - destruct Hf as (j & q & Hq & Hdue).
    assert (Hin : author q ∈ authorIds_of ck d)
      by (apply authorIds_of_elem; by exists j, q).
    destruct (authorIds_of ck d); [by apply elem_of_nil in Hin|simpl; lia].
  - etrans; [apply inj_le, Set_spread_length|].
    rewrite length_map. unfold Post_find, Post_countDocuments.
    by rewrite length_map_to_list.
  - rewrite (sweep_found _ _ Hf), hardDeletePhase_size.
    rewrite syncPhase_posts, softDeletePhase_size. done.
Qed.

Lemma sweep_result_counts_witness :
  softDeleted {| softDeleted := 2; hardDeleted := 0; usersUpdated := 1 |} =
    postsExpiringSoon (getCleanupStats (at_cutoff after_24h) twin_db) ∧
  usersUpdated {| softDeleted := 2; hardDeleted := 0; usersUpdated := 1 |} =
    Z.of_nat (base.size (due_authors (at_cutoff after_24h - DAY_MS) twin_db)) ∧
  1 ≤ usersUpdated {| softDeleted := 2; hardDeleted := 0; usersUpdated := 1 |}
    ≤ softDeleted {| softDeleted := 2; hardDeleted := 0; usersUpdated := 1 |} ∧
  Z.of_nat (base.size (posts (sweep after_24h twin_db))) =
  Z.of_nat (base.size (posts twin_db))
  - hardDeleted {| softDeleted := 2; hardDeleted := 0; usersUpdated := 1 |}.
Proof.
  apply (sweep_result_counts after_24h twin_db (sweep after_24h twin_db)).
  by vm_compute.
Defined.

(** X3: the statistics taken at the cutoff time of a run, on the store the
    run leaves, count no post as expiring soon. *)
Theorem stats_after_sweep ck d :
  postsExpiringSoon (getCleanupStats (at_cutoff ck) (sweep ck d)) = 0.
Proof.
  unfold getCleanupStats. cbn [postsExpiringSoon]. apply count_zero.
  intros j q Hq. by apply (sweep_leaves_none_due ck d j).
Qed.

(** X4: the statistics split the collection: every stored post is counted
    Active or inactive, the posts expiring soon are among the Active ones
    and the posts eligible for the hard delete among the inactive ones. *)
Theorem stats_partition (t : Date) d :
  let s := getCleanupStats t d in
  activePosts s + inactivePosts s = Z.of_nat (base.size (posts d)) ∧
  0 ≤ postsExpiringSoon s ≤ activePosts s ∧
  0 ≤ postsEligibleForHardDelete s ≤ inactivePosts s.
Proof.
  cbn. split_and!.
  - apply count_complement.
  - apply count_nonneg.
  - apply count_le. intros q Hq. by apply andb_true_iff in Hq as [_ ?].
  - apply count_nonneg.
  - apply count_le. intros q Hq. by apply andb_true_iff in Hq as [_ ?].
Qed.

(** ** What a sweep leaves alone *)

(** X5: a sweep creates no post and rewrites none: every post stored after
    it was stored before under the same id, either unchanged or, having
    been Active and older than the cutoff, with [isActive] cleared,
    [updatedAt] set to the timestamp of the update and every other path as
    it was.  No sweep sets [isActive] again. *)
Theorem sweep_frame_posts ck d j q' :
  posts (sweep ck d) !! j = Some q' →
  ∃ q, posts d !! j = Some q ∧
       (q' = q ∨
        (isActive q = true ∧ DAY_MS < at_cutoff ck - createdAt q ∧
         q' = set_updatedAt (at_update ck) (set_isActive false q))).
Proof.
  intros Hq'. destruct (found_expired_dec ck d) as [Hf|Hf].
  - apply (sweep_found_lookup_Some _ _ _ _ Hf) in Hq' as (q & Hq & -> & _).
    exists q. split; [done|]. unfold expire.
    destruct (expired_filter _ q) eqn:E; [right|by left].
    apply andb_true_iff in E as [Hold ?]. apply bool_decide_eq_true in Hold.
    split_and!; [done|lia|done].
  - unfold sweep in Hq'. rewrite (sweep_nothing_found _ _ Hf) in Hq'. eauto.
Qed.

Lemma sweep_frame_posts_witness :
  ∃ q, posts sample_db !! 1%N = Some q ∧
       (set_updatedAt (DAY_MS + 1000) (set_isActive false sample_post) = q ∨
        (isActive q = true ∧ DAY_MS < at_cutoff after_24h - createdAt q ∧
         set_updatedAt (DAY_MS + 1000) (set_isActive false sample_post) =
         set_updatedAt (at_update after_24h) (set_isActive false q))).
Proof.
  apply (sweep_frame_posts after_24h sample_db 1%N
           (set_updatedAt (DAY_MS + 1000) (set_isActive false sample_post))).
  by vm_compute.
Defined.

Lemma sweep_found_users ck d a :
  found_expired ck d →
  users (sweep ck d) !! a =
  if decide (a ∈ authorIds_of ck d)
  then set_postsCount
         (Post_countDocuments (active_of a) (posts (softDeletePhase ck d).1))
       <$> users d !! a
  else users d !! a.
Proof.
  intros Hf. rewrite (sweep_found _ _ Hf).
  change (users (hardDeletePhase ck
                   (syncPhase (authorIds_of ck d) (softDeletePhase ck d).1)).1)
    with (foldl (syncCounter (posts (softDeletePhase ck d).1))
                (users (softDeletePhase ck d).1) (authorIds_of ck d)).
  by rewrite foldl_syncCounter_lookup, softDeletePhase_users.
Qed.

(** X6: a sweep adds no user and removes none, writes no path of a user
    document but [postsCount], and leaves the document of every user
    untouched who is not the author of an Active post older than the
    cutoff. *)
Theorem sweep_frame_users ck d a :
  username <$> users (sweep ck d) !! a = username <$> users d !! a ∧
  ((∀ j q, posts d !! j = Some q → author q = a →
      expired_filter (at_cutoff ck - DAY_MS) q = false) →
   users (sweep ck d) !! a = users d !! a).
Proof.
  destruct (found_expired_dec ck d) as [Hf|Hf].
  - rewrite (sweep_found_users _ _ _ Hf). split.
    + destruct (decide _); [|done]. by destruct (users d !! a).
    + intros Hnone. rewrite decide_False; [done|].
      rewrite authorIds_of_elem. intros (j & q & Hq & Hdue & Ha).
      rewrite (Hnone j q Hq Ha) in Hdue. discriminate.
  - unfold sweep. by rewrite (sweep_nothing_found _ _ Hf).
Qed.

(** The soft delete leaves the count of every author it does not touch. *)
Lemma softDeletePhase_count_other ck d a :
  a ∉ authorIds_of ck d →
  Post_countDocuments (active_of a) (posts (softDeletePhase ck d).1) =
  Post_countDocuments (active_of a) (posts d).
Proof.
  intros Hn. unfold softDeletePhase, Post_updateMany. cbn [fst posts].
  rewrite count_fmap. apply count_ext. intros j q Hq.
  destruct (expired_filter _ q) eqn:E; [|done].
  rewrite applyUpdate_softDelete. unfold active_of. simpl.
  rewrite andb_false_r. symmetry. apply andb_false_iff. left.
  apply bool_decide_eq_false_2. intros Ha. apply Hn.
  apply authorIds_of_elem. by exists j, q.
Qed.

(** X7: a sweep keeps every counter that was right: an author whose stored
    [postsCount] is the number of the author's Active posts before the
    sweep has a [postsCount] equal to that number after it. *)
Theorem sweep_keeps_counter_ok ck d a :
  counter_ok d a → counter_ok (sweep ck d) a.
Proof.
  intros Hok u' Hu'. destruct (found_expired_dec ck d) as [Hf|Hf].
  2: { unfold sweep in *. rewrite (sweep_nothing_found _ _ Hf) in *. by apply Hok. }
  rewrite (sweep_found_users _ _ _ Hf) in Hu'.
  rewrite (sweep_found _ _ Hf), hardDeletePhase_count, syncPhase_posts.
  destruct (decide (a ∈ authorIds_of ck d)) as [Hin|Hin].
  - destruct (users d !! a) as [u|]; [|done]. by injection Hu' as <-.
  - rewrite (softDeletePhase_count_other _ _ _ Hin). by apply Hok.
Qed.

Lemma sweep_keeps_counter_ok_witness :
  counter_ok (sweep after_24h
                {| posts := posts sample_db;
                   users := {[ alice := set_postsCount 1 sample_user ]} |}) alice.
Proof.
  apply sweep_keeps_counter_ok. intros u Hu. vm_compute in Hu.
  injection Hu as <-. by vm_compute.
Defined.

(** * Further properties of the posts controllers *)




(** X9: a create request answered 201 stores the new post under its id,
    so that its author has one Active post more, and adds one to the
    [postsCount] of the author; nobody else's posts or counter change.  A
    request answered 400 or 500 changes nothing.  Either way a counter that
    was right stays right. *)
Theorem createPost_keeps_counter_ok (valid saves : bool) (id : ObjectId)
    (tc th : Date) b c g tg pims d a :
  let r := createPost valid saves id tc th b c g tg pims d in
  (counter_ok d a → counter_ok r.1 a) ∧
  (r.2 ≠ 201 → r.1 = d) ∧
  (r.2 = 201 →
   posts d !! id = None ∧
   posts r.1 = <[id := new_Post tc th b c (or_default g "General") (default [] tg)
                         (image_of <$> pims)]> (posts d) ∧
   Post_countDocuments (active_of b) (posts r.1) =
     Post_countDocuments (active_of b) (posts d) + 1 ∧
   postsCount <$> users r.1 !! b = (λ u, postsCount u + 1) <$> users d !! b ∧
   (a ≠ b →
    users r.1 !! a = users d !! a ∧
    Post_countDocuments (active_of a) (posts r.1) =
      Post_countDocuments (active_of a) (posts d))).
Proof.
  cbv zeta. unfold createPost. destruct valid; [|by split_and!].
  destruct saves; [|by split_and!]. cbn [negb].
  destruct (posts d !! id) as [q|] eqn:Hid; [by split_and!|].
  cbn [fst snd posts users]. unfold User_findByIdAndUpdate.
  assert (Hcount : ∀ x, Post_countDocuments (active_of x)
            (<[id := new_Post tc th b c (or_default g "General")
                       (default [] tg) (image_of <$> pims)]> (posts d)) =
          Post_countDocuments (active_of x) (posts d)
          + (if bool_decide (b = x) then 1 else 0)).
  { intros x. rewrite count_insert, Hid.
    unfold active_of at 2. cbn [new_Post author isActive].
    rewrite andb_true_r. case_bool_decide; lia. }
  split_and!; [|done|].
  - intros Hok u'. cbn [posts users]. rewrite lookup_alter, Hcount.
    destruct (decide (b = a)) as [->|Hne].
    + rewrite bool_decide_eq_true_2 by done.
      destruct (users d !! a) as [u|] eqn:Hu; [|done].
      intros [= <-]. simpl. rewrite (Hok u Hu). lia.
    + rewrite bool_decide_eq_false_2 by done. intros Hu'.
      rewrite (Hok u' Hu'). lia.
  - intros _. split_and!; [done|done| | |].
    + rewrite Hcount, bool_decide_eq_true_2 by done. done.
    + rewrite lookup_alter_eq. by destruct (users d !! b).
    + intros Hne. rewrite lookup_alter_ne by done. split; [done|].
      rewrite Hcount, bool_decide_eq_false_2 by done. lia.
Qed.

Lemma createPost_keeps_counter_ok_witness :
  counter_ok (createPost true true 9%N 0 0 alice "hi" None None []
                {| posts := posts sample_db;
                   users := {[ alice := set_postsCount 1 sample_user ]} |}).1 alice.
Proof.
  apply (proj1 (createPost_keeps_counter_ok true true 9%N 0 0 alice "hi" None None []
                  {| posts := posts sample_db;
                     users := {[ alice := set_postsCount 1 sample_user ]} |} alice)).
  intros u Hu. vm_compute in Hu. injection Hu as <-. by vm_compute.
Defined.

(** X10: the soft delete of the first controller clears [isActive] of an
    Active post of the requester, with the timestamp of the update, and
    takes one off the [postsCount] of the requester; for a post that is
    missing, not the requester's or not Active it changes nothing.  Either
    way a counter that was right stays right, and the handler rejects
    without a response. *)
Theorem deletePost_soft_keeps_counter_ok (postId userId : ObjectId) (now : Date)
    d a :
  let r := deletePost_soft postId userId now d in
  r.2 = Rejects ∧
  (counter_ok d a → counter_ok r.1 a) ∧
  (∀ q, posts d !! postId = Some q → author q = userId → isActive q = true →
     posts r.1 = <[postId := set_updatedAt now (set_isActive false q)]> (posts d) ∧
     users r.1 = alter (inc_postsCount (-1)) userId (users d)) ∧
  ((∀ q, posts d !! postId = Some q → author q = userId → isActive q = false) →
   r.1 = d).
Proof.
  cbv zeta. unfold deletePost_soft.
  destruct (posts d !! postId) as [q|] eqn:Hq.
  2: { split_and!; [done|done|intros ? [=]|done]. }
  destruct (bool_decide (author q = userId) && isActive q) eqn:Hc.
  2: { split_and!; [done|done| |done].
       intros q' [= <-] Hau Hact.
       rewrite Hact, andb_true_r in Hc. by apply bool_decide_eq_false in Hc. }
  apply andb_true_iff in Hc as [Hau Hact]. apply bool_decide_eq_true in Hau.
  cbn [fst snd posts users]. split_and!; [done| |by intros q' [= <-] _ _|].
  - intros Hok u'. cbn [posts users]. unfold User_findByIdAndUpdate.
    rewrite lookup_alter, count_insert, Hq.
    assert (Hnew : active_of a
              (applyUpdate now [("isActive"%string, VBool false)] q) = false)
      by apply andb_false_r.
    rewrite Hnew. unfold active_of at 2. rewrite Hact, andb_true_r, Hau.
    destruct (decide (userId = a)) as [->|Hne].
    + rewrite bool_decide_eq_true_2 by done.
      destruct (users d !! a) as [u|] eqn:Hu; [|done].
      intros [= <-]. simpl. rewrite (Hok u Hu). lia.
    + rewrite bool_decide_eq_false_2 by done. intros Hu'.
      rewrite (Hok u' Hu'). lia.
  - intros Hn. specialize (Hn q eq_refl Hau). congruence.
Qed.

Lemma deletePost_soft_keeps_counter_ok_witness :
  counter_ok (deletePost_soft 1%N alice 5000
                {| posts := posts sample_db;
                   users := {[ alice := set_postsCount 1 sample_user ]} |}).1 alice.
Proof.
  apply (proj1 (proj2 (deletePost_soft_keeps_counter_ok 1%N alice 5000
                  {| posts := posts sample_db;
                     users := {[ alice := set_postsCount 1 sample_user ]} |} alice))).
  intros u Hu. vm_compute in Hu. injection Hu as <-. by vm_compute.
Defined.





(** ** Updates *)

Lemma Post_set_core k v q :
  (∀ b, v ≠ VBool b) → (∀ t, v = VDate t → k = "updatedAt"%string) →
  same_core q (Post_set k v q).
Proof.
  intros Hb Ht. destruct v as [b|t|s|l]; simpl.
  - by destruct (Hb b).
  - by rewrite (Ht t eq_refl).
  - by repeat case_match.
  - by case_match.
Qed.

Lemma same_core_trans q1 q2 q3 :
  same_core q1 q2 → same_core q2 q3 → same_core q1 q3.
Proof. unfold same_core. intros (?&?&?&?&?) (?&?&?&?&?). split_and!; congruence. Qed.

Lemma foldl_Post_set_core (l : list (string * value)) q :
  Forall (λ kv : string * value,
            (∀ b, kv.2 ≠ VBool b) ∧
            (∀ t, kv.2 = VDate t → kv.1 = "updatedAt"%string)) l →
  same_core q (foldl (λ q kv, Post_set kv.1 kv.2 q) q l).
Proof.
  intros H. revert q. induction H as [|kv l [Hb Ht] _ IH]; intros q; [done|].
  cbn [foldl]. eapply same_core_trans; [|apply IH]. by apply Post_set_core.
Qed.

(** An update that carries no boolean and no date but [updatedAt] leaves
    the core of a post as it is. *)
Lemma applyUpdate_core (now : Date) upd q :
  Forall (λ kv : string * value,
            (∀ b, kv.2 ≠ VBool b) ∧
            (∀ t, kv.2 = VDate t → kv.1 = "updatedAt"%string)) upd →
  same_core q (applyUpdate now upd q).
Proof.
  intros H. unfold applyUpdate, castUpdate. apply foldl_Post_set_core.
  apply Forall_app. split.
  - clear q. induction H as [|kv l Hkv _ IH]; [apply Forall_nil_2|].
    rewrite filter_cons. destruct (decide _); [|done].
    by apply Forall_cons_2.
  - apply Forall_cons_2; [|apply Forall_nil_2].
    split; [discriminate|by intros t _].
Qed.

Lemma updatePost_old_core (td : Date) (c : string) g tg :
  Forall (λ kv : string * value,
            (∀ b, kv.2 ≠ VBool b) ∧
            (∀ t, kv.2 = VDate t → kv.1 = "updatedAt"%string))
    [("content", VString c); ("category", VString (or_default g "General"));
     ("tags", VStrings (default [] tg)); ("updatedAt", VDate td)]%string.
Proof.
  repeat (apply Forall_cons_2;
          [split; [discriminate
                  |intros t Ht; first [discriminate Ht|reflexivity]]|]).
  apply Forall_nil_2.
Qed.

Lemma updatePost_core (c g : option string) tg :
  Forall (λ kv : string * value,
            (∀ b, kv.2 ≠ VBool b) ∧
            (∀ t, kv.2 = VDate t → kv.1 = "updatedAt"%string))
    (spread_string "content" c ++ spread_string "category" g ++
     spread_strings "tags" tg).
Proof.
  rewrite !Forall_app. unfold spread_string, spread_strings.
  split_and!; repeat case_match;
    repeat (apply Forall_cons_2; [split; [discriminate|intros t Ht; discriminate Ht]|]);
    apply Forall_nil_2.
Qed.

(** X13: an update request of either controller writes nothing but
    [content], [category], [tags] and [updatedAt] of the one post it
    names, and only when the requester is its author: the users are
    untouched, no post appears or disappears, author, [isActive],
    [createdAt], [expiresAt] and images of every post stay as they were,
    and a post that is written carries the timestamp of the update.  A
    request that fails a validation, and a request of the second
    controller that is not answered 200, writes nothing. *)
Theorem update_frame (v vs v' vs' : bool) (id userId : ObjectId)
    (td now now' : Date) c c' g tg d j :
  let r1 := updatePost_old v vs id userId td now c g tg d in
  let r2 := updatePost v' vs' id userId now' c' g tg d in
  users r1.1 = users d ∧ users r2.1 = users d ∧
  (∀ q, posts d !! j = Some q →
     ∃ q1 q2, posts r1.1 !! j = Some q1 ∧ posts r2.1 !! j = Some q2 ∧
              same_core q q1 ∧ same_core q q2 ∧
              (q1 = q ∨ updatedAt q1 = now) ∧
              (q2 = q ∨ updatedAt q2 = now') ∧
              (j ≠ id ∨ author q ≠ userId → q1 = q ∧ q2 = q)) ∧
  (posts d !! j = None → posts r1.1 !! j = None ∧ posts r2.1 !! j = None) ∧
  (v = false ∨ vs = false → r1.1 = d) ∧
  (r2.2 ≠ 200 → r2.1 = d).
Proof.
  assert (Hrefl : ∀ q, same_core q q) by (by intros q).
  assert (H1 : ∀ q : Post,
            (posts d !! j = Some q →
             ∃ q1, posts (updatePost_old v vs id userId td now c g tg d).1 !! j
                     = Some q1 ∧
                   same_core q q1 ∧ (q1 = q ∨ updatedAt q1 = now) ∧
                   (j ≠ id ∨ author q ≠ userId → q1 = q)) ∧
            (posts d !! j = None →
             posts (updatePost_old v vs id userId td now c g tg d).1 !! j = None) ∧
            users (updatePost_old v vs id userId td now c g tg d).1 = users d).
  { intros q. unfold updatePost_old.
    destruct v; [|by split_and!; [eauto 10|done|done]].
    destruct vs; [|by split_and!; [eauto 10|done|done]]. cbn [negb].
    destruct (posts d !! id) as [p0|] eqn:Hid;
      [|by split_and!; [eauto 10|done|done]].
    destruct (bool_decide (author p0 = userId) && isActive p0) eqn:Hc;
      [|by split_and!; [eauto 10|done|done]].
    apply andb_true_iff in Hc as [Hau _]. apply bool_decide_eq_true in Hau.
    cbn [fst posts users]. split_and!; [|intros Hj|done].
    - intros Hq. destruct (decide (j = id)) as [->|Hne].
      + assert (p0 = q) as -> by congruence. rewrite lookup_insert_eq.
        eexists. split_and!; [done| | |].
        * apply applyUpdate_core, updatePost_old_core.
        * right. apply applyUpdate_updatedAt.
        * intros [?|?]; done.
      + rewrite lookup_insert_ne by done. eauto 10.
    - rewrite lookup_insert_ne; [done|]. intros ->. congruence. }
  assert (H2 : ∀ q : Post,
            (posts d !! j = Some q →
             ∃ q2, posts (updatePost v' vs' id userId now' c' g tg d).1 !! j
                     = Some q2 ∧
                   same_core q q2 ∧ (q2 = q ∨ updatedAt q2 = now') ∧
                   (j ≠ id ∨ author q ≠ userId → q2 = q)) ∧
            (posts d !! j = None →
             posts (updatePost v' vs' id userId now' c' g tg d).1 !! j = None) ∧
            users (updatePost v' vs' id userId now' c' g tg d).1 = users d ∧
            ((updatePost v' vs' id userId now' c' g tg d).2 ≠ 200 →
             (updatePost v' vs' id userId now' c' g tg d).1 = d)).
  { intros q. unfold updatePost.
    destruct v'; [|by split_and!; [eauto 10|done..]]. cbn [negb].
    destruct (posts d !! id) as [p0|] eqn:Hid;
      [|by split_and!; [eauto 10|done..]].
    destruct (bool_decide (author p0 = userId)) eqn:Hc;
      [|by split_and!; [eauto 10|done..]].
    apply bool_decide_eq_true in Hc.
    destruct vs'; [|by split_and!; [eauto 10|done..]]. cbn [negb].
    cbn [fst snd posts users]. split_and!; [|intros Hj|done|done].
    - intros Hq. destruct (decide (j = id)) as [->|Hne].
      + assert (p0 = q) as -> by congruence. rewrite lookup_insert_eq.
        eexists. split_and!; [done| | |].
        * apply applyUpdate_core, updatePost_core.
        * right. apply applyUpdate_updatedAt.
        * intros [?|?]; done.
      + rewrite lookup_insert_ne by done. eauto 10.
    - rewrite lookup_insert_ne; [done|]. intros ->. congruence. }
  cbv zeta. split_and!.
  - by destruct (H1 sample_post) as (_ & _ & ?).
  - by destruct (H2 sample_post) as (_ & _ & ? & _).
  - intros q Hq. destruct (H1 q) as ((q1 & ? & ? & ? & ?) & _); [done|].
    destruct (H2 q) as ((q2 & ? & ? & ? & ?) & _); [done|].
    exists q1, q2. split_and!; auto.
  - intros Hj. destruct (H1 sample_post) as (_ & ? & _).
    destruct (H2 sample_post) as (_ & ? & _). auto.
  - unfold updatePost_old. by intros [-> | ->]; [|destruct v].
  - by destruct (H2 sample_post) as (_ & _ & _ & ?).
Qed.

(** ** Paging through the posts of a user *)

Global Instance newer_first_total : Total newer_first.
Proof. intros x y. unfold newer_first. lia. Qed.

Global Instance newer_first_trans : Transitive newer_first.
Proof. intros x y z. unfold newer_first. lia. Qed.

(** The posts of a user, newest first: what the query of [getMyPosts]
    finds before it is cut into pages. *)
Lemma found_Permutation (u : ObjectId) d :
  merge_sort newer_first (Post_find (author_is u) (posts d))
  ≡ₚ Post_find (author_is u) (posts d).
Proof. apply merge_sort_Permutation. Qed.

Lemma found_length (u : ObjectId) d :
  Z.of_nat (length (merge_sort newer_first (Post_find (author_is u) (posts d)))) =
  Post_countDocuments (author_is u) (posts d).
Proof.
  rewrite found_Permutation. unfold Post_find, Post_countDocuments.
  by rewrite length_map_to_list.
Qed.

Lemma found_NoDup (u : ObjectId) d :
  NoDup (merge_sort newer_first (Post_find (author_is u) (posts d))).
Proof. rewrite found_Permutation. apply NoDup_map_to_list. Qed.

Lemma StronglySorted_sublist {A} (R : relation A) (l1 l2 : list A) :
  l1 `sublist_of` l2 → StronglySorted R l2 → StronglySorted R l1.
Proof.
  induction 1 as [|x l1 l2 Hsub IH|x l1 l2 Hsub IH]; intros Hs.
  - constructor.
  - apply StronglySorted_inv in Hs as [Hs Hall]. constructor; [by apply IH|].
    rewrite Forall_forall in *. intros y Hy. apply Hall.
    by apply (elem_of_sublist l1).
  - apply StronglySorted_inv in Hs as [Hs _]. by apply IH.
Qed.

(** The page of a valid request, in terms of the sorted list. *)
Lemma getMyPosts_valid (u : ObjectId) (limit page : Z) d :
  1 ≤ limit → 1 ≤ page →
  let L := Z.to_nat (Z.min limit 50) in
  let found := merge_sort newer_first (Post_find (author_is u) (posts d)) in
  ∃ pg, getMyPosts u limit page d =
          (200, Some (take L (drop ((Z.to_nat page - 1) * Z.to_nat limit) found),
                      pg)) ∧
        total pg = Post_countDocuments (author_is u) (posts d) ∧
        totalPages pg = Some (- (- total pg / Z.min limit 50)) ∧
        hasNextPage pg = bool_decide (page < - (- total pg / Z.min limit 50)).
Proof.
  intros Hl Hp L found. unfold getMyPosts, cursor_skip, cursor_limit, ceil_div.
  rewrite bool_decide_eq_false_2 by nia.
  rewrite !(bool_decide_eq_false_2 (Z.min limit 50 = 0)) by lia.
  eexists. split.
  { do 2 f_equal. apply pair_equal_spec. split; [|reflexivity].
    unfold L. f_equal; [lia|]. unfold found. f_equal. nia. }
  split_and!; reflexivity.
Qed.

Lemma page_posts_valid (u : ObjectId) (limit page : Z) d :
  1 ≤ limit → 1 ≤ page →
  page_posts u limit page d =
  take (Z.to_nat (Z.min limit 50))
    (drop ((Z.to_nat page - 1) * Z.to_nat limit)
       (merge_sort newer_first (Post_find (author_is u) (posts d)))).
Proof.
  intros Hl Hp. unfold page_posts.
  destruct (getMyPosts_valid u limit page d Hl Hp) as (pg & -> & _). done.
Qed.

(** X14: for a limit and a page of at least 1, [getMyPosts] answers 200
    with a page of at most [limit] posts and never more than 50, each of
    them a post of the requester stored under its id, Active or not, no
    post twice, the newest first. *)
Theorem getMyPosts_page (u : ObjectId) (limit page : Z) d :
  1 ≤ limit → 1 ≤ page →
  ∃ l pg, getMyPosts u limit page d = (200, Some (l, pg)) ∧
    Z.of_nat (length l) ≤ Z.min limit 50 ∧
    (∀ j q, (j, q) ∈ l → posts d !! j = Some q ∧ author q = u) ∧
    NoDup l.*1 ∧
    StronglySorted newer_first l.
Proof.
  intros Hl Hp.
  destruct (getMyPosts_valid u limit page d Hl Hp) as (pg & Hrun & _).
  eexists _, pg. split; [exact Hrun|].
  set (found := merge_sort newer_first (Post_find (author_is u) (posts d))).
  set (L := Z.to_nat (Z.min limit 50)).
  assert (Hsub : take L (drop ((Z.to_nat page - 1) * Z.to_nat limit) found)
                 `sublist_of` found).
  { etrans; [apply sublist_take|apply sublist_drop]. }
  split_and!.
  - rewrite length_take. lia.
  - intros j q Hin. apply (elem_of_sublist _ _ _ Hin) in Hsub.
    unfold found in Hsub. rewrite found_Permutation in Hsub.
    unfold Post_find in Hsub. apply elem_of_map_to_list in Hsub.
    apply map_lookup_filter_Some in Hsub as [Hq Hau]. simpl in Hau.
    by apply bool_decide_eq_true in Hau.
  - assert (Hnd : NoDup found.*1).
    { unfold found. rewrite found_Permutation. apply NoDup_fst_map_to_list. }
    eapply sublist_NoDup; [exact Hnd|]. by apply fmap_sublist.
  - apply (StronglySorted_sublist _ _ _ Hsub), StronglySorted_merge_sort; apply _.
Qed.

Lemma pages_take (u : ObjectId) (limit : Z) d (n : nat) :
  1 ≤ limit ≤ 50 →
  pages_upto u limit d n =
  take (n * Z.to_nat limit)
    (merge_sort newer_first (Post_find (author_is u) (posts d))).
Proof.
  intros Hl. unfold pages_upto. induction n as [|n IH]; [done|].
  rewrite seq_S, fmap_app, concat_app, IH. cbn [fmap list_fmap concat].
  rewrite app_nil_r, page_posts_valid by lia.
  replace (Z.min limit 50) with limit by lia.
  replace (Z.to_nat (Z.of_nat (1 + n)) - 1)%nat with n by lia.
  rewrite take_take_drop. f_equal. lia.
Qed.

(** X15: for a limit from 1 to 50 the pages of [getMyPosts] from the first
    to the last, [totalPages] of them, list every post of the requester
    exactly once.  For a limit above 50 they do not: the documents are
    skipped by the limit of the request and cut at 50, so the posts that
    come 51st to [limit]-th in the order are on no page. *)
Theorem getMyPosts_pages_cover (u : ObjectId) (limit : Z) d :
  1 ≤ limit →
  ∃ l pg n, getMyPosts u limit 1 d = (200, Some (l, pg)) ∧
    totalPages pg = Some (Z.of_nat n) ∧
    (limit ≤ 50 →
     pages_upto u limit d n ≡ₚ Post_find (author_is u) (posts d)) ∧
    (50 < limit →
     ∀ (r : nat) x (page : Z),
       merge_sort newer_first (Post_find (author_is u) (posts d)) !! r = Some x →
       50 ≤ Z.of_nat r < limit → 1 ≤ page →
       x ∉ page_posts u limit page d).
Proof.
  intros Hl.
  destruct (getMyPosts_valid u limit 1 d Hl) as (pg & Hrun & Htot & Hpages & _);
    [lia|].
  set (L := Z.min limit 50) in *.
  assert (HL : 1 ≤ L) by (unfold L; lia).
  pose proof (count_nonneg (author_is u) (posts d)) as Hnn.
  rewrite <- Htot in Hnn.
  pose proof (Z.div_mod (- total pg) L) as Hdm.
  pose proof (Z.mod_pos_bound (- total pg) L) as Hmb.
  assert (Hn : 0 ≤ - (- total pg / L)) by nia.
  eexists _, pg, (Z.to_nat (- (- total pg / L))).
  split; [exact Hrun|]. split; [by rewrite Z2Nat.id|]. split.
  - intros Hle. rewrite pages_take by done.
    rewrite take_ge; [apply found_Permutation|].
    pose proof (found_length u d) as Hlen. rewrite <- Htot in Hlen.
    assert (L = limit) by (unfold L; lia). nia.
  - intros Hbig r x page Hr Hrange Hpage Hin.
    rewrite page_posts_valid in Hin by lia.
    apply list_elem_of_lookup in Hin as [k Hk].
    apply lookup_take_Some in Hk as [Hk Hklt].
    rewrite lookup_drop in Hk.
    pose proof (NoDup_lookup _ _ _ _ (found_NoDup u d) Hr Hk) as Heq.
    replace (Z.min limit 50) with 50 in Hklt by lia. nia.
Qed.

Lemma drop_nil_iff {A} (l : list A) (n : nat) : drop n l = [] ↔ (length l ≤ n)%nat.
Proof.
  split; [|apply drop_ge]. intros H. apply (f_equal length) in H.
  rewrite length_drop in H. simpl in H. lia.
Qed.

(** X16: for a limit from 1 to 50, [hasNextPage] of a page says whether the
    next page holds a post. *)
Theorem getMyPosts_hasNextPage (u : ObjectId) (limit page : Z) d :
  1 ≤ limit ≤ 50 → 1 ≤ page →
  ∃ l pg, getMyPosts u limit page d = (200, Some (l, pg)) ∧
    (hasNextPage pg = true ↔ page_posts u limit (page + 1) d ≠ []).
Proof.
  intros Hl Hp.
  destruct (getMyPosts_valid u limit page d) as (pg & Hrun & Htot & _ & Hnext);
    [lia|done|].
  eexists _, pg. split; [exact Hrun|].
  rewrite page_posts_valid, Hnext by lia.
  replace (Z.min limit 50) with limit by lia.
  set (found := merge_sort newer_first (Post_find (author_is u) (posts d))).
  pose proof (found_length u d) as Hlen. fold found in Hlen. rewrite <- Htot in Hlen.
  pose proof (Z.div_mod (- total pg) limit) as Hdm.
  pose proof (Z.mod_pos_bound (- total pg) limit) as Hmb.
  rewrite bool_decide_eq_true.
  assert (Hne : take (Z.to_nat limit)
                  (drop ((Z.to_nat (page + 1) - 1) * Z.to_nat limit) found) ≠ []
                ↔ ((Z.to_nat (page + 1) - 1) * Z.to_nat limit < length found)%nat).
  { split.
    - intros H.
      destruct (decide ((Z.to_nat (page + 1) - 1) * Z.to_nat limit < length found)%nat);
        [done|]. destruct H. rewrite drop_ge by lia. by destruct (Z.to_nat limit).
    - intros H Hnil. apply (f_equal length) in Hnil.
      rewrite length_take, length_drop in Hnil. simpl in Hnil. lia. }
  rewrite Hne. split; intros H; nia.
Qed.

Lemma getMyPosts_page_witness :
  ∃ l pg, getMyPosts alice 2 1 paged_db = (200, Some (l, pg)) ∧
    Z.of_nat (length l) ≤ Z.min 2 50 ∧
    (∀ j q, (j, q) ∈ l → posts paged_db !! j = Some q ∧ author q = alice) ∧
    NoDup l.*1 ∧
    StronglySorted newer_first l.
Proof. apply (getMyPosts_page alice 2 1 paged_db); lia. Defined.

Lemma getMyPosts_pages_cover_witness :
  ∃ l pg n, getMyPosts alice 2 1 paged_db = (200, Some (l, pg)) ∧
    totalPages pg = Some (Z.of_nat n) ∧
    (2 ≤ 50 →
     pages_upto alice 2 paged_db n ≡ₚ Post_find (author_is alice) (posts paged_db)) ∧
    (50 < 2 →
     ∀ (r : nat) x (page : Z),
       merge_sort newer_first (Post_find (author_is alice) (posts paged_db)) !! r
         = Some x →
       50 ≤ Z.of_nat r < 2 → 1 ≤ page →
       x ∉ page_posts alice 2 page paged_db).
Proof. apply (getMyPosts_pages_cover alice 2 paged_db). lia. Defined.

Lemma getMyPosts_hasNextPage_witness :
  ∃ l pg, getMyPosts alice 2 1 paged_db = (200, Some (l, pg)) ∧
    (hasNextPage pg = true ↔ page_posts alice 2 (1 + 1) paged_db ≠ []).
Proof. apply (getMyPosts_hasNextPage alice 2 1 paged_db); lia. Defined.

(** The pages of the sample: the four posts of the author newest first, the
    Expired one among them. *)
Lemma paged_db_pages :
  (page_posts alice 2 1 paged_db).*1 = [4%N; 2%N] ∧
  (page_posts alice 2 2 paged_db).*1 = [3%N; 1%N] ∧
  (page_posts alice 2 3 paged_db).*1 = [].
Proof. by vm_compute. Qed.

(** * Properties of the likes *)

Lemma isLikedBy_elem (u : ObjectId) (likes : list like) :
  isLikedBy u likes = true ↔ u ∈ like_user <$> likes.
Proof.
  unfold isLikedBy. induction likes as [|l likes IH]; simpl.
  - rewrite elem_of_nil. split; [discriminate|done].
  - rewrite orb_true_iff, IH, elem_of_cons, bool_decide_eq_true.
    split; intros [?|?]; auto.
Qed.

Lemma isLikedBy_false (u : ObjectId) (likes : list like) :
  isLikedBy u likes = false ↔ u ∉ like_user <$> likes.
Proof. rewrite <- isLikedBy_elem. by destruct (isLikedBy u likes). Qed.

Lemma list_find_like (u : ObjectId) (likes : list like) :
  match list_find (λ l, like_user l = u) likes with
  | Some (k, x) =>
      like_user x = u ∧ isLikedBy u likes = true ∧
      likes = take k likes ++ x :: drop (S k) likes ∧
      u ∉ like_user <$> take k likes
  | None => isLikedBy u likes = false
  end.
Proof.
  destruct (list_find _ likes) as [[k x]|] eqn:E.
  - apply list_find_Some in E as (Hk & Hx & Hfirst).
    split_and!; [done| |by rewrite take_drop_middle|].
    + apply isLikedBy_elem, list_elem_of_fmap. exists x. split; [done|].
      by apply list_elem_of_lookup_2 in Hk.
    + rewrite list_elem_of_fmap. intros (y & Hy & Hin).
      apply list_elem_of_lookup in Hin as [m Hm].
      pose proof (lookup_lt_Some _ _ _ Hm) as Hlt. rewrite length_take in Hlt.
      rewrite lookup_take_lt in Hm by lia.
      apply (Hfirst m y Hm); [lia|done].
  - apply list_find_None in E. apply isLikedBy_false.
    rewrite list_elem_of_fmap. intros (y & Hy & Hin).
    rewrite Forall_forall in E. by apply (E y Hin).
Qed.

(** X17: [toggleLike] returns whether the user likes the post afterwards,
    which is the opposite of [isLikedBy] before the call, and the like
    count moves by exactly one, up when it returns true and down when it
    returns false. *)
Theorem toggleLike_count (t : Date) (u : ObjectId) (likes : list like) :
  (toggleLike t u likes).2 = negb (isLikedBy u likes) ∧
  likesCount (toggleLike t u likes).1 =
  likesCount likes + (if (toggleLike t u likes).2 then 1 else -1).
Proof.
  unfold toggleLike, likesCount. pose proof (list_find_like u likes) as H.
  destruct (list_find _ likes) as [[k x]|]; simpl.
  - destruct H as (_ & -> & Hl & _). split; [done|].
    rewrite delete_take_drop. rewrite Hl at 3. rewrite !length_app. simpl. lia.
  - rewrite H. split; [done|]. rewrite length_app. simpl. lia.
Qed.

(** X18: on a like list that names no user twice, [toggleLike] flips the
    like of its user and of nobody else, and the list it leaves names no
    user twice either. *)
Theorem toggleLike_flips (t : Date) (u v : ObjectId) (likes : list like) :
  NoDup (like_user <$> likes) →
  NoDup (like_user <$> (toggleLike t u likes).1) ∧
  isLikedBy u (toggleLike t u likes).1 = negb (isLikedBy u likes) ∧
  (v ≠ u → isLikedBy v (toggleLike t u likes).1 = isLikedBy v likes).
Proof.
  intros Hnd. unfold toggleLike. pose proof (list_find_like u likes) as H.
  destruct (list_find _ likes) as [[k x]|]; cbn [fst].
  - destruct H as (Hx & Hliked & Hl & Hbefore).
    rewrite delete_take_drop. rewrite Hl in Hnd.
    rewrite fmap_app, fmap_cons in Hnd.
    apply NoDup_app in Hnd as (Hnd1 & Hdisj & Hnd2).
    apply NoDup_cons in Hnd2 as [Hxn Hnd2]. rewrite Hx in *.
    split_and!.
    + rewrite fmap_app. apply NoDup_app. split_and!; [done| |done].
      intros y Hy Hy'. apply (Hdisj y Hy). by right.
    + rewrite Hliked. apply isLikedBy_false.
      rewrite fmap_app, elem_of_app. tauto.
    + intros Hne. apply eq_true_iff_eq. rewrite !isLikedBy_elem.
      rewrite Hl at 3. rewrite !fmap_app, fmap_cons, !elem_of_app, elem_of_cons, Hx.
      intuition congruence.
  - apply isLikedBy_false in H as Hn. split_and!.
    + rewrite fmap_app. apply NoDup_app. split_and!; [done| |apply NoDup_singleton].
      intros y Hy Hy'. apply list_elem_of_singleton in Hy'. by subst.
    + rewrite H. apply isLikedBy_elem. rewrite fmap_app, elem_of_app. right.
      by apply list_elem_of_singleton.
    + intros Hne. apply eq_true_iff_eq. rewrite !isLikedBy_elem.
      rewrite fmap_app, elem_of_app. simpl. rewrite list_elem_of_singleton.
      intuition congruence.
Qed.

Lemma toggleLike_flips_witness :
  NoDup (like_user <$> (toggleLike 5 3%N sample_likes).1) ∧
  isLikedBy 3%N (toggleLike 5 3%N sample_likes).1 = negb (isLikedBy 3%N sample_likes) ∧
  (4%N ≠ 3%N → isLikedBy 4%N (toggleLike 5 3%N sample_likes).1 = isLikedBy 4%N sample_likes).
Proof.
  apply (toggleLike_flips 5 3%N 4%N sample_likes).
  apply (bool_decide_unpack _). vm_compute. exact I.
Defined.

(** X19: a like followed by an unlike gives back the like list as it was:
    for a user who does not like the post, toggling twice returns the list
    unchanged, in order. *)
Theorem toggleLike_twice (t t' : Date) (u : ObjectId) (likes : list like) :
  isLikedBy u likes = false →
  toggleLike t' u (toggleLike t u likes).1 = (likes, false).
Proof.
  intros Hn. unfold toggleLike at 2.
  pose proof (list_find_like u likes) as H.
  destruct (list_find _ likes) as [[k x]|]; [destruct H as (_ & ? & _); congruence|].
  cbn [fst]. unfold toggleLike.
  assert (Hfind : list_find (λ l, like_user l = u)
                    (likes ++ [{| like_user := u; likedAt := t |}]) =
                  Some (length likes, {| like_user := u; likedAt := t |})).
  { apply list_find_Some. split_and!.
    - by rewrite lookup_app_r, Nat.sub_diag by lia.
    - done.
    - intros m y Hm Hlt Hy. rewrite lookup_app_l in Hm by done.
      apply isLikedBy_false in Hn. apply Hn, list_elem_of_fmap.
      exists y. split; [done|]. by apply list_elem_of_lookup_2 in Hm. }
  rewrite Hfind. f_equal.
  rewrite delete_take_drop, take_app_length, drop_ge; [apply app_nil_r|].
  rewrite length_app. simpl. lia.
Qed.

Lemma toggleLike_twice_witness :
  toggleLike 6 7%N (toggleLike 5 7%N sample_likes).1 = (sample_likes, false).
Proof. apply (toggleLike_twice 5 6 7%N sample_likes). by vm_compute. Defined.

(** * Further properties of the upload middleware *)

(** ** Stored file names *)

Lemma lower_ascii_dot (c : Ascii.ascii) :
  Ascii.eqb (lower_ascii c) (Ascii.ascii_of_nat 46) =
  Ascii.eqb c (Ascii.ascii_of_nat 46).
Proof. destruct c as [[] [] [] [] [] [] [] []]; reflexivity. Qed.

Lemma split_last_dot_lower (s : string) :
  Path.split_last_dot (toLowerCase s) =
  (λ ps, (toLowerCase ps.1, toLowerCase ps.2)) <$> Path.split_last_dot s.
Proof.
  induction s as [|c s IH]; [done|].
  cbn [toLowerCase Path.split_last_dot]. rewrite IH, lower_ascii_dot.
  destruct (Path.split_last_dot s) as [[pre suf]|]; [done|].
  by destruct (Ascii.eqb c _).
Qed.

(** X20: the name under which an upload is stored is the identifier
    followed by the extension of the original name in lower case: its
    extension is that lower-cased extension and its stem is the
    identifier, so the derivatives are named after the identifier. *)
Theorem storage_filename_parts (uniqueName originalname' : string) :
  Path.split_last_dot uniqueName = None → uniqueName ≠ EmptyString →
  Path.extname (storage_filename uniqueName originalname') =
    toLowerCase (Path.extname originalname') ∧
  Path.parse_name (storage_filename uniqueName originalname') = uniqueName.
Proof.
  intros Hnodot Hne. unfold storage_filename.
  destruct (path_cases originalname')
    as [(-> & _)|(c & pre & suf & E & -> & _ & Hsuf)].
  - cbn [toLowerCase]. rewrite append_empty_r.
    unfold Path.parse_name, Path.extname. rewrite Hnodot.
    cbn [String.length]. by rewrite Nat.sub_0_r, substring_full.
  - assert (Hlow : toLowerCase ("." +:+ suf) = "." +:+ toLowerCase suf) by done.
    rewrite Hlow.
    assert (Hx : Path.split_last_dot ("." +:+ toLowerCase suf) =
                 Some (EmptyString, toLowerCase suf)).
    { push_append. by rewrite split_last_dot_lower, Hsuf. }
    assert (Hext : Path.extname (uniqueName +:+ "." +:+ toLowerCase suf) =
                   "." +:+ toLowerCase suf).
    { unfold Path.extname. rewrite split_last_dot_app, Hx, append_empty_r.
      destruct uniqueName as [|c0 u]; [done|].
      match goal with |- (if ?b then _ else _) = _ => destruct b eqn:Hb end;
        [|done].
      exfalso. apply orb_true_iff in Hb as [Hb|Hb]; [done|].
      apply String.eqb_eq in Hb. rewrite append_cons in Hb.
      injection Hb as -> Hb. simpl in Hnodot.
      by destruct (Path.split_last_dot u) as [[? ?]|]. }
    split; [done|]. unfold Path.parse_name. rewrite Hext, length_append.
    replace (_ + _ - _)%nat with (String.length uniqueName) by lia.
    apply substring_prefix.
Qed.

Lemma storage_filename_parts_witness :
  Path.extname (storage_filename "0f0e-11" "Photo.JPG") =
    toLowerCase (Path.extname "Photo.JPG") ∧
  Path.parse_name (storage_filename "0f0e-11" "Photo.JPG") = "0f0e-11"%string.
Proof. apply (storage_filename_parts "0f0e-11" "Photo.JPG"); by vm_compute. Defined.

(** ** Rejected uploads *)

(** X21: [fileFilter] accepts exactly the five configured types, and the
    error with which it rejects any other type is one [handleUploadError]
    answers with status 400 instead of passing it on. *)
Theorem fileFilter_handled (mimetype' : string) :
  (mimetype' ∈ allowedTypes ∧ fileFilter mimetype' = None) ∨
  ((mimetype' ∉ allowedTypes) ∧
   ∃ err, fileFilter mimetype' = Some err ∧ handleUploadError err = Some 400).
Proof.
  unfold fileFilter. case_bool_decide as Hm; [by left|right].
  split; [done|]. eexists. split; [done|]. by vm_compute.
Qed.

(** ** Cleaning up *)

Lemma cleanup_step (f : upload) (fs : Fs) :
  ∃ fs1, try_catch
           (_ ← unlink (filename f);
            unlinkThumbnails (filename f) thumbnailSizes.*1)
           (λ _, mret ()) fs = (fs1, inr ()) ∧
    (fs !! filename f = None → fs1 = fs) ∧
    ∀ name, fs1 !! name = fs !! name ∨
            (fs1 !! name = None ∧ name ∈ asset_files (filename f)).
Proof.
  unfold try_catch, mbind, FsM_bind, unlink.
  destruct (fs !! filename f) as [x|] eqn:Hx.
  - destruct (unlinkThumbnails_spec (filename f) thumbnailSizes.*1
                (delete (filename f) fs)) as (fs' & Hrun & Hfs').
    exists fs'. rewrite Hrun. split_and!; [done|done|].
    intros name. rewrite Hfs'. unfold asset_files.
    destruct (decide _) as [Hin|Hin].
    + right. split; [done|]. by right.
    + destruct (decide (name = filename f)) as [->|Hne].
      * right. rewrite lookup_delete_eq. split; [done|left].
      * left. by rewrite lookup_delete_ne.
  - exists fs. split_and!; [done|done|]. by left.
Qed.

(** X22: [cleanupFiles] never throws and only removes: every file it
    leaves was there before, unchanged, and a file that belongs to none of
    the uploads it was given is left in place. *)
Theorem cleanupFiles_only_removes (fls : list upload) (fs : Fs) :
  ∃ fs', cleanupFiles fls fs = (fs', inr ()) ∧ fs' ⊆ fs ∧
    ∀ name, (∀ f, f ∈ fls → name ∉ asset_files (filename f)) →
            fs' !! name = fs !! name.
Proof.
  revert fs. induction fls as [|f fls IH]; intros fs.
  - exists fs. by split_and!.
  - destruct (cleanup_step f fs) as (fs1 & Hstep & _ & Hfs1).
    destruct (IH fs1) as (fs' & Hrun & Hsub & Hframe).
    exists fs'. split_and!.
    + cbn [cleanupFiles]. unfold mbind at 1, FsM_bind at 1.
      by rewrite Hstep.
    + etrans; [exact Hsub|]. apply map_subseteq_spec. intros name x Hx.
      destruct (Hfs1 name) as [<-|[Hn _]]; [done|congruence].
    + intros name Hname. rewrite Hframe.
      * destruct (Hfs1 name) as [?|[_ Hin]]; [done|].
        destruct (Hname f); [left|done].
      * intros g Hg. apply Hname. by right.
Qed.

(** X23: [cleanupFiles] removes the thumbnails of an upload only after it
    has removed the original: when no original of the uploads it is given
    is stored, it removes nothing, thumbnails of theirs that are stored
    included. *)
Theorem cleanupFiles_skips_orphans (fls : list upload) (fs : Fs) :
  (∀ f, f ∈ fls → fs !! filename f = None) →
  cleanupFiles fls fs = (fs, inr ()).
Proof.
  induction fls as [|f fls IH]; intros Hnone; [done|].
  destruct (cleanup_step f fs) as (fs1 & Hstep & Hsame & _).
  cbn [cleanupFiles]. unfold mbind at 1, FsM_bind at 1. rewrite Hstep.
  rewrite (Hsame (Hnone f ltac:(left))). apply IH.
  intros g Hg. apply Hnone. by right.
Qed.

Lemma cleanupFiles_skips_orphans_witness :
  cleanupFiles [sample_upload] (delete "u1.jpg"%string stored_fs) =
  (delete "u1.jpg"%string stored_fs, inr ()).
Proof.
  apply (cleanupFiles_skips_orphans [sample_upload]).
  intros f Hf. apply list_elem_of_singleton in Hf as ->. by vm_compute.
Defined.

(** The three thumbnails of the sample are still stored after that call. *)
Lemma orphaned_thumbnails_stay :
  dom (cleanupFiles [sample_upload] (delete "u1.jpg"%string stored_fs)).1 =
  {[ "u1_small.jpg"; "u1_medium.jpg"; "u1_large.jpg" ]}%string.
Proof. by vm_compute. Qed.

(** ** What an ingestion writes *)

Section IngestionFrame.

Context (e : env).

Lemma sharp_thumbnail_frame src dims dst (fs : Fs) name :
  name ≠ dst → (sharp_thumbnail e src dims dst fs).1 !! name = fs !! name.
Proof.
  intros Hne. unfold sharp_thumbnail.
  destruct (fs !! src); [|done]. destruct (toFile_fails e dst); [done|].
  simpl. by rewrite lookup_insert_ne.
Qed.

Lemma makeThumbnails_frame f sizes (fs : Fs) name :
  (∀ s, s ∈ sizes.*1 → name ≠ thumbnailName (filename f) s) →
  (makeThumbnails e f sizes fs).1 !! name = fs !! name.
Proof.
  revert fs. induction sizes as [|[s dims] sizes IH]; intros fs Hname; [done|].
  cbn [makeThumbnails]. unfold mbind, FsM_bind.
  pose proof (sharp_thumbnail_frame (filename f) dims
                (thumbnailName (filename f) s) fs name) as H1.
  destruct (sharp_thumbnail _ _ _ _ fs) as [fs1 [err|[]]].
  - apply H1, Hname. left.
  - specialize (IH fs1). rewrite <- H1 by (apply Hname; left).
    destruct (makeThumbnails e f sizes fs1) as [fs2 [err|ths]];
      apply IH; intros s' Hs'; apply Hname; by right.
Qed.

Lemma processOne_frame (n : nat) f (fs : Fs) name :
  (∀ s, s ∈ thumbnailSizes.*1 → name ≠ thumbnailName (filename f) s) →
  (processOne e n f fs).1 !! name = fs !! name.
Proof.
  intros Hname. unfold processOne, mbind, FsM_bind.
  pose proof (makeThumbnails_frame f thumbnailSizes fs name Hname) as H1.
  destruct (makeThumbnails e f thumbnailSizes fs) as [fs1 [err|ths]]; [done|].
  unfold sharp_metadata. by destruct (fs1 !! filename f).
Qed.

Lemma processFiles_frame (n : nat) fls (fs : Fs) name :
  (∀ f s, f ∈ fls → s ∈ thumbnailSizes.*1 →
          name ≠ thumbnailName (filename f) s) →
  (processFiles e n fls fs).1 !! name = fs !! name.
Proof.
  revert n fs. induction fls as [|f fls IH]; intros n fs Hname; [done|].
  cbn [processFiles]. unfold mbind, FsM_bind.
  pose proof (processOne_frame n f fs name
                (λ s Hs, Hname f s ltac:(left) Hs)) as H1.
  destruct (processOne e n f fs) as [fs1 [err|pim]]; [done|].
  rewrite <- H1. specialize (IH (S n) fs1).
  destruct (processFiles e (S n) fls fs1) as [fs2 [err|pims]];
    apply IH; intros g s Hg; apply Hname; by right.
Qed.

(** A run of the thumbnail loop succeeds when the source is stored and no
    output path fails. *)
Lemma makeThumbnails_succeeds f sizes (fs : Fs) :
  is_Some (fs !! filename f) →
  (∀ s, s ∈ sizes.*1 → toFile_fails e (thumbnailName (filename f) s) = false) →
  ∃ fs', makeThumbnails e f sizes fs = (fs', inr (thumbnail_of e f <$> sizes)).
Proof.
  revert fs. induction sizes as [|[s dims] sizes IH]; intros fs Hsrc Hok.
  - by exists fs.
  - cbn [makeThumbnails]. unfold mbind, FsM_bind.
    pose proof (sharp_thumbnail_keeps e (filename f) dims
                  (thumbnailName (filename f) s) fs (filename f) Hsrc) as Hkeep.
    unfold sharp_thumbnail in *. destruct Hsrc as [x Hx]. rewrite Hx in *.
    rewrite (Hok s ltac:(left)) in *. cbn [fst] in Hkeep.
    destruct (IH _ Hkeep) as (fs' & Hrun).
    { intros s' Hs'. apply Hok. by right. }
    exists fs'. by rewrite Hrun.
Qed.

Lemma processOne_succeeds (n : nat) f (fs : Fs) :
  is_Some (fs !! filename f) →
  (∀ s, s ∈ thumbnailSizes.*1 →
        toFile_fails e (thumbnailName (filename f) s) = false) →
  ∃ fs' pim, processOne e n f fs = (fs', inr pim) ∧
             pi_filename pim = filename f ∧
             pi_thumbnails pim = thumbnail_of e f <$> thumbnailSizes.
Proof.
  intros Hsrc Hok.
  destruct (makeThumbnails_succeeds f thumbnailSizes fs Hsrc Hok) as (fs' & Hrun).
  pose proof (makeThumbnails_keeps e f thumbnailSizes fs (filename f) Hsrc) as Hkeep.
  rewrite Hrun in Hkeep. cbn [fst] in Hkeep. destruct Hkeep as [x Hx].
  unfold processOne, mbind, FsM_bind, sharp_metadata. rewrite Hrun, Hx.
  by eexists _, _.
Qed.

Lemma processFiles_succeeds (n : nat) fls (fs : Fs) :
  (∀ f, f ∈ fls → is_Some (fs !! filename f)) →
  (∀ f s, f ∈ fls → s ∈ thumbnailSizes.*1 →
          toFile_fails e (thumbnailName (filename f) s) = false) →
  ∃ fs' pims, processFiles e n fls fs = (fs', inr pims) ∧
    pi_filename <$> pims = filename <$> fls ∧
    Forall (λ pim, (pi_thumbnails pim).*1 = thumbnailSizes.*1) pims.
Proof.
  revert n fs. induction fls as [|f fls IH]; intros n fs Hsrc Hok.
  - by exists fs, [].
  - destruct (processOne_succeeds n f fs) as (fs1 & pim & Hone & Hname & Hths).
    { apply Hsrc. left. }
    { intros s. apply Hok. left. }
    destruct (IH (S n) fs1) as (fs' & pims & Hrun & Hnames & Hall).
    { intros g Hg.
      pose proof (processOne_keeps e n f fs (filename g) (Hsrc g ltac:(by right))) as H.
      by rewrite Hone in H. }
    { intros g s Hg. apply Hok. by right. }
    exists fs', (pim :: pims). split_and!.
    + cbn [processFiles]. unfold mbind, FsM_bind. by rewrite Hone, Hrun.
    + rewrite !fmap_cons. by f_equal.
    + constructor; [|done]. rewrite Hths. rewrite <- list_fmap_compose.
      by apply list_fmap_ext.
Qed.

(** A successful run gives one descriptor per file and met no failing
    output path. *)
Lemma processFiles_success_inv (n : nat) fls (fs fs' : Fs) pims :
  processFiles e n fls fs = (fs', inr pims) →
  length pims = length fls ∧
  ∀ f s, f ∈ fls → s ∈ thumbnailSizes.*1 →
         toFile_fails e (thumbnailName (filename f) s) = false.
Proof.
  revert n fs fs' pims. induction fls as [|f fls IH]; intros n fs fs' pims.
  - intros [= <- <-]. split; [done|]. intros f s Hf. by apply elem_of_nil in Hf.
  - cbn [processFiles]. unfold mbind, FsM_bind.
    destruct (processOne e n f fs) as [fs1 [err|pim]] eqn:E1; [discriminate|].
    destruct (processFiles e (S n) fls fs1) as [fs2 [err|pims']] eqn:E2;
      [discriminate|].
    unfold mret, FsM_ret. intros [= <- <-].
    destruct (IH _ _ _ _ E2) as [Hlen Hok]. split; [simpl; lia|].
    intros g s Hg Hs. apply elem_of_cons in Hg as [->|Hg]; [|by apply Hok].
    apply processOne_ok in E1 as [E1 _]. clear E2 IH Hok Hlen.
    revert s Hs fs fs1 E1.
    generalize thumbnailSizes. intros sizes.
    induction sizes as [|[s0 dims] sizes IHs]; intros s Hs fs fs1.
    + by apply elem_of_nil in Hs.
    + cbn [makeThumbnails]. unfold mbind, FsM_bind.
      destruct (sharp_thumbnail e (filename f) dims
                  (thumbnailName (filename f) s0) fs) as [fsa [err|[]]] eqn:Ea;
        [discriminate|].
      destruct (makeThumbnails e f sizes fsa) as [fsb [err|ths]] eqn:Eb;
        [discriminate|].
      intros _. rewrite fmap_cons in Hs. apply elem_of_cons in Hs as [->|Hs].
      * by apply sharp_thumbnail_ok in Ea as (_ & ? & _).
      * assert (ths = thumbnail_of e f <$> sizes) as ->.
        { by destruct (makeThumbnails_ok e f sizes fsa fsb ths Eb) as [-> _]. }
        by apply (IHs s Hs fsa fsb).
Qed.

End IngestionFrame.

Lemma thumbnailName_neq (name s : string) : thumbnailName name s ≠ name.
Proof.
  intros H. apply (f_equal String.length) in H.
  pose proof (f_equal String.length (parse_name_extname name)) as Hlen.
  unfold thumbnailName in H. rewrite length_append in Hlen.
  repeat rewrite length_append in H.
  change (String.length "_") with 1%nat in H. lia.
Qed.

(** X24: whether it succeeds or fails, [processImage] writes nothing but
    the derivative paths of the files of the request: a file stored under
    any other name is the same file afterwards, and a name that was free
    stays free. *)
Theorem processImage_frame e fls (fs : Fs) name :
  (∀ f s, f ∈ fls → s ∈ thumbnailSizes.*1 →
          name ≠ thumbnailName (filename f) s) →
  (processImage e fls fs).1 !! name = fs !! name.
Proof. rewrite processImage_eq. apply processFiles_frame. Qed.

Lemma processImage_frame_witness :
  (processImage failing_env [sample_upload] fresh_fs).1 !! "other.png"%string =
  fresh_fs !! "other.png"%string.
Proof.
  apply (processImage_frame failing_env [sample_upload] fresh_fs).
  intros f s Hf Hs. apply list_elem_of_singleton in Hf as ->.
  revert s Hs. apply Forall_forall. repeat constructor; by vm_compute.
Defined.

(** X25: the original of an upload is never one of its own derivative
    paths, so processing one upload, successfully or not, leaves the
    original as multer stored it. *)
Theorem processImage_original_intact e (f : upload) (fs : Fs) :
  (∀ s, thumbnailName (filename f) s ≠ filename f) ∧
  (processImage e [f] fs).1 !! filename f = fs !! filename f.
Proof.
  split; [intros s; apply thumbnailName_neq|].
  rewrite processImage_eq. apply processFiles_frame.
  intros g s Hg _. apply list_elem_of_singleton in Hg as ->.
  intros H. symmetry in H. by apply thumbnailName_neq in H.
Qed.

(** X26: [processImage] succeeds whenever the original of every file of the
    request is stored and no derivative path of theirs fails; it then
    returns one descriptor per file, in the order of the request, each with
    the three profiles in the order of the configuration. *)
Theorem processImage_succeeds e fls (fs : Fs) :
  (∀ f, f ∈ fls → is_Some (fs !! filename f)) →
  (∀ f s, f ∈ fls → s ∈ thumbnailSizes.*1 →
          toFile_fails e (thumbnailName (filename f) s) = false) →
  ∃ fs' pims, processImage e fls fs = (fs', inr pims) ∧
    pi_filename <$> pims = filename <$> fls ∧
    Forall (λ pim, (pi_thumbnails pim).*1 = thumbnailSizes.*1) pims.
Proof. rewrite processImage_eq. apply processFiles_succeeds. Qed.

Lemma processImage_succeeds_witness :
  ∃ fs' pims, processImage sample_env [sample_upload] fresh_fs = (fs', inr pims) ∧
    pi_filename <$> pims = filename <$> [sample_upload] ∧
    Forall (λ pim, (pi_thumbnails pim).*1 = thumbnailSizes.*1) pims.
Proof.
  apply (processImage_succeeds sample_env [sample_upload] fresh_fs).
  - intros f Hf. apply list_elem_of_singleton in Hf as ->. by vm_compute; eexists.
  - done.
Defined.

(** X27: a successful [processImage] met no failing derivative path and
    returns as many descriptors as the request has files, so [uploadImages]
    answers 201 with that count, and 400 when the request had no file. *)
Theorem upload_answer e fls (fs fs' : Fs) pims :
  processImage e fls fs = (fs', inr pims) →
  (∀ f s, f ∈ fls → s ∈ thumbnailSizes.*1 →
          toFile_fails e (thumbnailName (filename f) s) = false) ∧
  uploadImages pims =
  match fls with
  | [] => (400, None)
  | _ => (201, Some (Z.of_nat (length fls)))
  end.
Proof.
  rewrite processImage_eq. intros E.
  destruct (processFiles_success_inv e 0 fls fs fs' pims E) as [Hlen Hok].
  split; [done|]. unfold uploadImages.
  destruct pims, fls; try discriminate; [done|]. by rewrite Hlen.
Qed.

Lemma upload_answer_witness :
  (∀ f s, f ∈ [sample_upload] → s ∈ thumbnailSizes.*1 →
          toFile_fails sample_env (thumbnailName (filename f) s) = false) ∧
  uploadImages
    match (processImage sample_env [sample_upload] fresh_fs).2 with
    | inr l => l
    | inl _ => []
    end = (201, Some (Z.of_nat (length [sample_upload]))).
Proof.
  destruct (processImage sample_env [sample_upload] fresh_fs)
    as [fs' [err|pims]] eqn:E; [by vm_compute in E|].
  apply (upload_answer sample_env [sample_upload] fresh_fs fs' pims E).
Defined.

(** ** Deleting and serving what was ingested *)

(** The directory a delete request leaves behind. *)
Lemma deleteImage_lookup name (fs : Fs) name' :
  (deleteImage name fs).1 !! name' =
  if decide (is_Some (fs !! name) ∧ name' ∈ asset_files name) then None
  else fs !! name'.
Proof.
  unfold deleteImage, access, mbind, FsM_bind, unlink, asset_files.
  destruct (fs !! name) as [x|] eqn:Hx.
  - destruct (unlinkThumbnails_spec name thumbnailSizes.*1 (delete name fs))
      as (fs' & Hrun & Hfs').
    rewrite Hrun. cbn [fst]. rewrite Hfs'.
    destruct (decide (name' ∈ thumbnailName name <$> thumbnailSizes.*1))
      as [Hin|Hin];
      destruct (decide (is_Some (Some x) ∧ name' ∈ name :: _)) as [Hd|Hd].
    + done.
    + destruct Hd. split; [done|by right].
    + destruct Hd as [_ Hd]. apply elem_of_cons in Hd as [->|Hd]; [|done].
      apply lookup_delete_eq.
    + rewrite lookup_delete_ne; [done|]. intros <-. apply Hd. split; [done|left].
  - cbn [fst]. destruct (decide _) as [[[? ?] _]|_]; done.
Qed.


(** X29: ingesting one upload and then deleting it by its file name is a
    round trip on the upload directory: if the derivative paths of the
    upload were free before the ingestion, the delete request answers 200
    and leaves exactly the directory as it was before multer stored the
    original. *)
Theorem ingest_then_delete e (f : upload) (fs fs' : Fs) pims :
  processImage e [f] fs = (fs', inr pims) →
  (∀ s, s ∈ thumbnailSizes.*1 → fs !! thumbnailName (filename f) s = None) →
  status (deleteImage (filename f) fs').2 = 200 ∧
  (deleteImage (filename f) fs').1 = delete (filename f) fs.
Proof.
  intros E Hfree.
  assert (Hframe : ∀ name,
            (∀ s, s ∈ thumbnailSizes.*1 → name ≠ thumbnailName (filename f) s) →
            fs' !! name = fs !! name).
  { intros name Hname.
    pose proof (processFiles_frame e 0 [f] fs name) as H.
    rewrite <- processImage_eq, E in H. apply H.
    intros g s Hg. apply list_elem_of_singleton in Hg as ->. by apply Hname. }
  assert (Hsrc : is_Some (fs !! filename f)).
  { rewrite processImage_eq in E. cbn [processFiles] in E.
    unfold mbind, FsM_bind in E.
    destruct (processOne e 0 f fs) as [fs1 [err|pim]] eqn:E1; [discriminate|].
    apply processOne_ok in E1 as [E1 _].
    cbn [thumbnailSizes makeThumbnails] in E1. unfold mbind, FsM_bind in E1.
    destruct (sharp_thumbnail e (filename f) _ _ fs) as [fsa [err|[]]] eqn:Ea;
      [discriminate|].
    by apply sharp_thumbnail_ok in Ea as (? & _). }
  assert (Hsrc' : is_Some (fs' !! filename f)).
  { rewrite Hframe; [done|]. intros s _ H. symmetry in H.
    by apply thumbnailName_neq in H. }
  split.
  - unfold deleteImage, access, mbind, FsM_bind, unlink.
    destruct Hsrc' as [x ->].
    destruct (unlinkThumbnails_spec (filename f) thumbnailSizes.*1
                (delete (filename f) fs')) as (fs2 & -> & _). done.
  - apply map_eq. intros name. rewrite deleteImage_lookup.
    destruct (decide (name = filename f)) as [->|Hne].
    + rewrite lookup_delete_eq. rewrite decide_True; [done|]. split; [done|left].
    + rewrite lookup_delete_ne by done.
      destruct (decide (name ∈ thumbnailName (filename f) <$> thumbnailSizes.*1))
        as [Hin|Hin].
      * rewrite decide_True by (split; [done|by right]).
        apply list_elem_of_fmap in Hin as (s & -> & Hs). symmetry. by apply Hfree.
      * rewrite decide_False.
        -- apply Hframe. intros s Hs ->. apply Hin. by apply list_elem_of_fmap_2.
        -- intros [_ H]. apply elem_of_cons in H as [?|?]; done.
Qed.

Lemma ingest_then_delete_witness :
  status (deleteImage (filename sample_upload)
            (processImage sample_env [sample_upload] fresh_fs).1).2 = 200 ∧
  (deleteImage (filename sample_upload)
     (processImage sample_env [sample_upload] fresh_fs).1).1 =
  delete (filename sample_upload) fresh_fs.
Proof.
  destruct (processImage sample_env [sample_upload] fresh_fs)
    as [fs' [err|pims]] eqn:E; [by vm_compute in E|].
  apply (ingest_then_delete sample_env sample_upload fresh_fs fs' pims E).
  apply Forall_forall. repeat constructor; by vm_compute.
Defined.

Lemma contentType_thumbnailName (name s : string) :
  name ≠ ".."%string → s ∈ thumbnailSizes.*1 →
  contentType (thumbnailName name s) = contentType name.
Proof.
  intros Hname Hs. unfold contentType. by rewrite extname_thumbnailName.
Qed.

(** X30: after a successful ingestion, a request for a derivative is
    answered 200 with the [Content-Type] of the original's extension while
    the file that is sent holds JPEG data: the thumbnail of an upload named
    [.png] goes out as [image/png] with JPEG bytes. *)
Theorem derivative_content_type e fls (fs fs' : Fs) pims f s :
  processImage e fls fs = (fs', inr pims) →
  f ∈ fls → s ∈ thumbnailSizes.*1 → filename f ≠ ".."%string →
  ∃ sent : file, getImage_sends (thumbnailName (filename f) s) fs' =
         (200, Some (contentType (filename f), sent)) ∧
       file_format sent = JPEG.
Proof.
  rewrite processImage_eq. intros E Hf Hs Hname.
  destruct (processFiles_jpeg85 _ _ _ _ _ _ _ _ E Hf Hs) as (x & Hd & Hfmt & _).
  exists x. split; [|done].
  unfold getImage_sends, access. rewrite Hd. cbn [fmap option_fmap option_map].
  by rewrite contentType_thumbnailName.
Qed.

Lemma derivative_content_type_witness :
  ∃ sent : file, getImage_sends (thumbnailName (filename png_upload) "small")
         (processImage sample_env [png_upload] png_fs).1 =
         (200, Some ("image/png"%string, sent)) ∧
       file_format sent = JPEG.
Proof.
  destruct (processImage sample_env [png_upload] png_fs)
    as [fs' [err|pims]] eqn:E; [by vm_compute in E|].
  apply (derivative_content_type sample_env [png_upload] png_fs fs' pims
           png_upload "small"%string E); [left|left|by vm_compute].
Defined.

